(** * go-algo: edit distance over lists and minimum-cost assignment

    A shallow embedding of the two engines of the repository:
    - [listdist.Distance], the single-row edit-distance dynamic program
      over [[]any] with per-pair costs, a reserved [Inhibit] cost and an
      optional cutoff;
    - [assign.Assign] with its solver [optimalCost], the Hungarian
      algorithm over an opaque, caller-defined cost type.

    Go slices are lists read with [!!!] and written with [<[i:=x]>]; the
    invariants of the loops keep the indices the code computes in range.
    Loops without a bound of their own take a number of iterations
    allowed and return [None] when it runs out.  [int64]
    arithmetic is [Z] arithmetic followed by [wrap64].  The definitions
    come first, the statements about them follow. *)

From stdpp Require Import base decidable option numbers list strings.
From Stdlib Require Import ZArith Lia.

Local Open Scope Z_scope.

(** ** Package listdist: the code *)

Module listdist.

(** [type CostInt int64]: two's complement wrap-around written out. *)
Definition wrap64 (z : Z) : Z := (z + 2 ^ 63) `mod` 2 ^ 64 - 2 ^ 63.

(** The values an [int64] can hold. *)
Definition int64 (z : Z) : Prop := - 2 ^ 63 ≤ z < 2 ^ 63.

(** [const Inhibit = 1<<63 - 1] *)
Definition Inhibit : Z := 2 ^ 63 - 1.

(** [type Cost struct { SwapAB, DeleteA, InsertB CostInt }] *)
Record Cost := mkCost { SwapAB : Z; DeleteA : Z; InsertB : Z }.

Section Distance.

(** The elements are Go [any] values; [nil] is the absent element handed
    to the cost function.  [==] on interface values of comparable dynamic
    type is a decidable equality. *)
Context {any : Type} `{EqDecision any} (nil : any).

Definition CostFunc := any → any → Cost.

(** [func StandardCost(ar, br any) Cost] *)
Definition StandardCost : CostFunc := λ _ _, mkCost 1 1 1.

(** The first loop of [Distance]:
    [for bi, br := range b { cost := f(nil, br); ... lst[bi+1] = ... }]. *)
Fixpoint base_loop (f : CostFunc) (b : list any) (bi : nat) (lst : list Z)
  : list Z :=
  match b with
  | [] => lst
  | br :: b' =>
      let cost := f nil br in
      let lst' :=
        if bool_decide (InsertB cost = Inhibit ∨ lst !!! bi = Inhibit)
        then <[S bi := Inhibit]> lst
        else <[S bi := wrap64 (lst !!! bi + InsertB cost)]> lst in
      base_loop f b' (S bi) lst'
  end.

(** The local variables of the loop over [b] inside one row. *)
Record row_state := mkRow
  { last : Z; lst : list Z; idx : nat; stop : bool }.

(** One iteration of [for _, br := range b { i++; ... }]. *)
Definition cell_step (f : CostFunc) (cut : Z) (ar : any)
    (s : row_state) (br : any) : row_state :=
  let i := S (idx s) in
  let cost := f ar br in
  let min := Inhibit in
  let min :=
    if bool_decide (ar = br) then last s
    else if bool_decide (SwapAB cost ≠ Inhibit ∧ last s ≠ Inhibit)
         then wrap64 (last s + SwapAB cost)
         else min in
  let min :=
    if bool_decide (InsertB cost ≠ Inhibit ∧ lst s !!! (i - 1)%nat ≠ Inhibit)
    then let n := wrap64 (lst s !!! (i - 1)%nat + InsertB cost) in
         if bool_decide (n < min) then n else min
    else min in
  let min :=
    if bool_decide (DeleteA cost ≠ Inhibit ∧ lst s !!! i ≠ Inhibit)
    then let n := wrap64 (lst s !!! i + DeleteA cost) in
         if bool_decide (n < min) then n else min
    else min in
  {| last := lst s !!! i;
     lst := <[i := min]> (lst s);
     idx := i;
     stop := if bool_decide (min < cut) then false else stop s |}.

(** The body of [for _, ar := range a] up to the cutoff test. *)
Definition row_step (f : CostFunc) (cut : Z) (b : list any)
    (lst0 : list Z) (ar : any) : row_state :=
  let last0 := lst0 !!! 0%nat in
  let cost := f ar nil in
  let lst1 :=
    if bool_decide (DeleteA cost = Inhibit ∨ last0 = Inhibit)
    then <[0%nat := Inhibit]> lst0
    else <[0%nat := wrap64 (last0 + DeleteA cost)]> lst0 in
  foldl (cell_step f cut ar)
        {| last := last0; lst := lst1; idx := 0; stop := true |} b.

(** [for _, ar := range a { ...; if cut != 0 && stop { break } }] *)
Fixpoint rows (f : CostFunc) (cut : Z) (b : list any) (a : list any)
    (lst0 : list Z) : list Z :=
  match a with
  | [] => lst0
  | ar :: a' =>
      let s := row_step f cut b lst0 ar in
      if bool_decide (cut ≠ 0) && stop s then lst s
      else rows f cut b a' (lst s)
  end.

(** [func Distance(a, b []any, f CostFunc, cut int64) int64] *)
Definition Distance (a b : list any) (f : CostFunc) (cut : Z) : Z :=
  let lst0 := base_loop f b 0 (replicate (length b + 1) 0) in
  let lst1 := rows f cut b a lst0 in
  lst1 !!! (length lst1 - 1)%nat.

(** *** The table the loops fill

    [dp f ra rb] is the cell the code computes for the prefix of [a] whose
    reversal is [ra] and the prefix of [b] whose reversal is [rb] (most
    recently consumed element first), with the code's own arithmetic:
    the sentinel is tested before every sum and every sum wraps. *)

Definition add_inh (p w : Z) : Z :=
  if bool_decide (w = Inhibit ∨ p = Inhibit) then Inhibit
  else wrap64 (p + w).

Definition cell_val (same : bool) (cost : Cost) (diag left up : Z) : Z :=
  let min :=
    if same then diag
    else if bool_decide (SwapAB cost ≠ Inhibit ∧ diag ≠ Inhibit)
         then wrap64 (diag + SwapAB cost) else Inhibit in
  let min :=
    if bool_decide (InsertB cost ≠ Inhibit ∧ left ≠ Inhibit)
    then let n := wrap64 (left + InsertB cost) in
         if bool_decide (n < min) then n else min
    else min in
  if bool_decide (DeleteA cost ≠ Inhibit ∧ up ≠ Inhibit)
  then let n := wrap64 (up + DeleteA cost) in
       if bool_decide (n < min) then n else min
  else min.

Fixpoint dp (f : CostFunc) (ra rb : list any) {struct ra} : Z :=
  match ra with
  | [] =>
      (fix row0 (rb : list any) : Z :=
         match rb with
         | [] => 0
         | br :: rb' => add_inh (row0 rb') (InsertB (f nil br))
         end) rb
  | ar :: ra' =>
      (fix rowi (rb : list any) : Z :=
         match rb with
         | [] => add_inh (dp f ra' []) (DeleteA (f ar nil))
         | br :: rb' =>
             cell_val (bool_decide (ar = br)) (f ar br)
                      (dp f ra' rb') (rowi rb') (dp f ra' rb)
         end) rb
  end.

(** *** Edit paths, as the code prices them

    A path consumes [a] and [b] from the front; [ra] and [rb] are the
    consumed parts, latest element first.  A substitution of equal
    elements is free and never asks [f]; an inhibited move is not a move.
    Deleting [ar] is priced by [f ar br] where [br] is the element of [b]
    consumed last ([nil] before the first one); inserting [br] is priced
    by [f ar br] where [ar] is the element of [a] consumed last. *)

Definition ctx (r : list any) : any := hd nil r.

Inductive path (f : CostFunc) : list any → list any → Z → Prop :=
  | path_start : path f [] [] 0
  | path_same ar ra rb c :
      path f ra rb c → path f (ar :: ra) (ar :: rb) c
  | path_swap ar br ra rb c :
      ar ≠ br → SwapAB (f ar br) ≠ Inhibit →
      path f ra rb c → path f (ar :: ra) (br :: rb) (c + SwapAB (f ar br))
  | path_insert br ra rb c :
      InsertB (f (ctx ra) br) ≠ Inhibit →
      path f ra rb c → path f ra (br :: rb) (c + InsertB (f (ctx ra) br))
  | path_delete ar ra rb c :
      DeleteA (f ar (ctx rb)) ≠ Inhibit →
      path f ra rb c → path f (ar :: ra) rb (c + DeleteA (f ar (ctx rb))).

(** [d] is the least cost of a path. *)
Definition min_cost (f : CostFunc) (a b : list any) (d : Z) : Prop :=
  path f (rev a) (rev b) d ∧ ∀ c, path f (rev a) (rev b) c → d ≤ c.

Definition feasible (f : CostFunc) (a b : list any) : Prop :=
  ∃ c, path f (rev a) (rev b) c.

(** The same recurrence over exact integers, [None] for "no path". *)
Definition oadd (x : option Z) (w : Z) : option Z :=
  if bool_decide (w = Inhibit) then None else (λ p, p + w) <$> x.

Definition omin (x y : option Z) : option Z :=
  match x, y with
  | Some p, Some q => Some (Z.min p q)
  | Some p, None => Some p
  | None, _ => y
  end.

Fixpoint ed (f : CostFunc) (ra rb : list any) {struct ra} : option Z :=
  match ra with
  | [] =>
      (fix row0 (rb : list any) : option Z :=
         match rb with
         | [] => Some 0
         | br :: rb' => oadd (row0 rb') (InsertB (f nil br))
         end) rb
  | ar :: ra' =>
      (fix rowi (rb : list any) : option Z :=
         match rb with
         | [] => oadd (ed f ra' []) (DeleteA (f ar nil))
         | br :: rb' =>
             omin (omin (if bool_decide (ar = br) then ed f ra' rb'
                         else oadd (ed f ra' rb') (SwapAB (f ar br)))
                        (oadd (rowi rb') (InsertB (f ar br))))
                  (oadd (ed f ra' rb) (DeleteA (f ar br)))
         end) rb
  end.

(** The recurrence in the words of the specification: a deletion of
    [A[i]] always costs [f(A[i], absent).delete] and an insertion of
    [B[j]] always costs [f(absent, B[j]).insert]. *)
Fixpoint ed_spec (f : CostFunc) (ra rb : list any) {struct ra} : option Z :=
  match ra with
  | [] =>
      (fix row0 (rb : list any) : option Z :=
         match rb with
         | [] => Some 0
         | br :: rb' => oadd (row0 rb') (InsertB (f nil br))
         end) rb
  | ar :: ra' =>
      (fix rowi (rb : list any) : option Z :=
         match rb with
         | [] => oadd (ed_spec f ra' []) (DeleteA (f ar nil))
         | br :: rb' =>
             omin (omin (if bool_decide (ar = br) then ed_spec f ra' rb'
                         else oadd (ed_spec f ra' rb') (SwapAB (f ar br)))
                        (oadd (rowi rb') (InsertB (f nil br))))
                  (oadd (ed_spec f ra' rb) (DeleteA (f ar nil)))
         end) rb
  end.

(** Every cost [f] returns is the sentinel or lies in [0, K], and [K]
    times the number of elements stays below the sentinel: no sum the
    code forms can wrap or collide with [Inhibit]. *)
Definition cost_ok (K : Z) (w : Z) : Prop := w = Inhibit ∨ 0 ≤ w ≤ K.

Definition bounded (f : CostFunc) (K : Z) (a b : list any) : Prop :=
  0 ≤ K ∧ K * Z.of_nat (length a + length b) < Inhibit ∧
  ∀ x y, cost_ok K (SwapAB (f x y)) ∧ cost_ok K (DeleteA (f x y)) ∧
         cost_ok K (InsertB (f x y)).

(** [p] is the machine value of the exact value [o], which is at most [B]. *)
Definition fits (B : Z) (o : option Z) (p : Z) : Prop :=
  p = default Inhibit o ∧ ∀ d, o = Some d → 0 ≤ d ≤ B.

(** The rolling row after the rows of [ra] have been processed. *)
Definition is_row (f : CostFunc) (ra : list any) (b : list any)
    (l : list Z) : Prop :=
  length l = S (length b) ∧
  ∀ j, (j ≤ length b)%nat → l !!! j = dp f ra (rev (take j b)).

(** The state of the loop over [b] after [k] cells of the row of [ar]. *)
Definition mid_row (f : CostFunc) (cut : Z) (ar : any) (ra : list any)
    (b : list any) (k : nat) (s : row_state) : Prop :=
  length (lst s) = S (length b) ∧ idx s = k ∧
  last s = dp f ra (rev (take k b)) ∧
  (∀ j, (j ≤ k)%nat → lst s !!! j = dp f (ar :: ra) (rev (take j b))) ∧
  (∀ j, (k < j ≤ length b)%nat → lst s !!! j = dp f ra (rev (take j b))) ∧
  (stop s = true ↔
   ∀ j, (1 ≤ j ≤ k)%nat → ¬ dp f (ar :: ra) (rev (take j b)) < cut).

(** [f] read from the other side: the two elements change places, and
    what was priced as a deletion is priced as an insertion. *)
Definition mirror (f : CostFunc) : CostFunc := λ x y,
  mkCost (SwapAB (f y x)) (InsertB (f y x)) (DeleteA (f y x)).

End Distance.

(** *** Elements that cannot be compared

    [ar == br] on two interface values raises a run-time panic when both
    hold the same dynamic type and that type is not comparable (a slice,
    a map, a function).  [eqp] is [==] with [None] for that panic; the
    loops below are those of [Distance] with the panic passed on. *)
Section Comparable.
Context {any : Type} (nil : any) (eqp : any → any → option bool).

Definition cell_step_p (f : CostFunc (any:=any)) (cut : Z) (ar : any)
    (s : row_state) (br : any) : option row_state :=
  let i := S (idx s) in
  let cost := f ar br in
  let min := Inhibit in
  match eqp ar br with
  | None => None
  | Some same =>
      let min :=
        if same then last s
        else if bool_decide (SwapAB cost ≠ Inhibit ∧ last s ≠ Inhibit)
             then wrap64 (last s + SwapAB cost)
             else min in
      let min :=
        if bool_decide (InsertB cost ≠ Inhibit ∧ lst s !!! (i - 1)%nat ≠ Inhibit)
        then let n := wrap64 (lst s !!! (i - 1)%nat + InsertB cost) in
             if bool_decide (n < min) then n else min
        else min in
      let min :=
        if bool_decide (DeleteA cost ≠ Inhibit ∧ lst s !!! i ≠ Inhibit)
        then let n := wrap64 (lst s !!! i + DeleteA cost) in
             if bool_decide (n < min) then n else min
        else min in
      Some {| last := lst s !!! i;
              lst := <[i := min]> (lst s);
              idx := i;
              stop := if bool_decide (min < cut) then false else stop s |}
  end.

Definition row_step_p (f : CostFunc (any:=any)) (cut : Z) (b : list any)
    (lst0 : list Z) (ar : any) : option row_state :=
  let last0 := lst0 !!! 0%nat in
  let cost := f ar nil in
  let lst1 :=
    if bool_decide (DeleteA cost = Inhibit ∨ last0 = Inhibit)
    then <[0%nat := Inhibit]> lst0
    else <[0%nat := wrap64 (last0 + DeleteA cost)]> lst0 in
  foldl (λ os br, match os with
                  | None => None
                  | Some s => cell_step_p f cut ar s br
                  end)
        (Some {| last := last0; lst := lst1; idx := 0; stop := true |}) b.

Fixpoint rows_p (f : CostFunc (any:=any)) (cut : Z) (b : list any)
    (a : list any) (lst0 : list Z) : option (list Z) :=
  match a with
  | [] => Some lst0
  | ar :: a' =>
      match row_step_p f cut b lst0 ar with
      | None => None
      | Some s =>
          if bool_decide (cut ≠ 0) && stop s then Some (lst s)
          else rows_p f cut b a' (lst s)
      end
  end.

Definition Distance_p (a b : list any) (f : CostFunc (any:=any)) (cut : Z)
  : option Z :=
  let lst0 := base_loop nil f b 0 (replicate (length b + 1) 0) in
  match rows_p f cut b a lst0 with
  | None => None
  | Some lst1 => Some (lst1 !!! (length lst1 - 1)%nat)
  end.

End Comparable.

(** The test suite's [splitString]: one single-character string per
    character. *)
Definition splitString (s : string) : list (option string) :=
  (λ c, Some (String c EmptyString)) <$> String.list_ascii_of_string s.

(** Two cost functions used as concrete inputs.  [pair_priced] prices the
    three moves at 10 when both elements are present and at 1 when one of
    them is absent; [steep] makes the deletion of ["x"] cost [2^63 - 2]. *)
Definition pair_priced : CostFunc (any:=option string) := λ x y,
  match x, y with
  | Some _, Some _ => mkCost 10 10 10
  | _, _ => mkCost 1 1 1
  end.

Definition steep : CostFunc (any:=option string) := λ x _,
  if bool_decide (x = Some "x"%string) then mkCost 1 (2 ^ 63 - 2) 1
  else mkCost 1 1 1.

End listdist.

(** ** Package assign: the code *)

Module assign.

Local Open Scope nat_scope.

(** [type Cost interface { Less(other Cost) bool }] *)
Class CostIface (Cost : Type) := Less : Cost → Cost → bool.

Section Assign.

(** Nodes are Go [any] values, [nil] standing for "no node"; costs are
    values of an opaque type that implements [Cost] and, as
    [AssignOptions] asks, supports [==]. *)
Context {any : Type} (nil : any).
Context {Cost : Type} `{CostIface Cost} `{EqDecision Cost} `{Inhabited Cost}.

#[local] Instance any_inhabited : Inhabited any := populate nil.

(** [type Pair struct { Source, Target any; Cost Cost }] *)
Record Pair := mkPair { Source : any; Target : any; PairCost : Cost }.

(** [type AssignOptions struct { ... }] *)
Record AssignOptions := mkOptions
  { NodeKey : any → any;
    EditCost : any → any → Cost;
    AddCost : Cost → Cost → Cost;
    SubCost : Cost → Cost → Cost;
    MinCost : Cost;
    MaxCost : Cost }.

Context (options : AssignOptions).

(** *** optimalCost *)

(** The slices of [optimalCost]. *)
Record solver := mkSolver
  { sourceCost : list Cost;
    targetCost : list Cost;
    targetSource : list nat;
    minSlack : list Cost;
    targetTrail : list nat;
    visitedTarget : list bool }.

(** [costs[i][j]] *)
Definition at2 (costs : list (list Cost)) (i j : nat) : Cost :=
  (costs !!! i) !!! j.

(** The slices as [make] returns them and the loop
    [for i := 0; i <= n; i++ { sourceCost[i] = MinCost; targetCost[i] =
    MinCost; targetSource[i] = n }].  The zero [Cost] of [make] is the nil
    interface; it is overwritten before it is read, so any value stands
    for it. *)
Definition init_step (n : nat) (s : solver) (i : nat) : solver :=
  {| sourceCost := <[i := MinCost options]> (sourceCost s);
     targetCost := <[i := MinCost options]> (targetCost s);
     targetSource := <[i := n]> (targetSource s);
     minSlack := minSlack s;
     targetTrail := targetTrail s;
     visitedTarget := visitedTarget s |}.

Definition init_solver (n : nat) : solver :=
  foldl (init_step n)
    {| sourceCost := replicate (n + 1) inhabitant;
       targetCost := replicate (n + 1) inhabitant;
       targetSource := replicate (n + 1) 0;
       minSlack := replicate (n + 1) inhabitant;
       targetTrail := replicate (n + 1) 0;
       visitedTarget := replicate (n + 1) false |}
    (seq 0 (n + 1)).

(** [for j := 0; j <= n; j++ { minSlack[j] = MaxCost; targetTrail[j] = n;
    visitedTarget[j] = false }] *)
Definition reset_step (n : nat) (s : solver) (j : nat) : solver :=
  {| sourceCost := sourceCost s;
     targetCost := targetCost s;
     targetSource := targetSource s;
     minSlack := <[j := MaxCost options]> (minSlack s);
     targetTrail := <[j := n]> (targetTrail s);
     visitedTarget := <[j := false]> (visitedTarget s) |}.

(** The local variables of the scan for the edge of minimum slack:
    [minSlack], [targetTrail], [delta], [nextTarget]. *)
Definition scan_state : Type := list Cost * list nat * Cost * nat.

(** One iteration of [for j := 0; j < n; j++ { if !visitedTarget[j] {...} }]. *)
Definition scan_step (costs : list (list Cost)) (s : solver)
    (currentTarget currentSource : nat) (st : scan_state) (j : nat)
  : scan_state :=
  let '(ms, tr, delta, nextTarget) := st in
  if (visitedTarget s !!! j : bool) then st
  else
    let cost := at2 costs currentSource j in
    let curSlack := SubCost options cost (sourceCost s !!! currentSource) in
    let curSlack := SubCost options curSlack (targetCost s !!! j) in
    let '(ms, tr) :=
      if Less curSlack (ms !!! j)
      then (<[j := curSlack]> ms, <[j := currentTarget]> tr)
      else (ms, tr) in
    if Less (ms !!! j) delta then (ms, tr, ms !!! j, j)
    else (ms, tr, delta, nextTarget).

(** One iteration of [for j := 0; j <= n; j++ { if visitedTarget[j] {...}
    else {...} }]: the slices [sourceCost], [targetCost], [minSlack]. *)
Definition update_step (s : solver) (delta : Cost)
    (st : list Cost * list Cost * list Cost) (j : nat)
  : list Cost * list Cost * list Cost :=
  let '(sc, tc, ms) := st in
  if (visitedTarget s !!! j : bool) then
    let i := targetSource s !!! j in
    (<[i := AddCost options (sc !!! i) delta]> sc,
     <[j := SubCost options (tc !!! j) delta]> tc,
     ms)
  else (sc, tc, <[j := SubCost options (ms !!! j) delta]> ms).

(** The body of [for targetSource[currentTarget] != n { ... }]. *)
Definition grow_step (costs : list (list Cost)) (n : nat)
    (s : solver) (currentTarget : nat) : solver * nat :=
  let s1 :=
    {| sourceCost := sourceCost s;
       targetCost := targetCost s;
       targetSource := targetSource s;
       minSlack := minSlack s;
       targetTrail := targetTrail s;
       visitedTarget := <[currentTarget := true]> (visitedTarget s) |} in
  let currentSource := targetSource s1 !!! currentTarget in
  let '(ms, tr, delta, nextTarget) :=
    foldl (scan_step costs s1 currentTarget currentSource)
          (minSlack s1, targetTrail s1, MaxCost options, 0) (seq 0 n) in
  let '(sc, tc, ms) :=
    foldl (update_step s1 delta) (sourceCost s1, targetCost s1, ms)
          (seq 0 (n + 1)) in
  ({| sourceCost := sc;
      targetCost := tc;
      targetSource := targetSource s1;
      minSlack := ms;
      targetTrail := tr;
      visitedTarget := visitedTarget s1 |},
   nextTarget).

(** [for targetSource[currentTarget] != n { ... }]; the loop has no bound
    of its own, [fuel] counts its iterations and [None] means that they
    ran out. *)
Fixpoint grow (fuel : nat) (costs : list (list Cost)) (n : nat)
    (s : solver) (currentTarget : nat) : option (solver * nat) :=
  if bool_decide (targetSource s !!! currentTarget ≠ n) then
    match fuel with
    | O => None
    | S fuel' =>
        let '(s', nextTarget) := grow_step costs n s currentTarget in
        grow fuel' costs n s' nextTarget
    end
  else Some (s, currentTarget).

(** [for currentTarget != n { previousTarget := targetTrail[currentTarget];
    targetSource[currentTarget] = targetSource[previousTarget];
    currentTarget = previousTarget }] *)
Fixpoint flip (fuel : nat) (n : nat) (tr : list nat) (ts : list nat)
    (currentTarget : nat) : option (list nat) :=
  if bool_decide (currentTarget ≠ n) then
    match fuel with
    | O => None
    | S fuel' =>
        let previousTarget := tr !!! currentTarget in
        flip fuel' n tr (<[currentTarget := ts !!! previousTarget]> ts)
             previousTarget
    end
  else Some ts.

(** The body of the main loop [for i := 0; i < n; i++ { ... }]. *)
Definition phase (fuel : nat) (costs : list (list Cost)) (n : nat)
    (s : solver) (i : nat) : option solver :=
  let s1 :=
    {| sourceCost := sourceCost s;
       targetCost := targetCost s;
       targetSource := <[n := i]> (targetSource s);
       minSlack := minSlack s;
       targetTrail := targetTrail s;
       visitedTarget := visitedTarget s |} in
  let s2 := foldl (reset_step n) s1 (seq 0 (n + 1)) in
  match grow fuel costs n s2 n with
  | None => None
  | Some (s3, currentTarget) =>
      match flip fuel n (targetTrail s3) (targetSource s3) currentTarget with
      | None => None
      | Some ts =>
          Some {| sourceCost := sourceCost s3;
                  targetCost := targetCost s3;
                  targetSource := ts;
                  minSlack := minSlack s3;
                  targetTrail := targetTrail s3;
                  visitedTarget := visitedTarget s3 |}
      end
  end.

(** The state in which the search of phase [i] starts: [targetSource[n]]
    holds [i], and [minSlack], [targetTrail] and [visitedTarget] have been
    reset. *)
Definition search_start (n : nat) (s : solver) (i : nat) : solver :=
  {| sourceCost := sourceCost s;
     targetCost := targetCost s;
     targetSource := <[n := i]> (targetSource s);
     minSlack := replicate (S n) (MaxCost options);
     targetTrail := replicate (S n) n;
     visitedTarget := replicate (S n) false |}.

(** The main loop up to, not including, source [k]. *)
Definition phases (fuel : nat) (costs : list (list Cost)) (k : nat)
  : option solver :=
  foldl (λ os i, match os with
                 | None => None
                 | Some s => phase fuel costs (length costs) s i
                 end)
        (Some (init_solver (length costs))) (seq 0 k).

(** [func optimalCost(costs [][]Cost, options *AssignOptions) []int] *)
Definition optimalCost (fuel : nat) (costs : list (list Cost))
  : option (list nat) :=
  let n := length costs in
  match phases fuel costs n with
  | None => None
  | Some s => Some (take n (targetSource s))
  end.

(** *** Assign *)

(** [costs[i][j] = c] *)
Definition set2 (costs : list (list Cost)) (i j : nat) (c : Cost)
  : list (list Cost) :=
  <[i := <[j := c]> (costs !!! i)]> costs.

(** The four loops that fill the square matrix. *)
Definition build_costs (sources targets : list any) (size : nat)
  : list (list Cost) :=
  let n := length sources in
  let m := length targets in
  let costs0 := replicate size ([] : list Cost) in
  let costs1 :=
    foldl (λ cs i,
             foldl (λ cs j, set2 cs i j (MinCost options))
                   (<[i := replicate size inhabitant]> cs) (seq 0 size))
          costs0 (seq 0 size) in
  let costs2 :=
    foldl (λ cs i,
             foldl (λ cs j,
                      set2 cs i j
                        (EditCost options (sources !!! i) (targets !!! j)))
                   cs (seq 0 m))
          costs1 (seq 0 n) in
  let costs3 :=
    foldl (λ cs i,
             let cost := EditCost options (sources !!! i) nil in
             foldl (λ cs j, set2 cs i j cost) cs (seq m (size - m)))
          costs2 (seq 0 n) in
  foldl (λ cs j,
           let cost := EditCost options nil (targets !!! j) in
           foldl (λ cs i, set2 cs i j cost) cs (seq n (size - n)))
        costs3 (seq 0 m).

(** One iteration of the loop that turns the matching into pairs,
    [for j := 0; j < size; j++ { i := optimal[j]; ... switch {...} }]. *)
Definition emit (sources targets : list any) (costs : list (list Cost))
    (optimal : list nat) (result : list Pair) (j : nat) : list Pair :=
  let n := length sources in
  let m := length targets in
  let i := optimal !!! j in
  let cost := at2 costs i j in
  if bool_decide (i < n ∧ j < m) then
    if bool_decide (cost = MaxCost options) then
      (result ++ [mkPair (sources !!! i) nil cost])
        ++ [mkPair nil (targets !!! j) cost]
    else result ++ [mkPair (sources !!! i) (targets !!! j) cost]
  else if bool_decide (i < n ∧ m ≤ j) then
    result ++ [mkPair (sources !!! i) nil cost]
  else if bool_decide (n ≤ i ∧ j < m) then
    result ++ [mkPair nil (targets !!! i) cost]
  else result.

(** [func Assign(sources, targets []any, options *AssignOptions) []Pair] *)
Definition Assign (fuel : nat) (sources targets : list any)
  : option (list Pair) :=
  let n := length sources in
  let m := length targets in
  let size := if bool_decide (n < m) then m else n in
  let costs := build_costs sources targets size in
  match optimalCost fuel costs with
  | None => None
  | Some optimal =>
      Some (foldl (emit sources targets costs optimal) [] (seq 0 size))
  end.

(** *** The shape of the solver's state *)

(** Every slice has [n + 1] entries. *)
Definition wf (n : nat) (s : solver) : Prop :=
  length (sourceCost s) = S n ∧ length (targetCost s) = S n ∧
  length (targetSource s) = S n ∧ length (minSlack s) = S n ∧
  length (targetTrail s) = S n ∧ length (visitedTarget s) = S n.

(** Before the phase of source [r]: the first [n] entries of
    [targetSource] hold the sources below [r] once each, and the marker
    [n] elsewhere. *)
Definition matching (n r : nat) (ts : list nat) : Prop :=
  length ts = S n ∧ take n ts ≡ₚ seq 0 r ++ replicate (n - r) n.

(** The entry the four loops of [Assign] leave in cell [i, j] of the
    matrix. *)
Definition cell_cost (sources targets : list any) (i j : nat) : Cost :=
  if bool_decide (i < length sources ∧ j < length targets)
  then EditCost options (sources !!! i) (targets !!! j)
  else if bool_decide (i < length sources)
  then EditCost options (sources !!! i) nil
  else if bool_decide (j < length targets)
  then EditCost options nil (targets !!! j)
  else MinCost options.

(** The pairs the translation loop emits for column [j]. *)
Definition pairs_of (sources targets : list any) (costs : list (list Cost))
    (optimal : list nat) (j : nat) : list Pair :=
  emit sources targets costs optimal [] j.

(** The matched cells of real nodes whose cost is [MaxCost]. *)
Definition split_cells (sources targets : list any)
    (costs : list (list Cost)) (optimal : list nat) (size : nat) : list nat :=
  filter (λ j, optimal !!! j < length sources ∧ j < length targets ∧
               at2 costs (optimal !!! j) j = MaxCost options)
         (seq 0 size).

(** The matrix is square of side [size]. *)
Definition shape (size : nat) (cs : list (list Cost)) : Prop :=
  length cs = size ∧ ∀ i, i < size → length (cs !!! i) = size.

End Assign.

(** *** Costs read as integers

    The cost invariants of the specification: costs are totally ordered,
    [AddCost] and [SubCost] are the addition and subtraction of that
    order, [MinCost] is their identity; [val] reads a cost as an
    integer. *)
Section Duals.
Context {any : Type} {Cost : Type} `{CostIface Cost} `{Inhabited Cost}.
Context (options : AssignOptions (any:=any) (Cost:=Cost)).
Context (val : Cost → Z).

Record cost_model : Prop := mkCostModel
  { val_less : ∀ a b, Less a b = bool_decide (val a < val b)%Z;
    val_add : ∀ a b, val (AddCost options a b) = (val a + val b)%Z;
    val_sub : ∀ a b, val (SubCost options a b) = (val a - val b)%Z;
    val_min : val (MinCost options) = 0%Z }.

(** Every entry of the square matrix lies between [MinCost] and
    [MaxCost]. *)
Definition costs_ok (n : nat) (costs : list (list Cost)) : Prop :=
  shape n costs ∧
  ∀ i j, i < n → j < n →
    (0 ≤ val (at2 costs i j) ≤ val (MaxCost options))%Z.

(** The slices of the solver read as functions of the index. *)
Record view := mkView
  { vu : nat → Z;       (* sourceCost *)
    vv : nat → Z;       (* targetCost *)
    vms : nat → Z;      (* minSlack *)
    vts : nat → nat;    (* targetSource *)
    vtr : nat → nat;    (* targetTrail *)
    vvis : nat → bool   (* visitedTarget *) }.

Definition view_of (s : solver (Cost:=Cost)) : view :=
  {| vu := λ i, val (sourceCost s !!! i);
     vv := λ j, val (targetCost s !!! j);
     vms := λ j, val (minSlack s !!! j);
     vts := λ j, targetSource s !!! j;
     vtr := λ j, targetTrail s !!! j;
     vvis := λ j, visitedTarget s !!! j |}.

Section Tree.
(** [n] the side of the matrix, [r] the source of the current phase, [c]
    the matrix and [M] the value of [MaxCost]. *)
Context (n r : nat) (c : nat → nat → Z) (M : Z).

(** [cost[i][j] - sourceCost[i] - targetCost[j]] *)
Definition slack (a : view) (i j : nat) : Z := (c i j - vu a i - vv a j)%Z.

(** The visited targets once [currentTarget] has been marked. *)
Definition mark (a : view) (cur j : nat) : bool :=
  if bool_decide (j = cur) then true else vvis a j.

(** Source [i] is matched with a marked target. *)
Definition in_tree (a : view) (cur i : nat) : Prop :=
  ∃ q, q ≤ n ∧ mark a cur q = true ∧ vts a q = i.

(** What one iteration of the loop that grows the alternating tree does
    to the slices, entry by entry; [d] is the value of [delta]. *)
Record astep (a : view) (cur : nat) (a' : view) (nxt : nat) (d : Z)
  : Prop := mkAstep
  { as_ts : ∀ j, j ≤ n → vts a' j = vts a j;
    as_vis : ∀ j, j ≤ n → vvis a' j = mark a cur j;
    as_ms : ∀ j, j < n → mark a cur j = false →
      vms a' j = (vms a j `min` slack a (vts a cur) j - d)%Z;
    as_tr_new : ∀ j, j < n → mark a cur j = false →
      vtr a' j = if bool_decide (slack a (vts a cur) j < vms a j)%Z
                 then cur else vtr a j;
    as_tr_old : ∀ j, j ≤ n → mark a cur j = true ∨ j = n →
      vtr a' j = vtr a j;
    as_d_max : (d ≤ M)%Z;
    as_d_min : ∀ j, j < n → mark a cur j = false →
      (d ≤ vms a j `min` slack a (vts a cur) j)%Z;
    as_next : (d = M ∧ nxt = 0) ∨
              (nxt < n ∧ mark a cur nxt = false ∧
               d = (vms a nxt `min` slack a (vts a cur) nxt)%Z);
    as_u_in : ∀ i, i ≤ n → in_tree a cur i → vu a' i = (vu a i + d)%Z;
    as_u_out : ∀ i, i ≤ n → ¬ in_tree a cur i → vu a' i = vu a i;
    as_v : ∀ j, j ≤ n →
      vv a' j = (vv a j - (if mark a cur j then d else 0))%Z }.

(** The trail from a target back to the root [n]. *)
Inductive tpath (tr : nat → nat) : list nat → nat → Prop :=
  | tpath_root : tpath tr [] n
  | tpath_next p L : p ≠ n → tpath tr L (tr p) → tpath tr (p :: L) p.

(** The edge from the source matched with [targetTrail[j]] to [j] is
    tight. *)
Definition tight (a : view) (j : nat) : Prop :=
  slack a (vts a (vtr a j)) j = 0%Z.

(** The recorded slack of [j] is the slack of its trail edge. *)
Definition exact (a : view) (j : nat) : Prop :=
  vms a j = slack a (vts a (vtr a j)) j.

(** The trail from [p] consists of distinct real targets whose trail
    edges are tight. *)
Definition good (a : view) (p : nat) : Prop :=
  ∃ L, tpath (vtr a) L p ∧ NoDup L ∧
       Forall (λ x, x < n ∧ tight a x) L.

(** Every unmatched target still to visit has no slack left. *)
Definition all_zero (a : view) : Prop :=
  ∀ j, j < n → vvis a j = false → vts a j = n → vms a j = 0%Z.

(** The dual feasibility of the potentials, the tightness of the matched
    edges, and what the matching looks like before or during the phase of
    source [r]. *)
Record duals (a : view) : Prop := mkDuals
  { du_root : r < n;
    du_cost : ∀ i j, i < n → j < n → (0 ≤ c i j ≤ M)%Z;
    du_ts_le : ∀ j, j < n → vts a j = n ∨ vts a j < r;
    du_ts_inj : ∀ j1 j2, j1 < n → j2 < n →
      vts a j1 = vts a j2 → vts a j1 ≠ n → j1 = j2;
    du_ts_surj : ∀ i, i < r → ∃ j, j < n ∧ vts a j = i;
    du_free : ∃ j, j < n ∧ vts a j = n;
    du_feas : ∀ i j, i < n → j < n → (vu a i + vv a j ≤ c i j)%Z;
    du_tight : ∀ j, j < n → vts a j ≠ n →
      (vu a (vts a j) + vv a j = c (vts a j) j)%Z;
    du_v_free : ∀ j, j < n → vts a j = n → vv a j = 0%Z;
    du_u_root : (0 ≤ vu a r)%Z;
    du_u_later : ∀ i, r < i < n → vu a i = 0%Z }.

(** The invariant of the loop that grows the alternating tree, at its
    head, with [cur] the current target. *)
Record tree_inv (a : view) (cur : nat) : Prop := mkTreeInv
  { ti_duals : duals a;
    ti_root : vts a n = r;
    ti_cur : cur ≤ n;
    ti_vis_matched : ∀ j, j < n → vvis a j = true → vts a j ≠ n;
    ti_trail : ∀ j, j ≤ n →
      vtr a j ≤ n ∧ (vtr a j = n ∨ vvis a (vtr a j) = true);
    ti_ms_range : ∀ j, j < n → vvis a j = false →
      (0 ≤ vms a j ≤ M - vu a r)%Z;
    ti_ms_low : ∀ j q, j < n → vvis a j = false → q ≤ n →
      vvis a q = true → (vms a j ≤ slack a (vts a q) j)%Z;
    (* before the first iteration *)
    ti_init : cur = n →
      (∀ j, j ≤ n → vvis a j = false) ∧
      (∀ j, j < n → vms a j = M) ∧
      (∀ j, j ≤ n → vtr a j = n) ∧ vu a r = 0%Z;
    (* after it *)
    ti_vis_root : cur ≠ n → vvis a n = true;
    ti_cur_zero : cur ≠ n → vvis a cur = false → vms a cur = 0%Z;
    ti_revisit : cur ≠ n → vvis a cur = true →
      ∀ j, j < n → vvis a j = false → (vms a j ≤ 0)%Z;
    ti_free_exact : cur ≠ n →
      ∀ j, j < n → vvis a j = false → vts a j = n →
        exact a j ∧ good a (vtr a j);
    ti_good : cur ≠ n →
      all_zero a ∨
      (good a cur ∧
       (∀ p, p ≤ n → vvis a p = true → good a p) ∧
       (∀ j, j < n → vvis a j = false →
          (exact a j ∧ good a (vtr a j)) ∨
          (vtr a j = n ∧ vms a j = (M - vu a r)%Z))) }.

(** The number of targets, the root included, not visited yet, and the
    measure that bounds the iterations left. *)
Definition unvisited (a : view) : nat :=
  length (filter (λ j, vvis a j = false) (seq 0 (S n))).

Definition measure (a : view) (cur : nat) : nat :=
  2 * unvisited a - (if vvis a cur then 0 else 1).

End Tree.

(** The state between two phases: before the phase of source [r]. *)
Definition phase_inv (costs : list (list Cost)) (n r : nat) (s : solver)
  : Prop :=
  wf n s ∧ matching n r (targetSource s) ∧
  (∀ i j, i < n → j < n →
     (val (sourceCost s !!! i) + val (targetCost s !!! j)
      ≤ val (at2 costs i j))%Z) ∧
  (∀ j, j < n → targetSource s !!! j ≠ n →
     (val (sourceCost s !!! (targetSource s !!! j)) + val (targetCost s !!! j)
      = val (at2 costs (targetSource s !!! j) j))%Z) ∧
  (∀ j, j < n → targetSource s !!! j = n → val (targetCost s !!! j) = 0%Z) ∧
  (∀ i, r ≤ i → i < n → val (sourceCost s !!! i) = 0%Z).

(** The total cost of a matching [σ], column by column. *)
Definition matching_cost (costs : list (list Cost)) (σ : list nat) : Z :=
  foldr Z.add 0%Z ((λ j, val (at2 costs (σ !!! j) j)) <$> seq 0 (length σ)).

(** The sum of the costs the pairs carry. *)
Definition pairs_cost (result : list (Pair (any:=any) (Cost:=Cost))) : Z :=
  foldr Z.add 0%Z (val ∘ PairCost <$> result).

(** The cost of the partial matching [targetSource] holds between two
    phases: the cells of the matched targets. *)
Definition matched_cost (costs : list (list Cost)) (n : nat)
    (ts : list nat) : Z :=
  foldr Z.add 0%Z
    ((λ j, if bool_decide (ts !!! j ≠ n)
           then val (at2 costs (ts !!! j) j) else 0%Z) <$> seq 0 n).

(** The cost of giving target [τ[i]] to source [i], for the sources
    below [length τ]. *)
Definition rows_cost (costs : list (list Cost)) (τ : list nat) : Z :=
  foldr Z.add 0%Z ((λ i, val (at2 costs i (τ !!! i))) <$> seq 0 (length τ)).

End Duals.

(** *** Integer costs

    The instance used for concrete runs: costs are integers compared with
    [<], added and subtracted as such. *)
#[export] Instance Z_cost : CostIface Z := λ a b, bool_decide (a < b)%Z.

Definition Z_options (editCost : option string → option string → Z)
    (maxCost : Z) : AssignOptions (any:=option string) (Cost:=Z) :=
  {| NodeKey := λ x, x;
     EditCost := editCost;
     AddCost := Z.add;
     SubCost := Z.sub;
     MinCost := 0%Z;
     MaxCost := maxCost |}.

(** The helpers of the test suite: [maxCost], [nodeName] and [costFunc]
    over a cost map given as a list of entries. *)
Definition maxCost : Z := 2 ^ 31.

Definition nodeName (n : option string) : string :=
  match n with None => "-" | Some s => s end.

Definition costFunc (costs : list (string * string * Z))
    (source target : option string) : Z :=
  match list_find (λ e, e.1.1 = nodeName source ∧ e.1.2 = nodeName target)
                  costs with
  | Some (_, (_, _, cost)) => cost
  | None =>
      match source, target with
      | Some _, Some _ => maxCost
      | _, _ => (maxCost - 1)%Z
      end
  end.

Definition deltaOptions (costs : list (string * string * Z))
  : AssignOptions (any:=option string) (Cost:=Z) :=
  Z_options (costFunc costs) maxCost.

(** *** The cost type of the test suite and of the examples

    [type uintCost uint32]: [Less] is [<] on unsigned 32-bit integers,
    [addCost] and [subCost] are [+] and [-] on them, which wrap around.
    A cost is held as its value, between [0] and [2^32 - 1]; [maxCost] is
    [1 << 31]. *)
Definition wrap32 (z : Z) : Z := z `mod` 2 ^ 32.

Definition uint_options (editCost : option string → option string → Z)
  : AssignOptions (any:=option string) (Cost:=Z) :=
  {| NodeKey := λ x, x;
     EditCost := editCost;
     AddCost := λ a b, wrap32 (a + b);
     SubCost := λ a b, wrap32 (a - b);
     MinCost := 0%Z;
     MaxCost := maxCost |}.

(** [deltaOptions] with the arithmetic of [uintCost]. *)
Definition uintOptions (costs : list (string * string * Z))
  : AssignOptions (any:=option string) (Cost:=Z) :=
  uint_options (costFunc costs).

End assign.

(** ** Package listdist: what the code computes *)

Module listdist_proofs.
Import listdist.

Section Distance_table.
Context {any : Type} `{EqDecision any} (nil : any).
Implicit Types (f : CostFunc (any:=any)) (a b ra rb : list any) (l : list Z).
#[local] Arguments dp : simpl never.
#[local] Arguments ed : simpl never.

Lemma dp_nil_cons f br rb :
  dp nil f [] (br :: rb) = add_inh (dp nil f [] rb) (InsertB (f nil br)).
Proof. reflexivity. Qed.

Lemma dp_cons_nil f ar ra :
  dp nil f (ar :: ra) [] = add_inh (dp nil f ra []) (DeleteA (f ar nil)).
Proof. reflexivity. Qed.

Lemma dp_cons_cons f ar ra br rb :
  dp nil f (ar :: ra) (br :: rb) =
  cell_val (bool_decide (ar = br)) (f ar br)
           (dp nil f ra rb) (dp nil f (ar :: ra) rb) (dp nil f ra (br :: rb)).
Proof. reflexivity. Qed.

Lemma rev_take_S b k br :
  b !! k = Some br → rev (take (S k) b) = br :: rev (take k b).
Proof. intros Hk. rewrite (take_S_r _ _ _ Hk), rev_app_distr. reflexivity. Qed.

(** The first loop fills row 0. *)
Lemma base_loop_row f b : ∀ bs pre l,
  b = pre ++ bs →
  length l = S (length b) →
  (∀ j, (j ≤ length pre)%nat → l !!! j = dp nil f [] (rev (take j b))) →
  is_row nil f [] b (base_loop nil f bs (length pre) l).
Proof.
  induction bs as [|br bs IH]; intros pre l Hb Hlen Hl.
  - rewrite app_nil_r in Hb. subst pre. split; [exact Hlen | exact Hl].
  - cbn [base_loop].
    assert (Hk : b !! length pre = Some br) by (subst b; apply list_lookup_middle; reflexivity).
    assert (Hlt : (S (length pre) < length l)%nat).
    { rewrite Hlen. apply lookup_lt_Some in Hk. lia. }
    replace (S (length pre)) with (length (pre ++ [br])) by (rewrite length_app; simpl; lia).
    apply IH.
    + rewrite <- app_assoc. exact Hb.
    + destruct (bool_decide _); rewrite length_insert; exact Hlen.
    + intros j Hj. rewrite length_app in Hj |- *. simpl in Hj |- *.
      replace (length pre + 1)%nat with (S (length pre)) by lia.
      destruct (decide (j = S (length pre))) as [->|Hne].
      * rewrite (rev_take_S _ _ _ Hk), dp_nil_cons, <- Hl by lia.
        unfold add_inh.
        destruct (bool_decide _); rewrite list_lookup_total_insert_eq by lia; reflexivity.
      * destruct (bool_decide _); rewrite list_lookup_total_insert_ne by lia;
          apply Hl; lia.
Qed.

Lemma base_row f b :
  is_row nil f [] b (base_loop nil f b 0 (replicate (length b + 1) 0)).
Proof.
  apply (base_loop_row f b b []); [reflexivity | | ].
  - rewrite length_replicate. lia.
  - intros j Hj. simpl in Hj. assert (j = 0%nat) as -> by lia.
    rewrite take_0. simpl. rewrite lookup_total_replicate_2 by lia. reflexivity.
Qed.

(** One cell of a row. *)
Lemma cell_step_inv f cut ar ra b k br s :
  b !! k = Some br →
  mid_row nil f cut ar ra b k s →
  mid_row nil f cut ar ra b (S k) (cell_step f cut ar s br).
Proof.
  intros Hk (Hlen & Hidx & Hlast & Hlo & Hhi & Hstop).
  assert (Hkb : (k < length b)%nat) by (apply lookup_lt_Some in Hk; exact Hk).
  set (v := cell_val (bool_decide (ar = br)) (f ar br)
              (last s) (lst s !!! k) (lst s !!! S k)).
  assert (Hv : v = dp nil f (ar :: ra) (rev (take (S k) b))).
  { unfold v. rewrite (rev_take_S _ _ _ Hk), dp_cons_cons.
    rewrite Hlast, (Hlo k) by lia. rewrite (Hhi (S k)) by lia.
    rewrite (rev_take_S _ _ _ Hk). reflexivity. }
  assert (Hstep : cell_step f cut ar s br =
    {| last := lst s !!! S k; lst := <[S k := v]> (lst s); idx := S k;
       stop := if bool_decide (v < cut) then false else stop s |}).
  { unfold cell_step, v, cell_val. rewrite Hidx.
    replace (S k - 1)%nat with k by lia. reflexivity. }
  rewrite Hstep. unfold mid_row. cbn [last lst idx stop].
  split; [rewrite length_insert; exact Hlen|].
  split; [reflexivity|].
  split; [apply Hhi; lia|].
  split; [|split].
  - intros j Hj. destruct (decide (j = S k)) as [->|Hne].
    + rewrite list_lookup_total_insert_eq by lia. exact Hv.
    + rewrite list_lookup_total_insert_ne by lia. apply Hlo. lia.
  - intros j Hj. rewrite list_lookup_total_insert_ne by lia. apply Hhi. lia.
  - rewrite Hv. destruct (decide (dp nil f (ar :: ra) (rev (take (S k) b)) < cut)) as [Hc|Hc].
    + rewrite bool_decide_eq_true_2 by exact Hc.
      split; [intros Hf; discriminate Hf|]. intros Hall. exfalso.
      apply (Hall (S k)); [lia | exact Hc].
    + rewrite bool_decide_eq_false_2 by exact Hc. rewrite Hstop. split.
      * intros Hall j Hj. destruct (decide (j = S k)) as [->|Hne];
          [exact Hc | apply Hall; lia].
      * intros Hall j Hj. apply Hall. lia.
Qed.

Lemma cells_inv f cut ar ra b : ∀ bs pre s,
  b = pre ++ bs →
  mid_row nil f cut ar ra b (length pre) s →
  mid_row nil f cut ar ra b (length b) (foldl (cell_step f cut ar) s bs).
Proof.
  induction bs as [|br bs IH]; intros pre s Hb Hs.
  - rewrite app_nil_r in Hb. subst pre. exact Hs.
  - cbn [foldl].
    assert (Hk : b !! length pre = Some br) by (subst b; apply list_lookup_middle; reflexivity).
    replace (length b) with (length b) by reflexivity.
    apply (IH (pre ++ [br])).
    + rewrite <- app_assoc. exact Hb.
    + rewrite length_app. simpl. replace (length pre + 1)%nat with (S (length pre)) by lia.
      apply cell_step_inv; assumption.
Qed.

(** One full row: the state after the loop over [b]. *)
Lemma row_step_inv f cut ar ra b l :
  is_row nil f ra b l →
  mid_row nil f cut ar ra b (length b) (row_step nil f cut b l ar).
Proof.
  intros [Hlen Hl]. unfold row_step.
  apply (cells_inv f cut ar ra b b []); [reflexivity|].
  unfold mid_row. cbn [last lst idx stop length].
  assert (H0 : l !!! 0%nat = dp nil f ra []) by (rewrite (Hl 0%nat) by lia; rewrite take_0; reflexivity).
  split; [destruct (bool_decide _); rewrite length_insert; exact Hlen|].
  split; [reflexivity|].
  split; [rewrite take_0; exact H0|].
  split; [|split].
  - intros j Hj. assert (j = 0%nat) as -> by lia. rewrite take_0. simpl rev.
    rewrite dp_cons_nil, <- H0. unfold add_inh.
    destruct (bool_decide _); rewrite list_lookup_total_insert_eq by lia; reflexivity.
  - intros j Hj. destruct (bool_decide _);
      rewrite list_lookup_total_insert_ne by lia; apply Hl; lia.
  - split; [intros _ j Hj; lia | reflexivity].
Qed.

Lemma row_step_row f cut ar ra b l :
  is_row nil f ra b l →
  is_row nil f (ar :: ra) b (lst (row_step nil f cut b l ar)).
Proof.
  intros Hrow. destruct (row_step_inv f cut ar ra b l Hrow)
    as (Hlen & _ & _ & Hlo & _ & _).
  split; [exact Hlen | exact Hlo].
Qed.

Lemma row_step_stop f cut ar ra b l :
  is_row nil f ra b l →
  stop (row_step nil f cut b l ar) = true ↔
  ∀ j, (1 ≤ j ≤ length b)%nat → ¬ dp nil f (ar :: ra) (rev (take j b)) < cut.
Proof.
  intros Hrow. destruct (row_step_inv f cut ar ra b l Hrow)
    as (_ & _ & _ & _ & _ & Hstop). exact Hstop.
Qed.

(** Without a cutoff every row is processed. *)
Lemma rows_nocut f b : ∀ a ra l,
  is_row nil f ra b l →
  is_row nil f (rev a ++ ra) b (rows nil f 0 b a l).
Proof.
  induction a as [|ar a IH]; intros ra l Hrow; [exact Hrow|].
  cbn [rows]. rewrite bool_decide_eq_false_2 by (intros Hc; apply Hc; reflexivity).
  cbn [andb]. simpl rev. rewrite <- app_assoc. simpl.
  apply IH, row_step_row, Hrow.
Qed.

(** With a cutoff the loop over [a] leaves after the first row all of
    whose cells past column 0 reach the cutoff. *)
Lemma rows_cut f cut b : cut ≠ 0 → ∀ a ra l,
  is_row nil f ra b l →
  ∃ a1 a2, a = a1 ++ a2 ∧
    is_row nil f (rev a1 ++ ra) b (rows nil f cut b a l) ∧
    (a2 = [] ∨
     (a1 ≠ [] ∧ ∀ j, (1 ≤ j ≤ length b)%nat →
        ¬ dp nil f (rev a1 ++ ra) (rev (take j b)) < cut)).
Proof.
  intros Hcut. induction a as [|ar a IH]; intros ra l Hrow.
  - exists [], []. split; [reflexivity|]. split; [exact Hrow | left; reflexivity].
  - cbn [rows]. rewrite bool_decide_eq_true_2 by exact Hcut. cbn [andb].
    destruct (stop (row_step nil f cut b l ar)) eqn:Hstop.
    + exists [ar], a. split; [reflexivity|]. split.
      * apply row_step_row, Hrow.
      * right. split; [discriminate|].
        apply (row_step_stop f cut ar ra b l Hrow). exact Hstop.
    + destruct (IH (ar :: ra) _ (row_step_row f cut ar ra b l Hrow))
        as (a1 & a2 & -> & Hr & Hor).
      exists (ar :: a1), a2. split; [reflexivity|].
      simpl rev. rewrite <- app_assoc. simpl. split; [exact Hr|].
      destruct Hor as [->|[_ Hall]]; [left; reflexivity|].
      right. split; [discriminate | exact Hall].
Qed.

Lemma is_row_last f ra b l :
  is_row nil f ra b l → l !!! (length l - 1)%nat = dp nil f ra (rev b).
Proof.
  intros [Hlen Hl]. rewrite Hlen. replace (S (length b) - 1)%nat with (length b) by lia.
  rewrite Hl by lia. rewrite take_ge by lia. reflexivity.
Qed.

(** [Distance] with cutoff 0 returns the last cell of the table. *)
Lemma Distance_dp f a b :
  Distance nil a b f 0 = dp nil f (rev a) (rev b).
Proof.
  unfold Distance. cbv zeta.
  pose proof (rows_nocut f b a [] _ (base_row f b)) as Hrow.
  rewrite app_nil_r in Hrow. apply (is_row_last _ _ _ _ Hrow).
Qed.

(** *** Exact integers: the table and the recurrence agree while no sum
    can reach the sentinel *)

Lemma Inhibit_eq : Inhibit = 9223372036854775807.
Proof. reflexivity. Qed.

Lemma int64_iff z :
  int64 z ↔ -9223372036854775808 ≤ z < 9223372036854775808.
Proof. reflexivity. Qed.

Lemma wrap64_id z : int64 z → wrap64 z = z.
Proof.
  unfold int64, wrap64. intros Hz.
  rewrite Z.mod_small by lia. lia.
Qed.

Lemma ed_nil_cons f br rb :
  ed nil f [] (br :: rb) = oadd (ed nil f [] rb) (InsertB (f nil br)).
Proof. reflexivity. Qed.

Lemma ed_cons_nil f ar ra :
  ed nil f (ar :: ra) [] = oadd (ed nil f ra []) (DeleteA (f ar nil)).
Proof. reflexivity. Qed.

Lemma ed_cons_cons f ar ra br rb :
  ed nil f (ar :: ra) (br :: rb) =
  omin (omin (if bool_decide (ar = br) then ed nil f ra rb
              else oadd (ed nil f ra rb) (SwapAB (f ar br)))
             (oadd (ed nil f (ar :: ra) rb) (InsertB (f ar br))))
       (oadd (ed nil f ra (br :: rb)) (DeleteA (f ar br))).
Proof. reflexivity. Qed.

Lemma fits_mono B B' o p : B ≤ B' → fits B o p → fits B' o p.
Proof.
  intros HB [Hp Hd]. split; [exact Hp|].
  intros d Ho. specialize (Hd d Ho). lia.
Qed.

Lemma fits_sentinel B o p :
  B < Inhibit → fits B o p → (p = Inhibit ↔ o = None).
Proof.
  intros HB [-> Hd]. destruct o as [d|]; simpl.
  - specialize (Hd d eq_refl). split; [lia | discriminate].
  - split; reflexivity.
Qed.

Lemma fits_add K B o p w :
  0 ≤ K → B + K < Inhibit → cost_ok K w → fits B o p →
  fits (B + K) (oadd o w) (add_inh p w).
Proof.
  intros HK HB Hw Hfit.
  assert (HBI : B < Inhibit) by lia.
  pose proof (fits_sentinel B o p HBI Hfit) as Hsent.
  destruct Hfit as [Hp Hd]. unfold oadd, add_inh.
  destruct (decide (w = Inhibit)) as [Hwi|Hwi].
  - rewrite !bool_decide_eq_true_2 by tauto.
    split; [reflexivity | discriminate].
  - rewrite (bool_decide_eq_false_2 (w = Inhibit)) by exact Hwi.
    destruct Hw as [Hw|Hw]; [contradiction|].
    destruct o as [d|]; simpl in *.
    + specialize (Hd d eq_refl).
      rewrite bool_decide_eq_false_2.
      2:{ intros [Hc|Hc]; [contradiction|]. apply Hsent in Hc. discriminate. }
      subst p. rewrite Inhibit_eq in *. split.
      * simpl. apply wrap64_id. apply int64_iff. lia.
      * intros d' [= <-]. lia.
    + rewrite bool_decide_eq_true_2 by (right; exact Hp).
      split; [reflexivity | discriminate].
Qed.

Lemma fits_min B x y p q :
  B < Inhibit → fits B x p → fits B y q →
  fits B (omin x y) (if bool_decide (q < p) then q else p).
Proof.
  intros HB [-> Hx] [-> Hy]. rewrite Inhibit_eq in HB.
  destruct x as [a|], y as [b|]; cbn [omin from_option id].
  - specialize (Hx a eq_refl). specialize (Hy b eq_refl).
    case_bool_decide; (split; [simpl; lia | intros d [= <-]; lia]).
  - specialize (Hx a eq_refl).
    rewrite bool_decide_eq_false_2 by (rewrite Inhibit_eq; lia).
    split; [reflexivity | intros d [= <-]; lia].
  - specialize (Hy b eq_refl).
    rewrite bool_decide_eq_true_2 by (rewrite Inhibit_eq; lia).
    split; [reflexivity | intros d [= <-]; lia].
  - rewrite bool_decide_eq_false_2 by lia.
    split; [reflexivity | discriminate].
Qed.

Lemma fits_le_sentinel B o p : B < Inhibit → fits B o p → p ≤ Inhibit.
Proof.
  intros HB [-> Hd]. destruct o as [d|]; simpl; [|lia].
  specialize (Hd d eq_refl). lia.
Qed.

(** A guarded candidate is [add_inh] followed by the comparison. *)
Lemma guarded_min p w m :
  m ≤ Inhibit →
  (if bool_decide (w ≠ Inhibit ∧ p ≠ Inhibit)
   then let n := wrap64 (p + w) in if bool_decide (n < m) then n else m
   else m) =
  (if bool_decide (add_inh p w < m) then add_inh p w else m).
Proof.
  intros Hm. unfold add_inh.
  destruct (decide (w = Inhibit ∨ p = Inhibit)) as [Hg|Hg].
  - rewrite (bool_decide_eq_false_2 (w ≠ Inhibit ∧ p ≠ Inhibit)) by tauto.
    rewrite (bool_decide_eq_true_2 _ Hg).
    rewrite bool_decide_eq_false_2 by lia. reflexivity.
  - rewrite (bool_decide_eq_true_2 (w ≠ Inhibit ∧ p ≠ Inhibit)) by tauto.
    rewrite (bool_decide_eq_false_2 _ Hg). reflexivity.
Qed.

Lemma guarded_first p w :
  (if bool_decide (w ≠ Inhibit ∧ p ≠ Inhibit) then wrap64 (p + w) else Inhibit)
  = add_inh p w.
Proof.
  unfold add_inh.
  destruct (decide (w = Inhibit ∨ p = Inhibit)) as [Hg|Hg].
  - rewrite (bool_decide_eq_false_2 (w ≠ Inhibit ∧ p ≠ Inhibit)) by tauto.
    rewrite (bool_decide_eq_true_2 _ Hg). reflexivity.
  - rewrite (bool_decide_eq_true_2 (w ≠ Inhibit ∧ p ≠ Inhibit)) by tauto.
    rewrite (bool_decide_eq_false_2 _ Hg). reflexivity.
Qed.

Lemma fits_cell K B (same : bool) cost od ol ou diag lft up :
  0 ≤ K → B + K < Inhibit →
  cost_ok K (SwapAB cost) → cost_ok K (DeleteA cost) → cost_ok K (InsertB cost) →
  fits B od diag → fits B ol lft → fits B ou up →
  fits (B + K)
    (omin (omin (if same then od else oadd od (SwapAB cost))
                (oadd ol (InsertB cost)))
          (oadd ou (DeleteA cost)))
    (cell_val same cost diag lft up).
Proof.
  intros HK HB Hs Hd Hi Hfd Hfl Hfu.
  assert (H0 : fits (B + K) (if same then od else oadd od (SwapAB cost))
                 (if same then diag else add_inh diag (SwapAB cost))).
  { destruct same; [apply (fits_mono B); [lia | exact Hfd]|].
    apply fits_add; assumption. }
  pose proof (fits_add K B ol lft _ HK HB Hi Hfl) as H1.
  pose proof (fits_add K B ou up _ HK HB Hd Hfu) as H2.
  pose proof (fits_min _ _ _ _ _ HB H0 H1) as H01.
  pose proof (fits_min _ _ _ _ _ HB H01 H2) as H012.
  unfold cell_val. cbv zeta.
  rewrite guarded_first.
  rewrite (guarded_min lft) by (apply (fits_le_sentinel (B + K) _ _ HB H0)).
  rewrite (guarded_min up) by (apply (fits_le_sentinel (B + K) _ _ HB H01)).
  exact H012.
Qed.

(** The table holds the exact values of the recurrence. *)
Lemma dp_fits f K :
  0 ≤ K →
  (∀ x y, cost_ok K (SwapAB (f x y)) ∧ cost_ok K (DeleteA (f x y)) ∧
          cost_ok K (InsertB (f x y))) →
  ∀ ra rb, K * Z.of_nat (length ra + length rb) < Inhibit →
  fits (K * Z.of_nat (length ra + length rb)) (ed nil f ra rb) (dp nil f ra rb).
Proof.
  intros HK Hf. induction ra as [|ar ra IHa].
  - induction rb as [|br rb IHb]; intros Hlen.
    + split; [reflexivity|]. intros d [= <-]. cbn [length]. lia.
    + rewrite dp_nil_cons, ed_nil_cons. cbn [length] in *.
      replace (K * Z.of_nat (0 + S (length rb)))
        with (K * Z.of_nat (0 + length rb) + K) by lia.
      apply fits_add; [exact HK | lia | apply Hf | apply IHb; lia].
  - induction rb as [|br rb IHb]; intros Hlen.
    + rewrite dp_cons_nil, ed_cons_nil. cbn [length] in *.
      replace (K * Z.of_nat (S (length ra) + 0))
        with (K * Z.of_nat (length ra + 0) + K) by lia.
      apply fits_add; [exact HK | lia | apply Hf | apply IHa; cbn [length]; lia].
    + rewrite dp_cons_cons, ed_cons_cons. cbn [length] in *.
      replace (K * Z.of_nat (S (length ra) + S (length rb)))
        with (K * Z.of_nat (S (length ra + length rb)) + K) by lia.
      destruct (Hf ar br) as (Hs & Hd & Hi).
      apply fits_cell; try assumption; [lia | | | ].
      * apply (fits_mono (K * Z.of_nat (length ra + length rb))); [lia|].
        apply IHa. lia.
      * replace (S (length ra + length rb)) with (S (length ra) + length rb)%nat by lia.
        apply IHb. lia.
      * replace (S (length ra + length rb)) with (length ra + S (length rb))%nat by lia.
        apply IHa. cbn [length]. lia.
Qed.

(** *** The recurrence is the least cost of a path *)

Lemma omin_Some_l x y p :
  x = Some p → ∃ q, omin x y = Some q ∧ q ≤ p.
Proof.
  intros ->. destruct y as [b|]; simpl; eexists; (split; [reflexivity | lia]).
Qed.

Lemma omin_Some_r x y p :
  y = Some p → ∃ q, omin x y = Some q ∧ q ≤ p.
Proof.
  intros ->. destruct x as [a|]; simpl; eexists; (split; [reflexivity | lia]).
Qed.

Lemma omin_inv x y d :
  omin x y = Some d → x = Some d ∨ y = Some d.
Proof.
  destruct x as [a|], y as [b|]; simpl; intros [= <-]; try tauto.
  destruct (Z.min_spec a b) as [[_ ->]|[_ ->]]; tauto.
Qed.

Lemma oadd_Some x w p :
  w ≠ Inhibit → x = Some p → oadd x w = Some (p + w).
Proof.
  intros Hw ->. unfold oadd. rewrite bool_decide_eq_false_2 by exact Hw.
  reflexivity.
Qed.

Lemma oadd_inv x w d :
  oadd x w = Some d → w ≠ Inhibit ∧ ∃ p, x = Some p ∧ d = p + w.
Proof.
  unfold oadd. case_bool_decide as Hw; [discriminate|].
  destruct x as [p|]; simpl; [|discriminate].
  intros [= <-]. split; [exact Hw|]. exists p. split; reflexivity.
Qed.

Lemma path_ed_le f ra rb c :
  path nil f ra rb c → ∃ d, ed nil f ra rb = Some d ∧ d ≤ c.
Proof.
  induction 1 as [|ar ra rb c Hp (d & Hd & Hle)
                  |ar br ra rb c Hne Hs Hp (d & Hd & Hle)
                  |br ra rb c Hi Hp (d & Hd & Hle)
                  |ar ra rb c Hdel Hp (d & Hd & Hle)].
  - exists 0. split; [reflexivity | lia].
  - rewrite ed_cons_cons. rewrite bool_decide_eq_true_2 by reflexivity.
    destruct (omin_Some_l _ (oadd (ed nil f (ar :: ra) rb) (InsertB (f ar ar))) _ Hd)
      as (q & Hq & Hqle).
    destruct (omin_Some_l _ (oadd (ed nil f ra (ar :: rb)) (DeleteA (f ar ar))) _ Hq)
      as (q' & Hq' & Hqle').
    exists q'. split; [exact Hq' | lia].
  - rewrite ed_cons_cons. rewrite bool_decide_eq_false_2 by exact Hne.
    pose proof (oadd_Some _ _ _ Hs Hd) as Ho.
    destruct (omin_Some_l _ (oadd (ed nil f (ar :: ra) rb) (InsertB (f ar br))) _ Ho)
      as (q & Hq & Hqle).
    destruct (omin_Some_l _ (oadd (ed nil f ra (br :: rb)) (DeleteA (f ar br))) _ Hq)
      as (q' & Hq' & Hqle').
    exists q'. split; [exact Hq' | lia].
  - pose proof (oadd_Some _ _ _ Hi Hd) as Ho.
    destruct ra as [|ar ra].
    + rewrite ed_nil_cons. exists (d + InsertB (f nil br)).
      split; [exact Ho | cbn [ctx hd]; lia].
    + rewrite ed_cons_cons. cbn [ctx hd] in *.
      destruct (omin_Some_r (if bool_decide (ar = br) then ed nil f ra rb
                   else oadd (ed nil f ra rb) (SwapAB (f ar br))) _ _ Ho)
        as (q & Hq & Hqle).
      destruct (omin_Some_l _ (oadd (ed nil f ra (br :: rb)) (DeleteA (f ar br))) _ Hq)
        as (q' & Hq' & Hqle').
      exists q'. split; [exact Hq' | lia].
  - pose proof (oadd_Some _ _ _ Hdel Hd) as Ho.
    destruct rb as [|br rb].
    + rewrite ed_cons_nil. exists (d + DeleteA (f ar nil)).
      split; [exact Ho | cbn [ctx hd]; lia].
    + rewrite ed_cons_cons. cbn [ctx hd] in *.
      destruct (omin_Some_r (omin (if bool_decide (ar = br) then ed nil f ra rb
                   else oadd (ed nil f ra rb) (SwapAB (f ar br)))
                   (oadd (ed nil f (ar :: ra) rb) (InsertB (f ar br)))) _ _ Ho)
        as (q & Hq & Hqle).
      exists q. split; [exact Hq | lia].
Qed.

Lemma ed_path f : ∀ ra rb d,
  ed nil f ra rb = Some d → path nil f ra rb d.
Proof.
  induction ra as [|ar ra IHa].
  - induction rb as [|br rb IHb]; intros d Hd.
    + injection Hd as <-. constructor.
    + rewrite ed_nil_cons in Hd. apply oadd_inv in Hd as (Hw & p & Hp & ->).
      apply (path_insert nil f br [] rb p Hw). apply IHb, Hp.
  - induction rb as [|br rb IHb]; intros d Hd.
    + rewrite ed_cons_nil in Hd. apply oadd_inv in Hd as (Hw & p & Hp & ->).
      apply (path_delete nil f ar ra [] p Hw). apply IHa, Hp.
    + rewrite ed_cons_cons in Hd.
      apply omin_inv in Hd as [Hd|Hd]; [apply omin_inv in Hd as [Hd|Hd]|].
      * case_bool_decide as Heq.
        -- subst br. apply path_same, IHa, Hd.
        -- apply oadd_inv in Hd as (Hw & p & Hp & ->).
           apply path_swap; [exact Heq | exact Hw | apply IHa, Hp].
      * apply oadd_inv in Hd as (Hw & p & Hp & ->).
        apply (path_insert nil f br (ar :: ra) rb p Hw). apply IHb, Hp.
      * apply oadd_inv in Hd as (Hw & p & Hp & ->).
        apply (path_delete nil f ar ra (br :: rb) p Hw). apply IHa, Hp.
Qed.

(** *** A cell that is not the sentinel has a path, whatever the costs *)

Lemma add_inh_neq p w :
  add_inh p w ≠ Inhibit → w ≠ Inhibit ∧ p ≠ Inhibit.
Proof.
  unfold add_inh. case_bool_decide as Hg; [intros Hc; contradiction|].
  intros _. tauto.
Qed.

Lemma cell_val_neq (same : bool) cost diag lft up :
  cell_val same cost diag lft up ≠ Inhibit →
  (same = true ∧ diag ≠ Inhibit) ∨
  (same = false ∧ SwapAB cost ≠ Inhibit ∧ diag ≠ Inhibit) ∨
  (InsertB cost ≠ Inhibit ∧ lft ≠ Inhibit) ∨
  (DeleteA cost ≠ Inhibit ∧ up ≠ Inhibit).
Proof.
  unfold cell_val. cbv zeta.
  destruct (decide (DeleteA cost ≠ Inhibit ∧ up ≠ Inhibit)) as [Hd|Hd];
    [intros _; tauto|].
  rewrite (bool_decide_eq_false_2 _ Hd).
  destruct (decide (InsertB cost ≠ Inhibit ∧ lft ≠ Inhibit)) as [Hi|Hi];
    [intros _; tauto|].
  rewrite (bool_decide_eq_false_2 _ Hi).
  destruct same; [intros Hc; tauto|].
  case_bool_decide as Hs; [intros _; tauto | intros Hc; contradiction].
Qed.

Lemma dp_feasible f : ∀ ra rb,
  dp nil f ra rb ≠ Inhibit → ∃ c, path nil f ra rb c.
Proof.
  induction ra as [|ar ra IHa].
  - induction rb as [|br rb IHb]; intros Hn.
    + exists 0. constructor.
    + rewrite dp_nil_cons in Hn. apply add_inh_neq in Hn as [Hw Hp].
      destruct (IHb Hp) as [c Hc]. eexists.
      apply (path_insert nil f br [] rb c Hw Hc).
  - induction rb as [|br rb IHb]; intros Hn.
    + rewrite dp_cons_nil in Hn. apply add_inh_neq in Hn as [Hw Hp].
      destruct (IHa _ Hp) as [c Hc]. eexists.
      apply (path_delete nil f ar ra [] c Hw Hc).
    + rewrite dp_cons_cons in Hn.
      apply cell_val_neq in Hn as [[Hs Hp]|[(Hs & Hw & Hp)|[[Hw Hp]|[Hw Hp]]]].
      * apply bool_decide_eq_true_1 in Hs. subst br.
        destruct (IHa _ Hp) as [c Hc]. exists c. apply path_same, Hc.
      * apply bool_decide_eq_false_1 in Hs.
        destruct (IHa _ Hp) as [c Hc]. eexists.
        apply (path_swap nil f ar br ra rb c Hs Hw Hc).
      * destruct (IHb Hp) as [c Hc]. eexists.
        apply (path_insert nil f br (ar :: ra) rb c Hw Hc).
      * destruct (IHa _ Hp) as [c Hc]. eexists.
        apply (path_delete nil f ar ra (br :: rb) c Hw Hc).
Qed.

Lemma bounded_rev f K a b :
  bounded f K a b →
  K * Z.of_nat (length (rev a) + length (rev b)) < Inhibit.
Proof. intros (_ & Hlen & _). rewrite !length_rev. exact Hlen. Qed.

(** With costs in range, cutoff 0 returns the value of the recurrence. *)
Lemma Distance_ed f K a b :
  bounded f K a b →
  fits (K * Z.of_nat (length a + length b))
       (ed nil f (rev a) (rev b)) (Distance nil a b f 0).
Proof.
  intros Hb. rewrite Distance_dp.
  pose proof (bounded_rev f K a b Hb) as Hlen.
  destruct Hb as (HK & _ & Hf).
  pose proof (dp_fits f K HK Hf (rev a) (rev b) Hlen) as Hfit.
  rewrite !length_rev in Hfit. exact Hfit.
Qed.

(** C10: with an empty [b] and a positive cutoff the loop over [a]
    leaves after its first row, so [Distance] returns the cost of deleting
    the first element of [a] alone, whatever follows it. *)
Theorem C10_empty_b_cutoff f ar a cut :
  DeleteA (f ar nil) ≠ Inhibit → int64 (DeleteA (f ar nil)) → 0 < cut →
  rows nil f cut [] (ar :: a) (base_loop nil f [] 0 (replicate (length ([] : list any) + 1) 0))
    = [DeleteA (f ar nil)] ∧
  Distance nil (ar :: a) [] f cut = DeleteA (f ar nil).
Proof.
  intros Hne Hrange Hcut.
  assert (Hrows : rows nil f cut [] (ar :: a) [0] = [DeleteA (f ar nil)]).
  { cbn [rows]. unfold row_step. cbn [foldl stop lst].
    rewrite (bool_decide_eq_true_2 (cut ≠ 0)) by lia. cbn [andb].
    change ([0] !!! 0%nat) with 0.
    rewrite bool_decide_eq_false_2.
    2:{ intros [Hc|Hc]; [contradiction | discriminate Hc]. }
    cbn [insert list_insert]. rewrite Z.add_0_l, wrap64_id by exact Hrange.
    reflexivity. }
  split; [exact Hrows|].
  unfold Distance. cbv zeta. cbn [base_loop length Nat.add replicate].
  rewrite Hrows. reflexivity.
Qed.

(** C2 (amended): while every cost is the sentinel or at most [K] and
    [K * (|a| + |b|)] stays below the sentinel, [Distance a b f 0] is the
    value of the edit-distance recurrence in which a deletion of [A[i]]
    and an insertion of [B[j]] are priced by [f(A[i], B[j])] (with
    [absent] only on the border of the table); no path is cheaper, and it
    is the cost of a path whenever there is one. *)
Theorem C2_distance_is_minimum f K a b :
  bounded f K a b →
  Distance nil a b f 0 = default Inhibit (ed nil f (rev a) (rev b)) ∧
  (∀ c, path nil f (rev a) (rev b) c → Distance nil a b f 0 ≤ c) ∧
  (feasible nil f a b → min_cost nil f a b (Distance nil a b f 0)).
Proof.
  intros Hb. destruct (Distance_ed f K a b Hb) as [Hval Hrange].
  assert (Hle : ∀ c, path nil f (rev a) (rev b) c → Distance nil a b f 0 ≤ c).
  { intros c Hc. destruct (path_ed_le f _ _ c Hc) as (d & Hd & Hdc).
    rewrite Hval, Hd. simpl. exact Hdc. }
  split; [exact Hval|]. split; [exact Hle|].
  intros [c Hc]. split; [|exact Hle].
  destruct (path_ed_le f _ _ c Hc) as (d & Hd & _).
  rewrite Hval, Hd. simpl. apply ed_path, Hd.
Qed.

(** C7 (amended): without a feasible path [Distance a b f 0] is the
    sentinel, whatever the costs; with a feasible path it is not the
    sentinel provided the costs are such that no sum reaches it. *)
Theorem C7_sentinel_iff_infeasible f K a b :
  (¬ feasible nil f a b → Distance nil a b f 0 = Inhibit) ∧
  (bounded f K a b → feasible nil f a b → Distance nil a b f 0 ≠ Inhibit).
Proof.
  split.
  - intros Hno. rewrite Distance_dp.
    destruct (decide (dp nil f (rev a) (rev b) = Inhibit)) as [He|Hne];
      [exact He|].
    exfalso. apply Hno. apply dp_feasible, Hne.
  - intros Hb [c Hc]. pose proof (Distance_ed f K a b Hb) as Hfit.
    destruct (path_ed_le f _ _ c Hc) as (d & Hd & _).
    intros Hs. apply (fits_sentinel _ _ _ (proj1 (proj2 Hb)) Hfit) in Hs.
    rewrite Hs in Hd. discriminate Hd.
Qed.

(** *** Unit costs and the cutoff *)

#[local] Abbreviation U := (StandardCost (any:=any)).

Lemma unit_cost_ne : (1 : Z) ≠ Inhibit.
Proof. rewrite Inhibit_eq. lia. Qed.

Lemma ed_unit_total : ∀ ra rb, ∃ d, ed nil U ra rb = Some d.
Proof.
  induction ra as [|ar ra IHa].
  - induction rb as [|br rb [d IHb]]; [exists 0; reflexivity|].
    rewrite ed_nil_cons. eexists. apply (oadd_Some _ _ _ unit_cost_ne IHb).
  - intros rb. destruct rb as [|br rb].
    + destruct (IHa []) as [d Hd]. rewrite ed_cons_nil. eexists.
      apply (oadd_Some _ _ _ unit_cost_ne Hd).
    + destruct (IHa (br :: rb)) as [d Hd]. rewrite ed_cons_cons.
      pose proof (oadd_Some _ (DeleteA (U ar br)) _ unit_cost_ne Hd) as Ho.
      destruct (omin_Some_r (omin (if bool_decide (ar = br) then ed nil U ra rb
                   else oadd (ed nil U ra rb) (SwapAB (U ar br)))
                   (oadd (ed nil U (ar :: ra) rb) (InsertB (U ar br)))) _ _ Ho)
        as (q & Hq & _).
      exists q. exact Hq.
Qed.

(** If every cell of a row reaches [cut], so does every cell of the next
    row. *)
Lemma unit_row_mono cut rb0 ra x :
  (∀ s d, s `suffix_of` rb0 → ed nil U ra s = Some d → cut ≤ d) →
  ∀ s d, s `suffix_of` rb0 → ed nil U (x :: ra) s = Some d → cut ≤ d.
Proof.
  intros HP. induction s as [|br s IHs]; intros d Hsuf Hd.
  - rewrite ed_cons_nil in Hd. apply oadd_inv in Hd as (_ & p & Hp & ->).
    specialize (HP [] p Hsuf Hp). cbn. lia.
  - pose proof (suffix_cons_l _ _ _ Hsuf) as Hsuf'.
    rewrite ed_cons_cons in Hd.
    apply omin_inv in Hd as [Hd|Hd]; [apply omin_inv in Hd as [Hd|Hd]|].
    + case_bool_decide.
      * apply (HP s d Hsuf' Hd).
      * apply oadd_inv in Hd as (_ & p & Hp & ->).
        specialize (HP s p Hsuf' Hp). cbn. lia.
    + apply oadd_inv in Hd as (_ & p & Hp & ->).
      specialize (IHs p Hsuf' Hp). cbn. lia.
    + apply oadd_inv in Hd as (_ & p & Hp & ->).
      specialize (HP (br :: s) p Hsuf Hp). cbn. lia.
Qed.

Lemma unit_rows_mono cut rb0 ra :
  (∀ s d, s `suffix_of` rb0 → ed nil U ra s = Some d → cut ≤ d) →
  ∀ ext s d, s `suffix_of` rb0 → ed nil U (ext ++ ra) s = Some d → cut ≤ d.
Proof.
  intros HP. induction ext as [|x ext IH]; [exact HP|].
  cbn [app]. apply unit_row_mono. exact IH.
Qed.

(** Column 0 of a row past the first is at least column 1. *)
Lemma unit_col0 x ra y d d' :
  ed nil U (x :: ra) [y] = Some d → ed nil U (x :: ra) [] = Some d' → d ≤ d'.
Proof.
  intros Hd Hd'. rewrite ed_cons_nil in Hd'.
  apply oadd_inv in Hd' as (_ & p & Hp & ->).
  rewrite ed_cons_cons, Hp in Hd.
  assert (Hdiag : ∃ q, (if bool_decide (x = y) then Some p
                        else oadd (Some p) (SwapAB (U x y))) = Some q ∧ q ≤ p + 1).
  { case_bool_decide; [exists p; split; [reflexivity|lia]|].
    exists (p + 1). split; [apply oadd_Some; [exact unit_cost_ne|reflexivity] | lia]. }
  destruct Hdiag as (q & Hq & Hqle).
  destruct (omin_Some_l _ (oadd (ed nil U (x :: ra) []) (InsertB (U x y))) _ Hq)
    as (q1 & Hq1 & Hle1).
  destruct (omin_Some_l _ (oadd (ed nil U ra [y]) (DeleteA (U x y))) _ Hq1)
    as (q2 & Hq2 & Hle2).
  rewrite Hq2 in Hd. injection Hd as <-. cbn. lia.
Qed.

Lemma unit_bounded a b :
  Z.of_nat (length a + length b) < Inhibit → bounded U 1 a b.
Proof.
  intros Hlen. split; [lia|]. split; [lia|].
  intros x y. cbn. unfold cost_ok. lia.
Qed.

Lemma unit_dp_ed ra rb :
  Z.of_nat (length ra + length rb) < Inhibit →
  ∃ d, ed nil U ra rb = Some d ∧ dp nil U ra rb = d.
Proof.
  intros Hlen. destruct (ed_unit_total ra rb) as [d Hd]. exists d.
  split; [exact Hd|].
  assert (Hf : ∀ x y : any, cost_ok 1 (SwapAB (U x y)) ∧
             cost_ok 1 (DeleteA (U x y)) ∧ cost_ok 1 (InsertB (U x y))).
  { intros x y. cbn. unfold cost_ok. lia. }
  destruct (dp_fits U 1 ltac:(lia) Hf ra rb ltac:(lia)) as [Hv _].
  rewrite Hv, Hd. reflexivity.
Qed.

Lemma suffix_rev_take (s b : list any) :
  s `suffix_of` rev b → rev (take (length s) b) = s.
Proof.
  intros [k Hk].
  assert (Hb : b = rev s ++ rev k).
  { rewrite <- (rev_involutive b), Hk, rev_app_distr. reflexivity. }
  rewrite Hb, <- (length_rev s), take_app_length, rev_involutive.
  reflexivity.
Qed.

Lemma cutoff_exact a b cut :
  b ≠ [] → 0 < cut → Z.of_nat (length a + length b) < Inhibit →
  Distance nil a b U 0 < cut →
  Distance nil a b U cut = Distance nil a b U 0.
Proof.
  intros Hb Hcut Hlen Hlt.
  rewrite Distance_dp in Hlt |- *. unfold Distance. cbv zeta.
  destruct (rows_cut U cut b ltac:(lia) a [] _ (base_row U b))
    as (a1 & a2 & Ha & Hrow & Hor).
  rewrite app_nil_r in Hrow, Hor.
  rewrite (is_row_last _ _ _ _ Hrow).
  destruct Hor as [->|[Ha1 Hall]]; [rewrite app_nil_r in Ha; subst; reflexivity|].
  exfalso.
  assert (Hlens : (length a1 ≤ length a)%nat) by (subst a; rewrite length_app; lia).
  (* every cell of the row of [a1] reaches the cutoff *)
  assert (Hpos : ∀ s d, s ≠ [] → s `suffix_of` rev b →
                 ed nil U (rev a1) s = Some d → cut ≤ d).
  { intros s d Hs Hsuf Hd.
    pose proof (suffix_length _ _ Hsuf) as Hsl. rewrite length_rev in Hsl.
    assert (Hj : (1 ≤ length s ≤ length b)%nat).
    { destruct s; [contradiction | cbn [length] in *; lia]. }
    specialize (Hall _ Hj). rewrite (suffix_rev_take s b Hsuf) in Hall.
    destruct (unit_dp_ed (rev a1) s) as (d' & Hd' & Hdp).
    { rewrite length_rev. lia. }
    rewrite Hd in Hd'. injection Hd' as <-. lia. }
  assert (HP : ∀ s d, s `suffix_of` rev b →
               ed nil U (rev a1) s = Some d → cut ≤ d).
  { intros s d Hsuf Hd. destruct s as [|y s]; [|apply (Hpos (y :: s) d); [discriminate|assumption..]].
    destruct b as [|y b']; [contradiction|].
    destruct (rev a1) as [|x ra] eqn:Hra.
    { apply (f_equal (@length any)) in Hra. rewrite length_rev in Hra.
      destruct a1; [contradiction | discriminate Hra]. }
    destruct (ed_unit_total (x :: ra) [y]) as [d1 Hd1].
    assert (Hsy : [y] `suffix_of` rev (y :: b')) by (exists (rev b'); reflexivity).
    pose proof (Hpos [y] d1 ltac:(discriminate) Hsy Hd1).
    pose proof (unit_col0 x ra y d1 d Hd1 Hd). lia. }
  destruct (unit_dp_ed (rev a) (rev b)) as (d & Hd & Hdp).
  { rewrite !length_rev. exact Hlen. }
  assert (Hrev : rev a = rev a2 ++ rev a1) by (subst a; apply rev_app_distr).
  rewrite Hrev in Hd.
  pose proof (unit_rows_mono cut (rev b) (rev a1) HP (rev a2) (rev b) d
                ltac:(reflexivity) Hd) as Hge.
  lia.
Qed.

End Distance_table.

(** *** Concrete runs *)

Local Open Scope string_scope.
Local Open Scope Z_scope.

Example distance_abcdefg :
  Distance None (splitString "abcdefg") (splitString "axcdfgh") StandardCost 0 = 3.
Proof. vm_compute. reflexivity. Qed.

Example distance_abcdef_abc_2 :
  Distance None (splitString "abcdef") (splitString "abc") StandardCost 2 = 2.
Proof. vm_compute. reflexivity. Qed.

Example distance_abcdef_abc_3 :
  Distance None (splitString "abcdef") (splitString "abc") StandardCost 3 = 3.
Proof. vm_compute. reflexivity. Qed.

Example distance_abcdef_abcd_3 :
  Distance None (splitString "abcdef") (splitString "abcd") StandardCost 3 = 2.
Proof. vm_compute. reflexivity. Qed.

Example distance_xya_ya :
  Distance None (splitString "xya") (splitString "ya") StandardCost 0 = 1 ∧
  Distance None (splitString "xya") (splitString "ya") StandardCost 1 = 2.
Proof. split; vm_compute; reflexivity. Qed.

Example distance_ab_empty :
  Distance None (splitString "ab") [] StandardCost 0 = 2 ∧
  Distance None (splitString "ab") [] StandardCost 5 = 1.
Proof. split; vm_compute; reflexivity. Qed.

Example distance_pair_priced :
  Distance None [Some "a"] [Some "b"] pair_priced 0 = 10 ∧
  ed_spec None pair_priced [Some "a"] [Some "b"] = Some 2.
Proof. split; vm_compute; reflexivity. Qed.

Example distance_steep :
  Distance None [Some "x"; Some "y"] [] steep 0 = Inhibit.
Proof. vm_compute. reflexivity. Qed.

Lemma C10_witness :
  (DeleteA (StandardCost (Some "a") None) ≠ Inhibit ∧
   int64 (DeleteA (StandardCost (Some "a") None)) ∧ 0 < 5) ∧
  Distance None [Some "a"; Some "b"; Some "c"] [] StandardCost 5 = 1.
Proof.
  assert (H1 : DeleteA (StandardCost (Some "a") (None : option string)) ≠ Inhibit)
    by (cbn; rewrite Inhibit_eq; lia).
  assert (H2 : int64 (DeleteA (StandardCost (Some "a") (None : option string))))
    by (apply int64_iff; cbn; lia).
  assert (H3 : 0 < 5) by lia.
  split; [auto|].
  exact (proj2 (C10_empty_b_cutoff None StandardCost (Some "a")
                  [Some "b"; Some "c"] 5 H1 H2 H3)).
Defined.

(** C2, as the specification words it, fails: with [pair_priced] the
    code prices the deletion of ["a"] next to ["b"] at 10 and returns 10,
    while deleting at [f(a, absent)] and inserting at [f(absent, b)] costs
    2. *)
Lemma C2_counterexample :
  (∀ x y, 0 ≤ SwapAB (pair_priced x y) ∧ 0 ≤ DeleteA (pair_priced x y) ∧
          0 ≤ InsertB (pair_priced x y)) ∧
  Distance None [Some "a"] [Some "b"] pair_priced 0
    ≠ default Inhibit (ed_spec None pair_priced (rev [Some "a"]) (rev [Some "b"])).
Proof.
  split.
  - intros [x|] [y|]; cbn; lia.
  - destruct distance_pair_priced as [-> H2]. cbn [rev app].
    rewrite H2. cbn. lia.
Qed.

Lemma C2_witness :
  bounded StandardCost 1 (splitString "abc") (splitString "abd") ∧
  min_cost None StandardCost (splitString "abc") (splitString "abd")
    (Distance None (splitString "abc") (splitString "abd") StandardCost 0).
Proof.
  assert (Hb : bounded (StandardCost (any:=option string)) 1
                 (splitString "abc") (splitString "abd")).
  { apply unit_bounded. cbn. rewrite Inhibit_eq. lia. }
  split; [exact Hb|].
  apply (C2_distance_is_minimum None StandardCost 1 _ _ Hb).
  exists 1. change (rev (splitString "abc")) with [Some "c"; Some "b"; Some "a"].
  change (rev (splitString "abd")) with [Some "d"; Some "b"; Some "a"].
  apply (path_swap None StandardCost (Some "c") (Some "d") _ _ 0);
    [discriminate | cbn; rewrite Inhibit_eq; lia |].
  apply path_same, path_same, path_start.
Defined.

(** C7, as stated, fails: deleting ["x"] at [2^63 - 2] and then ["y"] at 1
    is a path without an inhibited move, and the code returns the
    sentinel for it. *)
Lemma C7_counterexample :
  feasible None steep [Some "x"; Some "y"] [] ∧
  Distance None [Some "x"; Some "y"] [] steep 0 = Inhibit.
Proof.
  split; [|exact distance_steep].
  eexists. cbn [rev app].
  apply (path_delete None steep (Some "y") [Some "x"] []);
    [vm_compute; discriminate|].
  apply (path_delete None steep (Some "x") [] []);
    [vm_compute; discriminate|].
  apply path_start.
Qed.

Lemma C7_witness :
  (bounded StandardCost 1 (splitString "abc") (splitString "abd") ∧
   feasible None StandardCost (splitString "abc") (splitString "abd")) ∧
  Distance None (splitString "abc") (splitString "abd") StandardCost 0 ≠ Inhibit.
Proof.
  assert (Hb : bounded (StandardCost (any:=option string)) 1
                 (splitString "abc") (splitString "abd")).
  { apply unit_bounded. cbn. rewrite Inhibit_eq. lia. }
  assert (Hf : feasible None StandardCost (splitString "abc") (splitString "abd")).
  { exists 1. change (rev (splitString "abc")) with [Some "c"; Some "b"; Some "a"].
    change (rev (splitString "abd")) with [Some "d"; Some "b"; Some "a"].
    apply (path_swap None StandardCost (Some "c") (Some "d") _ _ 0);
      [discriminate | cbn; rewrite Inhibit_eq; lia |].
    apply path_same, path_same, path_start. }
  split; [split; assumption|].
  exact (proj2 (C7_sentinel_iff_infeasible None StandardCost 1 _ _) Hb Hf).
Defined.

(** C3 (amended): with unit costs, a non-empty [b] and a cutoff above the
    true distance, [Distance] returns the true distance; on the two runs
    of the claim it returns 2 with cutoff 2 and 3 with cutoff 3. *)
Theorem C3_cutoff_unit_costs {any : Type} `{EqDecision any} (nil : any)
    (a b : list any) (cut : Z) :
  b ≠ [] → 0 < cut → Z.of_nat (length a + length b) < Inhibit →
  Distance nil a b StandardCost 0 < cut →
  Distance nil a b StandardCost cut = Distance nil a b StandardCost 0 ∧
  Distance None (splitString "abcdef") (splitString "abc") StandardCost 2 = 2 ∧
  Distance None (splitString "abcdef") (splitString "abc") StandardCost 3 = 3.
Proof.
  intros Hb Hcut Hlen Hlt. split; [apply cutoff_exact; assumption|].
  split; [exact distance_abcdef_abc_2 | exact distance_abcdef_abc_3].
Qed.

(** C3, as stated, fails three ways: the run with cutoff 3 returns 3, not
    2; with cutoff 1 the run on "xya" and "ya" returns 2, above the true
    distance 1; and with an empty [b] the cutoff 5 exceeds the true
    distance 2 of "ab" but 1 is returned. *)
Lemma C3_counterexample :
  Distance None (splitString "abcdef") (splitString "abc") StandardCost 3 ≠ 2 ∧
  ¬ (Distance None (splitString "xya") (splitString "ya") StandardCost 1
     ≤ Distance None (splitString "xya") (splitString "ya") StandardCost 0) ∧
  (Distance None (splitString "ab") [] StandardCost 0 < 5 ∧
   Distance None (splitString "ab") [] StandardCost 5
   ≠ Distance None (splitString "ab") [] StandardCost 0).
Proof.
  rewrite distance_abcdef_abc_3.
  destruct distance_xya_ya as [-> ->]. destruct distance_ab_empty as [-> ->].
  lia.
Qed.

Lemma C3_witness :
  (splitString "abcd" ≠ [] ∧ 0 < 3 ∧
   Z.of_nat (length (splitString "abcdef") + length (splitString "abcd")) < Inhibit ∧
   Distance None (splitString "abcdef") (splitString "abcd") StandardCost 0 < 3) ∧
  Distance None (splitString "abcdef") (splitString "abcd") StandardCost 3
  = Distance None (splitString "abcdef") (splitString "abcd") StandardCost 0.
Proof.
  assert (H1 : splitString "abcd" ≠ []) by discriminate.
  assert (H2 : 0 < 3) by lia.
  assert (H3 : Z.of_nat (length (splitString "abcdef") + length (splitString "abcd"))
               < Inhibit) by (vm_compute; reflexivity).
  assert (H4 : Distance None (splitString "abcdef") (splitString "abcd")
                 StandardCost 0 < 3) by (vm_compute; reflexivity).
  split; [auto|].
  exact (proj1 (C3_cutoff_unit_costs None _ _ 3 H1 H2 H3 H4)).
Defined.

End listdist_proofs.

(** ** Package listdist: the cutoff, the empty lists and the unit costs *)

Module listdist_extra.
Import listdist listdist_proofs.

Section Distance_more.
Context {any : Type} `{EqDecision any} (nil : any).
Implicit Types (f : CostFunc (any:=any)) (a b ra rb : list any) (l : list Z).
#[local] Arguments dp : simpl never.
#[local] Arguments ed : simpl never.

(** *** Where the cutoff stops the loop *)

Lemma first_below (P : nat → Prop) `{∀ j, Decision (P j)} (n : nat) :
  ¬ (∀ j, (1 ≤ j ≤ n)%nat → ¬ P j) → ∃ j, (1 ≤ j ≤ n)%nat ∧ P j.
Proof.
  induction n as [|n IH]; intros Hn.
  - exfalso. apply Hn. intros j Hj. lia.
  - destruct (decide (P (S n))) as [HP|HP]; [exists (S n); split; [lia|exact HP]|].
    destruct IH as (j & Hj & HPj).
    + intros Hall. apply Hn. intros j Hj.
      destruct (decide (j = S n)) as [->|Hne]; [exact HP | apply Hall; lia].
    + exists j. split; [lia | exact HPj].
Qed.

(** The loop over [a] leaves after the first row all of whose cells past
    column 0 reach the cutoff, and not before. *)
Lemma rows_cut_first f cut b : cut ≠ 0 → ∀ a ra l,
  is_row nil f ra b l →
  ∃ a1 a2, a = a1 ++ a2 ∧
    is_row nil f (rev a1 ++ ra) b (rows nil f cut b a l) ∧
    (a2 = [] ∨
     (a1 ≠ [] ∧ ∀ j, (1 ≤ j ≤ length b)%nat →
        ¬ dp nil f (rev a1 ++ ra) (rev (take j b)) < cut)) ∧
    (∀ a0 a0', a1 = a0 ++ a0' → a0 ≠ [] → a0' ≠ [] →
       ∃ j, (1 ≤ j ≤ length b)%nat ∧
            dp nil f (rev a0 ++ ra) (rev (take j b)) < cut).
Proof.
  intros Hcut. induction a as [|ar a IH]; intros ra l Hrow.
  - exists [], []. split; [reflexivity|]. split; [exact Hrow|].
    split; [left; reflexivity|].
    intros a0 a0' E Ha0. destruct a0; [contradiction | discriminate E].
  - cbn [rows]. rewrite bool_decide_eq_true_2 by exact Hcut. cbn [andb].
    destruct (stop (row_step nil f cut b l ar)) eqn:Hstop.
    + exists [ar], a. split; [reflexivity|]. split; [apply row_step_row, Hrow|].
      split.
      * right. split; [discriminate|].
        apply (row_step_stop nil f cut ar ra b l Hrow). exact Hstop.
      * intros a0 a0' E Ha0 Ha0'.
        destruct a0 as [|x [|y a0]]; [contradiction| |discriminate E].
        destruct a0'; [contradiction | discriminate E].
    + destruct (IH (ar :: ra) _ (row_step_row nil f cut ar ra b l Hrow))
        as (a1 & a2 & -> & Hr & Hor & Hfirst).
      exists (ar :: a1), a2. split; [reflexivity|].
      simpl rev. rewrite <- app_assoc. simpl. split; [exact Hr|]. split.
      * destruct Hor as [->|[_ Hall]]; [left; reflexivity|].
        right. split; [discriminate | exact Hall].
      * intros a0 a0' E Ha0 Ha0'.
        destruct a0 as [|x a0]; [contradiction|].
        injection E as <- E.
        destruct a0 as [|y a0].
        -- cbn [rev app].
           refine (first_below
                     (λ j, dp nil f (ar :: ra) (rev (take j b)) < cut)
                     (length b) _).
           intros Hall.
           pose proof (proj2 (row_step_stop nil f cut ar ra b l Hrow) Hall).
           congruence.
        -- destruct (Hfirst (y :: a0) a0' E ltac:(discriminate) Ha0')
             as (j & Hj & Hlt).
           exists j. split; [exact Hj|].
           assert (Erev : rev (ar :: y :: a0) ++ ra
                          = rev (y :: a0) ++ ar :: ra).
           { cbn [rev]. rewrite <- !app_assoc. reflexivity. }
           rewrite Erev. exact Hlt.
Qed.

Lemma Distance_rows f a b cut :
  cut ≠ 0 →
  ∃ a1 a2, a = a1 ++ a2 ∧
    Distance nil a b f cut = Distance nil a1 b f 0 ∧
    (a2 = [] ∨
     (a1 ≠ [] ∧ ∀ j, (1 ≤ j ≤ length b)%nat →
        ¬ Distance nil a1 (take j b) f 0 < cut)) ∧
    (∀ a0 a0', a1 = a0 ++ a0' → a0 ≠ [] → a0' ≠ [] →
       ∃ j, (1 ≤ j ≤ length b)%nat ∧
            Distance nil a0 (take j b) f 0 < cut).
Proof.
  intros Hcut.
  destruct (rows_cut_first f cut b Hcut a [] _ (base_row nil f b))
    as (a1 & a2 & Ha & Hrow & Hor & Hfirst).
  exists a1, a2. split; [exact Ha|].
  rewrite app_nil_r in Hrow, Hor. split; [|split].
  - rewrite Distance_dp. unfold Distance. cbv zeta.
    apply (is_row_last nil f _ _ _ Hrow).
  - destruct Hor as [E|[Hne Hall]]; [left; exact E|].
    right. split; [exact Hne|]. intros j Hj. rewrite Distance_dp.
    apply Hall, Hj.
  - intros a0 a0' E H0 H0'.
    destruct (Hfirst a0 a0' E H0 H0') as (j & Hj & Hlt).
    exists j. split; [exact Hj|].
    rewrite Distance_dp. rewrite app_nil_r in Hlt. exact Hlt.
Qed.

(** X1: with a cutoff, [Distance] returns the distance from a prefix of
    [a] to [b]: the shortest non-empty prefix whose row has every cell
    past column 0 at or above the cutoff, or [a] itself when no row but
    possibly the last is like that. *)
Theorem Distance_cutoff_prefix f a b cut :
  cut ≠ 0 →
  ∃ a1 a2, a = a1 ++ a2 ∧
    Distance nil a b f cut = Distance nil a1 b f 0 ∧
    (a2 = [] ∨
     (a1 ≠ [] ∧ ∀ j, (1 ≤ j ≤ length b)%nat →
        ¬ Distance nil a1 (take j b) f 0 < cut)) ∧
    (∀ a0 a0', a1 = a0 ++ a0' → a0 ≠ [] → a0' ≠ [] →
       ∃ j, (1 ≤ j ≤ length b)%nat ∧
            Distance nil a0 (take j b) f 0 < cut).
Proof. apply Distance_rows. Qed.

(** X2: whatever the cost function, a result below the cutoff is the
    result without cutoff, when [b] is not empty. *)
Theorem Distance_below_cutoff_exact f a b cut :
  cut ≠ 0 → b ≠ [] →
  Distance nil a b f cut < cut →
  Distance nil a b f cut = Distance nil a b f 0.
Proof.
  intros Hcut Hb Hlt.
  destruct (Distance_rows f a b cut Hcut) as (a1 & a2 & -> & E & Hor & _).
  destruct Hor as [->|[_ Hall]]; [rewrite app_nil_r in *; exact E|].
  exfalso. rewrite E in Hlt.
  apply (Hall (length b)).
  - destruct b; [contradiction | cbn [length]; lia].
  - rewrite take_ge by lia. exact Hlt.
Qed.

(** *** Exact values *)

Lemma bounded_sub f K a b a' b' :
  (length a' + length b' ≤ length a + length b)%nat →
  bounded f K a b → bounded f K a' b'.
Proof.
  intros Hle (HK & Hlen & Hc). split; [exact HK|]. split; [nia | exact Hc].
Qed.

Lemma Distance_exact f K a b :
  bounded f K a b →
  Distance nil a b f 0 = default Inhibit (ed nil f (rev a) (rev b)) ∧
  ∀ d, ed nil f (rev a) (rev b) = Some d →
       0 ≤ d ≤ K * Z.of_nat (length a + length b).
Proof. intros Hb. apply (Distance_ed nil f K a b Hb). Qed.




(** X6: under the same bound the result without cutoff is the sentinel
    or lies between 0 and the bound; with a cutoff it is the sentinel or
    lies in the same range. *)
Theorem Distance_range f K a b cut :
  bounded f K a b →
  Distance nil a b f cut = Inhibit ∨
  0 ≤ Distance nil a b f cut ≤ K * Z.of_nat (length a + length b).
Proof.
  intros Hb.
  assert (H0 : ∀ a', (length a' ≤ length a)%nat →
            Distance nil a' b f 0 = Inhibit ∨
            0 ≤ Distance nil a' b f 0 ≤ K * Z.of_nat (length a + length b)).
  { intros a' Hl.
    assert (Hb' : bounded f K a' b) by (apply (bounded_sub f K a b); [lia|exact Hb]).
    destruct (Distance_exact f K a' b Hb') as [E Hr].
    destruct (ed nil f (rev a') (rev b)) as [d|]; [|left; exact E].
    right. rewrite E. cbn. specialize (Hr d eq_refl).
    destruct Hb as (HK & _). nia. }
  destruct (decide (cut = 0)) as [->|Hne]; [apply H0; lia|].
  destruct (Distance_rows f a b cut Hne) as (a1 & a2 & Ha & -> & _).
  apply H0. rewrite Ha, length_app. lia.
Qed.

(** *** An empty list on one side *)

Lemma Distance_nil_l f b cut :
  Distance nil [] b f cut = dp nil f [] (rev b).
Proof.
  unfold Distance. cbv zeta. cbn [rows].
  apply (is_row_last nil f [] b _ (base_row nil f b)).
Qed.

Lemma Distance_nil_r f a :
  Distance nil a [] f 0 = dp nil f (rev a) [].
Proof. apply (Distance_dp nil f a []). Qed.

Lemma zsum_rev {A} (g : A → Z) (l : list A) :
  foldr Z.add 0 (g <$> rev l) = foldr Z.add 0 (g <$> l).
Proof.
  induction l as [|x l IH]; [reflexivity|].
  cbn [rev]. rewrite fmap_app, foldr_app, fmap_cons. cbn [fmap list_fmap foldr].
  rewrite <- IH. generalize (g <$> rev l). intros k.
  induction k as [|y k IHk]; cbn [foldr]; [lia|]. rewrite IHk. lia.
Qed.

Lemma zsum_nonneg {A} (g : A → Z) (l : list A) :
  Forall (λ y, 0 ≤ g y) l → 0 ≤ foldr Z.add 0 (g <$> l).
Proof.
  induction 1 as [|x l Hx _ IH]; [cbn; lia|].
  rewrite fmap_cons. cbn [foldr]. lia.
Qed.

(** A chain of guarded sums is the plain sum while no cost is negative
    and the total stays below the sentinel, and the sentinel as soon as
    one cost is the sentinel. *)
Lemma chain_sum {A} (g : A → Z) (l : list A) :
  Forall (λ y, 0 ≤ g y) l → foldr Z.add 0 (g <$> l) < Inhibit →
  foldr (λ y p, add_inh p (g y)) 0 l = foldr Z.add 0 (g <$> l).
Proof.
  induction 1 as [|x l Hx Hl IH]; intros Hsum; [reflexivity|].
  rewrite fmap_cons in Hsum |- *. cbn [foldr] in Hsum |- *.
  pose proof (zsum_nonneg g l Hl) as Hnn.
  rewrite IH by lia. unfold add_inh.
  rewrite bool_decide_eq_false_2 by lia.
  rewrite wrap64_id; [lia|].
  apply int64_iff. rewrite Inhibit_eq in Hsum. lia.
Qed.

Lemma chain_inhibit {A} (g : A → Z) (l : list A) :
  Exists (λ y, g y = Inhibit) l →
  foldr (λ y p, add_inh p (g y)) 0 l = Inhibit.
Proof.
  induction 1 as [x l Hx|x l _ IH]; cbn [foldr].
  - set (p := foldr _ 0 l). unfold add_inh.
    rewrite bool_decide_eq_true_2 by (left; exact Hx). reflexivity.
  - rewrite IH. unfold add_inh.
    rewrite bool_decide_eq_true_2 by (right; reflexivity). reflexivity.
Qed.

Lemma dp_nil_chain f : ∀ rb,
  dp nil f [] rb = foldr (λ y p, add_inh p (InsertB (f nil y))) 0 rb.
Proof.
  induction rb as [|y rb IH]; [reflexivity|].
  rewrite dp_nil_cons, IH. reflexivity.
Qed.

Lemma dp_chain_nil f : ∀ ra,
  dp nil f ra [] = foldr (λ x p, add_inh p (DeleteA (f x nil))) 0 ra.
Proof.
  induction ra as [|x ra IH]; [reflexivity|].
  rewrite dp_cons_nil, IH. reflexivity.
Qed.

(** X4: with [a] empty the result is, for every cutoff, the sentinel if
    some [f(nil, br).InsertB] is the sentinel, and the sum of these
    insert costs if none is negative and the sum is below the sentinel. *)
Theorem Distance_empty_a f b cut :
  (Exists (λ y, InsertB (f nil y) = Inhibit) b →
   Distance nil [] b f cut = Inhibit) ∧
  (Forall (λ y, 0 ≤ InsertB (f nil y)) b →
   foldr Z.add 0 ((λ y, InsertB (f nil y)) <$> b) < Inhibit →
   Distance nil [] b f cut = foldr Z.add 0 ((λ y, InsertB (f nil y)) <$> b)).
Proof.
  rewrite Distance_nil_l, dp_nil_chain. split.
  - intros Hex. apply chain_inhibit, Exists_rev, Hex.
  - intros Hall Hsum. rewrite <- (zsum_rev _ b) in Hsum |- *.
    apply chain_sum; [apply Forall_rev, Hall | exact Hsum].
Qed.

(** X5: with [b] empty and no cutoff the result is the sentinel if some
    [f(ar, nil).DeleteA] is the sentinel, and the sum of these delete
    costs if none is negative and the sum is below the sentinel. *)
Theorem Distance_empty_b f a :
  (Exists (λ x, DeleteA (f x nil) = Inhibit) a →
   Distance nil a [] f 0 = Inhibit) ∧
  (Forall (λ x, 0 ≤ DeleteA (f x nil)) a →
   foldr Z.add 0 ((λ x, DeleteA (f x nil)) <$> a) < Inhibit →
   Distance nil a [] f 0 = foldr Z.add 0 ((λ x, DeleteA (f x nil)) <$> a)).
Proof.
  rewrite Distance_nil_r, dp_chain_nil. split.
  - intros Hex. apply chain_inhibit, Exists_rev, Hex.
  - intros Hall Hsum. rewrite <- (zsum_rev _ a) in Hsum |- *.
    apply chain_sum; [apply Forall_rev, Hall | exact Hsum].
Qed.

(** *** The two lists exchanged *)

Lemma wrap64_le z : wrap64 z ≤ Inhibit.
Proof.
  unfold wrap64. rewrite Inhibit_eq.
  change (2 ^ 63) with 9223372036854775808.
  change (2 ^ 64) with 18446744073709551616.
  pose proof (Z.mod_pos_bound (z + 9223372036854775808) 18446744073709551616
                ltac:(lia)).
  lia.
Qed.

Lemma add_inh_le p w : add_inh p w ≤ Inhibit.
Proof.
  unfold add_inh. case_bool_decide; [lia | apply wrap64_le].
Qed.

(** A cell is the least of its three candidates. *)
Lemma cell_val_min (same : bool) cost diag lft up :
  diag ≤ Inhibit →
  cell_val same cost diag lft up =
  Z.min (Z.min (if same then diag else add_inh diag (SwapAB cost))
               (add_inh lft (InsertB cost)))
        (add_inh up (DeleteA cost)).
Proof.
  intros Hd. unfold cell_val. cbv zeta.
  rewrite (guarded_first diag (SwapAB cost)).
  set (m0 := if same then diag else add_inh diag (SwapAB cost)).
  assert (H0 : m0 ≤ Inhibit).
  { unfold m0. destruct same; [exact Hd | apply add_inh_le]. }
  pose proof (guarded_min lft (InsertB cost) m0 H0) as E1.
  cbv zeta in E1. rewrite E1. clear E1.
  set (m1 := if bool_decide (add_inh lft (InsertB cost) < m0)
             then add_inh lft (InsertB cost) else m0).
  assert (H1 : m1 = Z.min m0 (add_inh lft (InsertB cost)))
    by (unfold m1; case_bool_decide; lia).
  assert (H1' : m1 ≤ Inhibit) by lia.
  pose proof (guarded_min up (DeleteA cost) m1 H1') as E2.
  cbv zeta in E2. rewrite E2. clear E2. case_bool_decide; lia.
Qed.

Lemma dp_le f : ∀ ra rb, dp nil f ra rb ≤ Inhibit.
Proof.
  assert (H0 : (0 : Z) ≤ Inhibit) by (rewrite Inhibit_eq; lia).
  induction ra as [|ar ra IHa].
  - induction rb as [|br rb IHb]; [exact H0|].
    rewrite dp_nil_cons. apply add_inh_le.
  - induction rb as [|br rb IHb].
    + rewrite dp_cons_nil. apply add_inh_le.
    + rewrite dp_cons_cons, cell_val_min by apply IHa.
      pose proof (add_inh_le (dp nil f ra (br :: rb)) (DeleteA (f ar br))).
      lia.
Qed.

Lemma dp_mirror f : ∀ ra rb, dp nil (mirror f) rb ra = dp nil f ra rb.
Proof.
  induction ra as [|ar ra IHa].
  - induction rb as [|br rb IHb]; [reflexivity|].
    rewrite dp_cons_nil, dp_nil_cons, IHb. reflexivity.
  - induction rb as [|br rb IHb].
    + rewrite dp_nil_cons, dp_cons_nil, (IHa []). reflexivity.
    + rewrite !dp_cons_cons.
      rewrite !cell_val_min by apply dp_le.
      rewrite (IHa rb), (IHa (br :: rb)), IHb.
      cbn [mirror SwapAB InsertB DeleteA].
      assert (Eb : bool_decide (br = ar) = bool_decide (ar = br)).
      { repeat case_bool_decide; congruence. }
      rewrite Eb. lia.
Qed.

(** X12: exchanging the two lists, and with them the roles of deletion
    and insertion in the cost function, does not change the result. *)
Theorem Distance_mirror f a b :
  Distance nil b a (mirror f) 0 = Distance nil a b f 0.
Proof. rewrite !Distance_dp. apply dp_mirror. Qed.

(** *** Unit costs *)

#[local] Abbreviation U := (StandardCost (any:=any)).

Lemma unit_nil_cons y rb :
  ∃ q, ed nil U [] rb = Some q ∧ ed nil U [] (y :: rb) = Some (q + 1).
Proof.
  destruct (ed_unit_total nil [] rb) as [q Hq]. exists q.
  split; [exact Hq|]. rewrite ed_nil_cons, Hq. reflexivity.
Qed.

Lemma unit_cons_nil x ra :
  ∃ q, ed nil U ra [] = Some q ∧ ed nil U (x :: ra) [] = Some (q + 1).
Proof.
  destruct (ed_unit_total nil ra []) as [q Hq]. exists q.
  split; [exact Hq|]. rewrite ed_cons_nil, Hq. reflexivity.
Qed.

(** The cell of two non-empty lists is the least of its three
    neighbours, each with its move. *)
Lemma unit_cell x ra y rb :
  ∃ p q r,
    ed nil U ra rb = Some p ∧ ed nil U (x :: ra) rb = Some q ∧
    ed nil U ra (y :: rb) = Some r ∧
    ed nil U (x :: ra) (y :: rb) =
    Some (Z.min (Z.min (if bool_decide (x = y) then p else p + 1) (q + 1))
                (r + 1)).
Proof.
  destruct (ed_unit_total nil ra rb) as [p Hp].
  destruct (ed_unit_total nil (x :: ra) rb) as [q Hq].
  destruct (ed_unit_total nil ra (y :: rb)) as [r Hr].
  exists p, q, r. split; [exact Hp|]. split; [exact Hq|]. split; [exact Hr|].
  rewrite ed_cons_cons, Hp, Hq, Hr.
  case_bool_decide; reflexivity.
Qed.

Lemma unit_ed_bounds : ∀ ra rb d,
  ed nil U ra rb = Some d →
  Z.abs (Z.of_nat (length ra) - Z.of_nat (length rb)) ≤ d
  ≤ Z.max (Z.of_nat (length ra)) (Z.of_nat (length rb)).
Proof.
  induction ra as [|x ra IHa].
  - induction rb as [|y rb IHb]; intros d Hd.
    + injection Hd as <-. cbn. lia.
    + destruct (unit_nil_cons y rb) as (q & Hq & E).
      rewrite E in Hd. injection Hd as <-.
      specialize (IHb q Hq). cbn [length] in *. lia.
  - induction rb as [|y rb IHb]; intros d Hd.
    + destruct (unit_cons_nil x ra) as (q & Hq & E).
      rewrite E in Hd. injection Hd as <-.
      specialize (IHa [] q Hq). cbn [length] in *. lia.
    + destruct (unit_cell x ra y rb) as (p & q & r & Hp & Hq & Hr & E).
      rewrite E in Hd. injection Hd as <-.
      specialize (IHb q Hq). pose proof (IHa rb p Hp).
      pose proof (IHa (y :: rb) r Hr).
      cbn [length] in *. case_bool_decide; lia.
Qed.

Lemma unit_ed_sym : ∀ ra rb, ed nil U ra rb = ed nil U rb ra.
Proof.
  induction ra as [|x ra IHa].
  - induction rb as [|y rb IHb]; [reflexivity|].
    destruct (unit_nil_cons y rb) as (q & Hq & ->).
    destruct (unit_cons_nil y rb) as (q' & Hq' & ->).
    rewrite IHb, Hq' in Hq. injection Hq as <-. reflexivity.
  - induction rb as [|y rb IHb].
    + destruct (unit_cons_nil x ra) as (q & Hq & ->).
      destruct (unit_nil_cons x ra) as (q' & Hq' & ->).
      rewrite (IHa []), Hq' in Hq. injection Hq as <-. reflexivity.
    + destruct (unit_cell x ra y rb) as (p & q & r & Hp & Hq & Hr & ->).
      destruct (unit_cell y rb x ra) as (p' & q' & r' & Hp' & Hq' & Hr' & ->).
      rewrite (IHa rb), Hp' in Hp. injection Hp as <-.
      rewrite IHb, Hr' in Hq. injection Hq as <-.
      rewrite (IHa (y :: rb)), Hq' in Hr. injection Hr as <-.
      f_equal. repeat case_bool_decide; subst; try congruence; lia.
Qed.


(** The value [Distance] returns for unit costs, as long as the lists
    are shorter than the sentinel. *)
Lemma unit_Distance a b :
  Z.of_nat (length a + length b) < Inhibit →
  ed nil U (rev a) (rev b) = Some (Distance nil a b U 0).
Proof.
  intros Hlen. rewrite (Distance_dp nil).
  destruct (unit_dp_ed nil (rev a) (rev b)) as (d & Hd & <-); [|exact Hd].
  rewrite !length_rev. exact Hlen.
Qed.

(** X7: with unit costs the distance lies between the difference of the
    two lengths and the greater of them. *)
Theorem StandardCost_bounds a b :
  Z.of_nat (length a + length b) < Inhibit →
  Z.abs (Z.of_nat (length a) - Z.of_nat (length b))
  ≤ Distance nil a b StandardCost 0
  ≤ Z.max (Z.of_nat (length a)) (Z.of_nat (length b)).
Proof.
  intros Hlen. pose proof (unit_ed_bounds _ _ _ (unit_Distance a b Hlen)) as Hb.
  rewrite !length_rev in Hb. exact Hb.
Qed.


(** X9: with unit costs the distance is symmetric. *)
Theorem StandardCost_symmetric a b :
  Distance nil a b StandardCost 0 = Distance nil b a StandardCost 0.
Proof.
  rewrite !(Distance_dp nil). symmetry. apply (dp_mirror U (rev a) (rev b)).
Qed.

Lemma unit_del_le x ra rc d d' :
  ed nil U (x :: ra) rc = Some d → ed nil U ra rc = Some d' → d ≤ d' + 1.
Proof.
  intros Hd Hd'. destruct rc as [|z rc].
  - destruct (unit_cons_nil x ra) as (q & Hq & E).
    rewrite E in Hd. rewrite Hq in Hd'. injection Hd as <-.
    injection Hd' as <-. lia.
  - destruct (unit_cell x ra z rc) as (p & q & r & _ & _ & Hr & E).
    rewrite E in Hd. rewrite Hr in Hd'. injection Hd as <-.
    injection Hd' as <-. lia.
Qed.

Lemma unit_ins_le z ra rc d d' :
  ed nil U ra (z :: rc) = Some d → ed nil U ra rc = Some d' → d ≤ d' + 1.
Proof.
  rewrite (unit_ed_sym ra (z :: rc)), (unit_ed_sym ra rc).
  apply unit_del_le.
Qed.

Lemma unit_diag_le x ra z rc d d' :
  ed nil U (x :: ra) (z :: rc) = Some d → ed nil U ra rc = Some d' →
  d ≤ d' + (if bool_decide (x = z) then 0 else 1).
Proof.
  intros Hd Hd'.
  destruct (unit_cell x ra z rc) as (p & q & r & Hp & _ & _ & E).
  rewrite E in Hd. rewrite Hp in Hd'. injection Hd as <-.
  injection Hd' as <-. case_bool_decide; lia.
Qed.

Lemma unit_ed_triangle : ∀ n ra rb rc dab dbc dac,
  (length ra + length rb + length rc ≤ n)%nat →
  ed nil U ra rb = Some dab → ed nil U rb rc = Some dbc →
  ed nil U ra rc = Some dac → dac ≤ dab + dbc.
Proof.
  induction n as [|n IH]; intros ra rb rc dab dbc dac Hn Hab Hbc Hac;
    pose proof (unit_ed_bounds _ _ _ Hab) as Bab;
    pose proof (unit_ed_bounds _ _ _ Hbc) as Bbc;
    pose proof (unit_ed_bounds _ _ _ Hac) as Bac.
  { destruct ra, rb, rc; cbn [length] in *; lia. }
  destruct ra as [|x ra]; [cbn [length] in *; lia|].
  destruct rb as [|y rb]; [cbn [length] in *; lia|].
  destruct rc as [|z rc]; [cbn [length] in *; lia|].
  cbn [length] in Hn.
  destruct (unit_cell x ra y rb) as (p1 & q1 & r1 & Hp1 & Hq1 & Hr1 & E1).
  destruct (unit_cell y rb z rc) as (p2 & q2 & r2 & Hp2 & Hq2 & Hr2 & E2).
  rewrite E1 in Hab. rewrite E2 in Hbc.
  injection Hab as Hab. injection Hbc as Hbc.
  destruct (ed_unit_total nil ra (z :: rc)) as [u1 Hu1].
  destruct (ed_unit_total nil (x :: ra) rc) as [u2 Hu2].
  destruct (ed_unit_total nil ra rc) as [u3 Hu3].
  pose proof (unit_del_le _ _ _ _ _ Hac Hu1) as L1.
  pose proof (unit_ins_le _ _ _ _ _ Hac Hu2) as L2.
  pose proof (unit_diag_le _ _ _ _ _ _ Hac Hu3) as L3.
  (* delete [x] first *)
  pose proof (IH ra (y :: rb) (z :: rc) r1 (Z.min (Z.min (if bool_decide (y = z)
                then p2 else p2 + 1) (q2 + 1)) (r2 + 1)) u1
                ltac:(cbn [length]; lia) Hr1 E2 Hu1) as A.
  (* insert [z] last *)
  pose proof (IH (x :: ra) (y :: rb) rc (Z.min (Z.min (if bool_decide (x = y)
                then p1 else p1 + 1) (q1 + 1)) (r1 + 1)) q2 u2
                ltac:(cbn [length]; lia) E1 Hq2 Hu2) as B.
  (* insert [y], then delete it *)
  pose proof (IH (x :: ra) rb (z :: rc) q1 r2 dac
                ltac:(cbn [length]; lia) Hq1 Hr2 Hac) as C.
  (* insert [y], then turn it into [z] *)
  pose proof (IH (x :: ra) rb rc q1 p2 u2
                ltac:(cbn [length]; lia) Hq1 Hp2 Hu2) as D.
  (* turn [x] into [y], then delete it *)
  pose proof (IH ra rb (z :: rc) p1 r2 u1
                ltac:(cbn [length]; lia) Hp1 Hr2 Hu1) as E.
  (* turn [x] into [y], then into [z] *)
  pose proof (IH ra rb rc p1 p2 u3
                ltac:(cbn [length]; lia) Hp1 Hp2 Hu3) as F.
  repeat case_bool_decide; subst; try congruence; lia.
Qed.

(** X10: with unit costs the distance obeys the triangle inequality. *)
Theorem StandardCost_triangle a b c :
  Z.of_nat (length a + length b + length c) < Inhibit →
  Distance nil a c StandardCost 0
  ≤ Distance nil a b StandardCost 0 + Distance nil b c StandardCost 0.
Proof.
  intros Hlen.
  apply (unit_ed_triangle (length a + length b + length c)
           (rev a) (rev b) (rev c)).
  - rewrite !length_rev. lia.
  - apply unit_Distance. lia.
  - apply unit_Distance. lia.
  - apply unit_Distance. lia.
Qed.





End Distance_more.

(** *** Elements that cannot be compared *)

Section Panic.
Context {any : Type} (nil : any) (eqp : any → any → option bool).
Implicit Types (f : CostFunc (any:=any)) (a b : list any) (l : list Z).

Lemma cell_step_p_None f cut ar s br :
  cell_step_p eqp f cut ar s br = None ↔ eqp ar br = None.
Proof.
  unfold cell_step_p. cbv zeta. destruct (eqp ar br); split; congruence.
Qed.

Lemma cells_p_None f cut ar : ∀ b os,
  foldl (λ os br, match os with
                  | None => None
                  | Some s => cell_step_p eqp f cut ar s br
                  end) os b = None ↔
  os = None ∨ ∃ br, br ∈ b ∧ eqp ar br = None.
Proof.
  induction b as [|br b IH]; intros os; cbn [foldl].
  - split; [auto|]. intros [E|(br & Hbr & _)]; [exact E|].
    apply elem_of_nil in Hbr. contradiction.
  - rewrite IH. split.
    + intros [E|(x & Hx & Hp)].
      * destruct os as [s|]; [|left; reflexivity].
        right. exists br. split; [left|]. apply (cell_step_p_None f cut ar s br), E.
      * right. exists x. split; [right; exact Hx | exact Hp].
    + intros [->|(x & Hx & Hp)]; [left; reflexivity|].
      apply elem_of_cons in Hx as [->|Hx].
      * left. destruct os as [s|]; [|reflexivity].
        apply cell_step_p_None, Hp.
      * right. exists x. auto.
Qed.

Lemma row_step_p_None f cut b l ar :
  row_step_p nil eqp f cut b l ar = None ↔ ∃ br, br ∈ b ∧ eqp ar br = None.
Proof.
  unfold row_step_p. cbv zeta. rewrite cells_p_None. split.
  - intros [E|Hex]; [discriminate E | exact Hex].
  - intros Hex. right. exact Hex.
Qed.

Lemma rows_p_None f cut b : ∀ a l,
  (rows_p nil eqp f cut b a l = None →
   ∃ ar br, ar ∈ a ∧ br ∈ b ∧ eqp ar br = None) ∧
  (cut = 0 → (∃ ar br, ar ∈ a ∧ br ∈ b ∧ eqp ar br = None) →
   rows_p nil eqp f cut b a l = None).
Proof.
  induction a as [|ar a IH]; intros l; cbn [rows_p].
  - split; [discriminate|]. intros _ (ar & br & Har & _).
    apply elem_of_nil in Har. contradiction.
  - destruct (row_step_p nil eqp f cut b l ar) as [s|] eqn:Hrow.
    + assert (Hno : ∀ br, br ∈ b → eqp ar br ≠ None).
      { intros br Hbr Hp.
        assert (Hn : row_step_p nil eqp f cut b l ar = None)
          by (apply row_step_p_None; eauto).
        congruence. }
      split.
      * destruct (bool_decide (cut ≠ 0) && stop s); [discriminate|].
        intros Hr. destruct (proj1 (IH (lst s)) Hr) as (x & br & Hx & Hbr & Hp).
        exists x, br. split; [right; exact Hx | auto].
      * intros -> (x & br & Hx & Hbr & Hp).
        rewrite bool_decide_eq_false_2 by (intros Hc; apply Hc; reflexivity).
        cbn [andb]. apply (proj2 (IH (lst s)) eq_refl).
        apply elem_of_cons in Hx as [->|Hx]; [destruct (Hno br Hbr Hp)|].
        exists x, br. auto.
    + apply row_step_p_None in Hrow as (br & Hbr & Hp).
      split; [|reflexivity]. intros _. exists ar, br.
      split; [left | auto].
Qed.

(** X13: [Distance] panics only if it meets an element of [a] and an
    element of [b] that [==] cannot compare, and without cutoff it panics
    whenever the two lists hold such a pair, wherever it is. *)
Theorem Distance_panics_on_uncomparable f a b cut :
  (Distance_p nil eqp a b f cut = None →
   ∃ ar br, ar ∈ a ∧ br ∈ b ∧ eqp ar br = None) ∧
  (cut = 0 → (∃ ar br, ar ∈ a ∧ br ∈ b ∧ eqp ar br = None) →
   Distance_p nil eqp a b f cut = None).
Proof.
  unfold Distance_p. cbv zeta.
  pose proof (rows_p_None f cut b a
                (base_loop nil f b 0 (replicate (length b + 1) 0))) as [H1 H2].
  destruct (rows_p nil eqp f cut b a _) as [l|]; split.
  - discriminate.
  - intros Hc Hex. specialize (H2 Hc Hex). discriminate H2.
  - intros _. apply H1. reflexivity.
  - reflexivity.
Qed.

Section Agree.
Context `{EqDecision any}.





End Agree.
End Panic.

(** *** Concrete instances *)

Local Open Scope string_scope.
Local Open Scope Z_scope.

Lemma Distance_cutoff_prefix_witness :
  ∃ a1 a2, splitString "abcdef" = (a1 ++ a2)%list ∧
    Distance None (splitString "abcdef") (splitString "abc") StandardCost 2
    = Distance None a1 (splitString "abc") StandardCost 0 ∧
    (a2 = [] ∨
     (a1 ≠ [] ∧ ∀ j, (1 ≤ j ≤ length (splitString "abc"))%nat →
        ¬ Distance None a1 (take j (splitString "abc")) StandardCost 0 < 2)) ∧
    (∀ a0 a0', a1 = (a0 ++ a0')%list → a0 ≠ [] → a0' ≠ [] →
       ∃ j, (1 ≤ j ≤ length (splitString "abc"))%nat ∧
            Distance None a0 (take j (splitString "abc")) StandardCost 0 < 2).
Proof.
  apply (Distance_cutoff_prefix None StandardCost (splitString "abcdef")
           (splitString "abc") 2).
  lia.
Defined.

Lemma Distance_below_cutoff_exact_witness :
  Distance None [Some "a"] [Some "b"] pair_priced 20 < 20 ∧
  Distance None [Some "a"] [Some "b"] pair_priced 20
  = Distance None [Some "a"] [Some "b"] pair_priced 0.
Proof.
  assert (Hlt : Distance None [Some "a"] [Some "b"] pair_priced 20 < 20)
    by (vm_compute; reflexivity).
  split; [exact Hlt|].
  apply (Distance_below_cutoff_exact None pair_priced [Some "a"] [Some "b"] 20);
    [lia | discriminate | exact Hlt].
Defined.


Lemma Distance_range_witness :
  Distance None (splitString "abc") (splitString "xy") StandardCost 1 = Inhibit ∨
  0 ≤ Distance None (splitString "abc") (splitString "xy") StandardCost 1
    ≤ 1 * Z.of_nat (length (splitString "abc") + length (splitString "xy")).
Proof.
  apply (Distance_range None StandardCost 1).
  apply unit_bounded. cbn. rewrite Inhibit_eq. lia.
Defined.

Lemma Distance_empty_a_witness :
  Distance None [] [Some "a"; Some "b"] pair_priced 7 = 2 ∧
  Distance None [] [Some "a"; Some "x"]
    (λ _ y, if bool_decide (y = Some "x") then mkCost 1 1 Inhibit
            else mkCost 1 1 1) 7 = Inhibit.
Proof.
  split.
  - apply (proj2 (Distance_empty_a None pair_priced [Some "a"; Some "b"] 7)).
    + repeat constructor; cbn; lia.
    + cbn. rewrite Inhibit_eq. lia.
  - apply (proj1 (Distance_empty_a None
                    (λ _ y, if bool_decide (y = Some "x")
                            then mkCost 1 1 Inhibit else mkCost 1 1 1)
                    [Some "a"; Some "x"] 7)).
    right. left. reflexivity.
Defined.

Lemma Distance_empty_b_witness :
  Distance None [Some "a"; Some "b"] [] pair_priced 0 = 2.
Proof.
  apply (proj2 (Distance_empty_b None pair_priced [Some "a"; Some "b"])).
  - repeat constructor; cbn; lia.
  - cbn. rewrite Inhibit_eq. lia.
Defined.

Lemma StandardCost_bounds_witness :
  Z.abs (Z.of_nat (length (splitString "abcdef"))
         - Z.of_nat (length (splitString "abc")))
  ≤ Distance None (splitString "abcdef") (splitString "abc") StandardCost 0
  ≤ Z.max (Z.of_nat (length (splitString "abcdef")))
          (Z.of_nat (length (splitString "abc"))).
Proof.
  apply (StandardCost_bounds None).
  cbn. rewrite Inhibit_eq. lia.
Defined.



Lemma StandardCost_triangle_witness :
  Distance None (splitString "abc") (splitString "xyz") StandardCost 0
  ≤ Distance None (splitString "abc") (splitString "abz") StandardCost 0
    + Distance None (splitString "abz") (splitString "xyz") StandardCost 0.
Proof.
  apply (StandardCost_triangle None).
  cbn. rewrite Inhibit_eq. lia.
Defined.

(** [==] on a test element that stands for a slice: it panics when both
    sides are that element. *)
Lemma Distance_panics_witness :
  let eqp := λ x y : option string,
    if bool_decide (x = Some "[]" ∧ y = Some "[]") then None
    else Some (bool_decide (x = y)) in
  Distance_p None eqp [Some "a"; Some "[]"] [Some "[]"; Some "b"]
             StandardCost 0 = None.
Proof.
  intros eqp.
  apply (proj2 (Distance_panics_on_uncomparable None eqp StandardCost
                  [Some "a"; Some "[]"] [Some "[]"; Some "b"] 0));
    [reflexivity|].
  exists (Some "[]"), (Some "[]").
  split; [right; left|]. split; [left|]. reflexivity.
Defined.


End listdist_extra.
(** ** Package assign: what the code computes *)

Module assign_proofs.
Import assign.

Local Open Scope nat_scope.

(** *** Loops over index ranges *)

Lemma foldl_seq_S {A} (f : A → nat → A) (a : A) (k : nat) :
  foldl f a (seq 0 (S k)) = f (foldl f a (seq 0 k)) k.
Proof. rewrite seq_S, foldl_app. reflexivity. Qed.

Lemma fill_seq {A} (x : A) : ∀ k (l : list A),
  k ≤ length l →
  foldl (λ l j, <[j := x]> l) l (seq 0 k) = replicate k x ++ drop k l.
Proof.
  induction k as [|k IH]; intros l Hk; [reflexivity|].
  rewrite foldl_seq_S, IH by lia.
  destruct (lookup_lt_is_Some_2 l k ltac:(lia)) as [y Hy].
  rewrite (drop_S _ _ _ Hy).
  rewrite insert_app_r_alt by (rewrite length_replicate; lia).
  rewrite length_replicate, Nat.sub_diag. cbn [insert list_insert].
  rewrite replicate_S_end, <- app_assoc. reflexivity.
Qed.

Lemma fill_seq_all {A} (x : A) (l : list A) k :
  length l = k →
  foldl (λ l j, <[j := x]> l) l (seq 0 k) = replicate k x.
Proof.
  intros <-. rewrite fill_seq by lia. rewrite drop_all, app_nil_r. reflexivity.
Qed.

(** Writing at [i] the value found at [j] moves the "hole" from [i] to
    [j]: the other entries are the same up to order. *)
Lemma delete_insert_lookup {A} `{Inhabited A} (l : list A) (i j : nat) :
  i < length l → j < length l →
  delete j (<[i := l !!! j]> l) ≡ₚ delete i l.
Proof.
  intros Hi Hj. destruct (decide (i = j)) as [->|Hne].
  - rewrite list_insert_id; [reflexivity|].
    apply list_lookup_lookup_total_lt, Hj.
  - set (l' := <[i := l !!! j]> l).
    assert (Hlj : l' !! j = Some (l !!! j)).
    { unfold l'. rewrite list_lookup_insert_ne by exact Hne.
      apply list_lookup_lookup_total_lt, Hj. }
    assert (Hli : l' !! i = Some (l !!! j)).
    { unfold l'. apply list_lookup_insert_eq, Hi. }
    pose proof (delete_Permutation l' j _ Hlj) as P1.
    pose proof (delete_Permutation l' i _ Hli) as P2.
    assert (Hdel : delete i l' = delete i l).
    { unfold l'. rewrite !delete_take_drop.
      rewrite take_insert_ge by lia. rewrite drop_insert_lt by lia.
      reflexivity. }
    rewrite Hdel in P2. rewrite P1 in P2.
    apply (Permutation.Permutation_cons_inv P2).
Qed.

(** Case analysis on every [bool_decide] of the goal. *)
Ltac case_decides :=
  repeat match goal with
  | |- context [bool_decide ?P] =>
      destruct (decide P);
      [rewrite (bool_decide_eq_true_2 P) by assumption
      |rewrite (bool_decide_eq_false_2 P) by assumption]
  end.

Ltac mixed_cases :=
  case_decides; try reflexivity; exfalso;
  repeat match goal with H : _ ∧ _ |- _ => destruct H end;
  match goal with
  | Hn : ¬ (_ ∧ _) |- _ =>
      apply Hn; split; first [lia | assumption | congruence]
  end.

Ltac index_cases :=
  case_decides;
  first [ reflexivity
        | exfalso; lia
        | repeat match goal with H : _ ∧ _ |- _ => destruct H end;
          subst; first [reflexivity | f_equal; lia] ].

Section Solver.
Context {any : Type} (nil : any).
Context {Cost : Type} `{CostIface Cost} `{EqDecision Cost} `{Inhabited Cost}.
Context (options : AssignOptions (any:=any) (Cost:=Cost)).
Implicit Types (s : solver (Cost:=Cost)) (costs : list (list Cost)).

#[local] Instance any_inh : Inhabited any := populate nil.

(** *** The shape of the state is kept, whatever the costs *)

Lemma scan_step_shape costs s cur cs (st : scan_state) j n :
  length st.1.1.1 = S n → length st.1.1.2 = S n →
  Forall (λ x, x ≤ n) st.1.1.2 → cur ≤ n →
  (st.2 < n ∨ st.2 = 0) → j < n →
  let st' := scan_step options costs s cur cs st j in
  length st'.1.1.1 = S n ∧ length st'.1.1.2 = S n ∧
  Forall (λ x, x ≤ n) st'.1.1.2 ∧ (st'.2 < n ∨ st'.2 = 0).
Proof.
  destruct st as [[[ms tr] delta] nxt]. cbn [fst snd].
  intros Hms Htr Hall Hcur Hnxt Hj. unfold scan_step.
  destruct (visitedTarget s !!! j : bool); cbn [fst snd]; [auto|].
  destruct (Less _ (ms !!! j)); destruct (Less _ delta); cbn [fst snd];
    rewrite ?length_insert; repeat split; auto;
    apply Forall_insert; auto.
Qed.

Lemma scan_shape costs s cur cs n ms tr delta : ∀ k,
  length ms = S n → length tr = S n → Forall (λ x, x ≤ n) tr → cur ≤ n →
  k ≤ n →
  let st' := foldl (scan_step options costs s cur cs) (ms, tr, delta, 0) (seq 0 k) in
  length st'.1.1.1 = S n ∧ length st'.1.1.2 = S n ∧
  Forall (λ x, x ≤ n) st'.1.1.2 ∧ (st'.2 < n ∨ st'.2 = 0).
Proof.
  intros k Hms Htr Hall Hcur. induction k as [|k IH]; intros Hk.
  - cbn. auto.
  - rewrite foldl_seq_S. destruct (IH ltac:(lia)) as (H1 & H2 & H3 & H4).
    apply scan_step_shape; auto.
Qed.

Lemma update_shape s delta n (st : list Cost * list Cost * list Cost) : ∀ k,
  length st.1.1 = S n → length st.1.2 = S n → length st.2 = S n →
  let st' := foldl (update_step options s delta) st (seq 0 k) in
  length st'.1.1 = S n ∧ length st'.1.2 = S n ∧ length st'.2 = S n.
Proof.
  intros k H1 H2 H3. induction k as [|k IH]; [cbn; auto|].
  rewrite foldl_seq_S. destruct IH as (I1 & I2 & I3).
  destruct (foldl _ st (seq 0 k)) as [[sc tc] ms]. cbn [fst snd] in *.
  unfold update_step. destruct (visitedTarget s !!! k : bool); cbn [fst snd];
    rewrite ?length_insert; auto.
Qed.

Lemma grow_step_shape costs n s cur :
  wf n s → Forall (λ x, x ≤ n) (targetTrail s) → cur ≤ n →
  let r := grow_step options costs n s cur in
  wf n r.1 ∧ Forall (λ x, x ≤ n) (targetTrail r.1) ∧
  targetSource r.1 = targetSource s ∧ (r.2 < n ∨ r.2 = 0).
Proof.
  intros (Hsc & Htc & Hts & Hms & Htr & Hvis) Hall Hcur. unfold grow_step.
  cbn [sourceCost targetCost targetSource minSlack targetTrail visitedTarget].
  match goal with |- context [foldl (scan_step options costs ?s1 cur ?cs) ?i (seq 0 n)] =>
    pose proof (scan_shape costs s1 cur cs n (minSlack s) (targetTrail s)
                  (MaxCost options) n Hms Htr Hall Hcur (le_n n)) as Hscan;
    destruct (foldl (scan_step options costs s1 cur cs) i (seq 0 n))
      as [[[ms tr] delta] nxt] eqn:Escan;
    cbn [fst snd] in Hscan; destruct Hscan as (S1 & S2 & S3 & S4);
    pose proof (update_shape s1 delta n (sourceCost s, targetCost s, ms) (n + 1)
                  Hsc Htc S1) as Hup;
    destruct (foldl (update_step options s1 delta) (sourceCost s, targetCost s, ms)
                (seq 0 (n + 1))) as [[sc tc] ms'] eqn:Eup;
    cbn [fst snd] in Hup; destruct Hup as (U1 & U2 & U3)
  end.
  cbn [fst snd sourceCost targetCost targetSource minSlack targetTrail visitedTarget].
  unfold wf. cbn [sourceCost targetCost targetSource minSlack targetTrail visitedTarget].
  rewrite length_insert. auto 10.
Qed.

Lemma grow_shape costs n : ∀ fuel s cur s' cur',
  wf n s → Forall (λ x, x ≤ n) (targetTrail s) → cur ≤ n →
  grow options fuel costs n s cur = Some (s', cur') →
  wf n s' ∧ Forall (λ x, x ≤ n) (targetTrail s') ∧
  targetSource s' = targetSource s ∧ cur' ≤ n ∧
  targetSource s' !!! cur' = n.
Proof.
  induction fuel as [|fuel IH]; intros s cur s' cur' Hwf Hall Hcur Hg;
    cbn [grow] in Hg; case_bool_decide as Hc.
  - discriminate Hg.
  - injection Hg as <- <-.
    assert (He : targetSource s !!! cur = n)
      by (destruct (decide (targetSource s !!! cur = n)); [assumption|contradiction]).
    auto.
  - pose proof (grow_step_shape costs n s cur Hwf Hall Hcur) as Hstep.
    destruct (grow_step options costs n s cur) as [s1 nxt].
    cbn [fst snd] in Hstep. destruct Hstep as (W & A & T & N).
    destruct (IH s1 nxt s' cur' W A ltac:(lia) Hg) as (W' & A' & T' & N' & E').
    rewrite T' , T. rewrite T', T in E'. auto.
  - injection Hg as <- <-.
    assert (He : targetSource s !!! cur = n)
      by (destruct (decide (targetSource s !!! cur = n)); [assumption|contradiction]).
    auto.
Qed.

(** The flip keeps the entries other than the current one, up to order. *)
Lemma flip_perm n tr : Forall (λ x, x ≤ n) tr → ∀ fuel ts cur ts',
  length ts = S n → cur ≤ n →
  flip fuel n tr ts cur = Some ts' →
  length ts' = S n ∧ take n ts' ≡ₚ delete cur ts.
Proof.
  intros Htr. induction fuel as [|fuel IH]; intros ts cur ts' Hlen Hcur Hf;
    cbn [flip] in Hf; case_bool_decide as Hc.
  - discriminate Hf.
  - injection Hf as <-. split; [exact Hlen|].
    assert (cur = n) as -> by (destruct (decide (cur = n)); [assumption|contradiction]).
    rewrite delete_take_drop, drop_ge, app_nil_r by lia. reflexivity.
  - assert (Hp : tr !!! cur ≤ n).
    { destruct (decide (cur < length tr)) as [Hlt|Hge].
      - apply (Forall_lookup_total_1 _ _ _ Htr Hlt).
      - rewrite list_lookup_total_alt, lookup_ge_None_2 by lia. cbn. lia. }
    destruct (IH _ _ _ ltac:(rewrite length_insert; exact Hlen) Hp Hf) as [L P].
    split; [exact L|]. rewrite P.
    apply delete_insert_lookup; lia.
  - injection Hf as <-. split; [exact Hlen|].
    assert (cur = n) as -> by (destruct (decide (cur = n)); [assumption|contradiction]).
    rewrite delete_take_drop, drop_ge, app_nil_r by lia. reflexivity.
Qed.

(** The loops that (re)initialise the slices. *)
Lemma reset_loop n s : ∀ k,
  foldl (reset_step options n) s (seq 0 k) =
  {| sourceCost := sourceCost s;
     targetCost := targetCost s;
     targetSource := targetSource s;
     minSlack := foldl (λ l j, <[j := MaxCost options]> l) (minSlack s) (seq 0 k);
     targetTrail := foldl (λ l j, <[j := n]> l) (targetTrail s) (seq 0 k);
     visitedTarget := foldl (λ l j, <[j := false]> l) (visitedTarget s) (seq 0 k) |}.
Proof.
  induction k as [|k IH]; [destruct s; reflexivity|].
  rewrite !foldl_seq_S, IH. reflexivity.
Qed.

Lemma reset_all n s :
  wf n s →
  foldl (reset_step options n) s (seq 0 (n + 1)) =
  {| sourceCost := sourceCost s;
     targetCost := targetCost s;
     targetSource := targetSource s;
     minSlack := replicate (S n) (MaxCost options);
     targetTrail := replicate (S n) n;
     visitedTarget := replicate (S n) false |}.
Proof.
  intros (_ & _ & _ & Hms & Htr & Hvis). rewrite reset_loop.
  replace (n + 1) with (S n) by lia.
  rewrite !fill_seq_all by assumption. reflexivity.
Qed.

Lemma init_loop n s : ∀ k,
  foldl (init_step options n) s (seq 0 k) =
  {| sourceCost := foldl (λ l j, <[j := MinCost options]> l) (sourceCost s) (seq 0 k);
     targetCost := foldl (λ l j, <[j := MinCost options]> l) (targetCost s) (seq 0 k);
     targetSource := foldl (λ l j, <[j := n]> l) (targetSource s) (seq 0 k);
     minSlack := minSlack s;
     targetTrail := targetTrail s;
     visitedTarget := visitedTarget s |}.
Proof.
  induction k as [|k IH]; [destruct s; reflexivity|].
  rewrite !foldl_seq_S, IH. reflexivity.
Qed.

Lemma init_solver_eq n :
  init_solver options n =
  {| sourceCost := replicate (S n) (MinCost options);
     targetCost := replicate (S n) (MinCost options);
     targetSource := replicate (S n) n;
     minSlack := replicate (S n) inhabitant;
     targetTrail := replicate (S n) 0;
     visitedTarget := replicate (S n) false |}.
Proof.
  unfold init_solver. rewrite init_loop.
  cbn [sourceCost targetCost targetSource minSlack targetTrail visitedTarget].
  replace (n + 1) with (S n) by lia.
  rewrite !fill_seq_all by apply length_replicate. reflexivity.
Qed.

Lemma init_solver_wf n : wf n (init_solver options n).
Proof.
  rewrite init_solver_eq. unfold wf.
  cbn [sourceCost targetCost targetSource minSlack targetTrail visitedTarget].
  rewrite !length_replicate. auto 10.
Qed.

Lemma init_solver_matching n :
  matching n 0 (targetSource (init_solver options n)).
Proof.
  rewrite init_solver_eq. cbn [targetSource]. split.
  - apply length_replicate.
  - rewrite take_replicate, Nat.min_l by lia. cbn [seq app].
    rewrite Nat.sub_0_r. reflexivity.
Qed.

(** One phase adds source [r] to the matching, whatever the costs. *)
Lemma phase_matching fuel costs n s r s' :
  wf n s → matching n r (targetSource s) → r < n →
  phase options fuel costs n s r = Some s' →
  wf n s' ∧ matching n (S r) (targetSource s').
Proof.
  intros Hwf [Hlen Hperm] Hr Hph. unfold phase in Hph.
  set (s1 := {| sourceCost := sourceCost s; targetCost := targetCost s;
                targetSource := <[n := r]> (targetSource s);
                minSlack := minSlack s; targetTrail := targetTrail s;
                visitedTarget := visitedTarget s |}) in Hph.
  assert (Hwf1 : wf n s1).
  { destruct Hwf as (A & B & C & D & E & F). unfold wf, s1.
    cbn [sourceCost targetCost targetSource minSlack targetTrail visitedTarget].
    rewrite length_insert. auto 10. }
  rewrite (reset_all n s1 Hwf1) in Hph.
  set (s2 := {| sourceCost := sourceCost s1; targetCost := targetCost s1;
                targetSource := targetSource s1;
                minSlack := replicate (S n) (MaxCost options);
                targetTrail := replicate (S n) n;
                visitedTarget := replicate (S n) false |}) in Hph.
  assert (Hwf2 : wf n s2).
  { destruct Hwf1 as (A & B & C & D & E & F). unfold wf, s2.
    cbn [sourceCost targetCost targetSource minSlack targetTrail visitedTarget].
    rewrite !length_replicate. auto 10. }
  assert (Htr2 : Forall (λ x, x ≤ n) (targetTrail s2)).
  { unfold s2. cbn [targetTrail]. apply Forall_replicate. lia. }
  destruct (grow options fuel costs n s2 n) as [[s3 cur]|] eqn:Hg; [|discriminate Hph].
  destruct (grow_shape costs n fuel s2 n s3 cur Hwf2 Htr2 (le_n n) Hg)
    as (Hwf3 & Htr3 & Hts3 & Hcur & Hend).
  destruct (flip fuel n (targetTrail s3) (targetSource s3) cur) as [ts'|] eqn:Hf;
    [|discriminate Hph].
  injection Hph as <-.
  assert (Hlen3 : length (targetSource s3) = S n) by apply Hwf3.
  destruct (flip_perm n _ Htr3 fuel _ cur ts' Hlen3 Hcur Hf) as [Hlen' Hperm'].
  split.
  - destruct Hwf3 as (A & B & C & D & E & F). unfold wf.
    cbn [sourceCost targetCost targetSource minSlack targetTrail visitedTarget].
    auto 10.
  - cbn [targetSource]. split; [exact Hlen'|]. rewrite Hperm'.
    rewrite Hts3 in Hend |- *. unfold s2, s1 in Hend |- *. cbn [targetSource] in Hend |- *.
    (* the slice is [take n ts ++ [r]] and [cur] is one of the markers *)
    assert (Hsplit : <[n := r]> (targetSource s) = take n (targetSource s) ++ [r]).
    { rewrite <- (take_drop n (targetSource s)) at 1.
      rewrite insert_app_r_alt by (rewrite length_take; lia).
      rewrite length_take, Nat.min_l, Nat.sub_diag by lia.
      destruct (drop n (targetSource s)) as [|x [|y l]] eqn:Hd.
      - apply (f_equal length) in Hd. rewrite length_drop in Hd. cbn in Hd. lia.
      - reflexivity.
      - apply (f_equal length) in Hd. rewrite length_drop in Hd. cbn in Hd. lia. }
    rewrite Hsplit in Hend |- *.
    assert (Hcn : cur < n).
    { destruct (decide (cur = n)) as [->|]; [|lia].
      rewrite lookup_total_app_r in Hend by (rewrite length_take; lia).
      rewrite length_take, Nat.min_l, Nat.sub_diag in Hend by lia.
      cbn in Hend. lia. }
    assert (Hlt : length (take n (targetSource s)) = n)
      by (rewrite length_take; lia).
    rewrite lookup_total_app_l in Hend by lia.
    assert (Hlk : take n (targetSource s) !! cur = Some n).
    { rewrite <- Hend at 2. apply list_lookup_lookup_total_lt. lia. }
    rewrite delete_take_drop.
    rewrite take_app_le by lia. rewrite drop_app_le by lia.
    rewrite app_assoc, <- delete_take_drop.
    pose proof (delete_Permutation _ _ _ Hlk) as P0.
    assert (P1 : n :: (seq 0 r ++ replicate (n - S r) n)
                 ≡ₚ n :: delete cur (take n (targetSource s))).
    { etrans; [|exact P0]. etrans; [|symmetry; exact Hperm].
      replace (n - r) with (S (n - S r)) by lia.
      rewrite replicate_S. apply Permutation_middle. }
    apply Permutation.Permutation_cons_inv in P1.
    etrans; [apply Permutation_app_tail; symmetry; exact P1|].
    rewrite seq_S. cbn [Nat.add].
    rewrite <- !app_assoc. apply Permutation_app_head.
    apply Permutation_app_comm.
Qed.

Lemma phases_matching fuel costs : ∀ k s,
  k ≤ length costs →
  phases options fuel costs k = Some s →
  wf (length costs) s ∧ matching (length costs) k (targetSource s).
Proof.
  unfold phases. induction k as [|k IH]; intros s Hk Hp.
  - injection Hp as <-. split; [apply init_solver_wf | apply init_solver_matching].
  - rewrite foldl_seq_S in Hp.
    destruct (foldl _ (Some (init_solver options (length costs))) (seq 0 k))
      as [s0|] eqn:E; [|discriminate Hp].
    destruct (IH s0 ltac:(lia) eq_refl) as [W M].
    apply (phase_matching fuel costs (length costs) s0 k s W M ltac:(lia) Hp).
Qed.

(** Whenever [optimalCost] returns, it returns a permutation of the
    source indices. *)
Lemma optimalCost_perm fuel costs optimal :
  optimalCost options fuel costs = Some optimal →
  optimal ≡ₚ seq 0 (length costs).
Proof.
  unfold optimalCost.
  destruct (phases options fuel costs (length costs)) as [s|] eqn:E; [|discriminate].
  intros [= <-].
  destruct (phases_matching fuel costs _ s (le_n _) E) as [_ [_ P]].
  rewrite P, Nat.sub_diag. cbn [replicate]. rewrite app_nil_r. reflexivity.
Qed.

(** *** The cost matrix *)

Lemma set2_shape size (cs : list (list Cost)) i j c : shape size cs → shape size (set2 cs i j c).
Proof.
  intros [Hl Hr]. unfold set2. split; [rewrite length_insert; exact Hl|].
  intros i' Hi'. destruct (decide (i = i')) as [->|Hne].
  - rewrite list_lookup_total_insert_eq by lia. rewrite length_insert. auto.
  - rewrite list_lookup_total_insert_ne by exact Hne. auto.
Qed.

Lemma set2_at size (cs : list (list Cost)) i j c i' j' :
  shape size cs → i < size → j < size →
  at2 (set2 cs i j c) i' j' =
  if bool_decide (i' = i ∧ j' = j) then c else at2 cs i' j'.
Proof.
  intros [Hl Hr] Hi Hj. unfold at2, set2.
  destruct (decide (i' = i)) as [->|Hne].
  - rewrite list_lookup_total_insert_eq by lia.
    destruct (decide (j' = j)) as [->|Hnj].
    + rewrite bool_decide_eq_true_2 by auto.
      rewrite list_lookup_total_insert_eq; [reflexivity|]. rewrite Hr; lia.
    + rewrite bool_decide_eq_false_2 by tauto.
      rewrite list_lookup_total_insert_ne by auto. reflexivity.
  - rewrite bool_decide_eq_false_2 by tauto.
    rewrite list_lookup_total_insert_ne by auto. reflexivity.
Qed.

(** A loop along a row. *)
Lemma fill_row size (g : nat → Cost) i c0 : ∀ clen (cs : list (list Cost)),
  shape size cs → i < size → c0 + clen ≤ size →
  let cs' := foldl (λ cs j, set2 cs i j (g j)) cs (seq c0 clen) in
  shape size cs' ∧
  ∀ i' j', at2 cs' i' j' =
    if bool_decide (i' = i ∧ c0 ≤ j' < c0 + clen) then g j' else at2 cs i' j'.
Proof.
  induction clen as [|clen IH]; intros cs Hs Hi Hc; cbv zeta.
  - cbn [seq foldl]. split; [exact Hs|]. intros i' j'.
    rewrite bool_decide_eq_false_2 by lia. reflexivity.
  - rewrite seq_S, foldl_app. cbn [foldl].
    destruct (IH cs Hs Hi ltac:(lia)) as [Hs' Hat]. cbv zeta in Hs', Hat.
    split; [apply set2_shape, Hs'|]. intros i' j'.
    rewrite (set2_at size) by (auto; lia). rewrite Hat.
    index_cases.
Qed.

(** A loop along a column. *)
Lemma fill_col size (g : nat → Cost) j r0 : ∀ rlen (cs : list (list Cost)),
  shape size cs → j < size → r0 + rlen ≤ size →
  let cs' := foldl (λ cs i, set2 cs i j (g i)) cs (seq r0 rlen) in
  shape size cs' ∧
  ∀ i' j', at2 cs' i' j' =
    if bool_decide (j' = j ∧ r0 ≤ i' < r0 + rlen) then g i' else at2 cs i' j'.
Proof.
  induction rlen as [|rlen IH]; intros cs Hs Hj Hr; cbv zeta.
  - cbn [seq foldl]. split; [exact Hs|]. intros i' j'.
    rewrite bool_decide_eq_false_2 by lia. reflexivity.
  - rewrite seq_S, foldl_app. cbn [foldl].
    destruct (IH cs Hs Hj ltac:(lia)) as [Hs' Hat]. cbv zeta in Hs', Hat.
    split; [apply set2_shape, Hs'|]. intros i' j'.
    rewrite (set2_at size) by (auto; lia). rewrite Hat.
    index_cases.
Qed.

(** Rows [0, rlen) by columns [c0, c0 + clen), row after row. *)
Lemma fill_rows size (g : nat → nat → Cost) c0 clen : ∀ rlen (cs : list (list Cost)),
  shape size cs → rlen ≤ size → c0 + clen ≤ size →
  let cs' := foldl (λ cs i, foldl (λ cs j, set2 cs i j (g i j)) cs (seq c0 clen))
                   cs (seq 0 rlen) in
  shape size cs' ∧
  ∀ i' j', at2 cs' i' j' =
    if bool_decide (i' < rlen ∧ c0 ≤ j' < c0 + clen) then g i' j'
    else at2 cs i' j'.
Proof.
  induction rlen as [|rlen IH]; intros cs Hs Hr Hc; cbv zeta.
  - cbn [seq foldl]. split; [exact Hs|]. intros i' j'.
    rewrite bool_decide_eq_false_2 by lia. reflexivity.
  - rewrite foldl_seq_S.
    destruct (IH cs Hs ltac:(lia) Hc) as [Hs' Hat]. cbv zeta in Hs', Hat.
    destruct (fill_row size (g rlen) rlen c0 clen _ Hs' ltac:(lia) Hc) as [Hs'' Hat'].
    cbv zeta in Hs'', Hat'. split; [exact Hs''|]. intros i' j'.
    rewrite Hat', Hat.
    index_cases.
Qed.

(** Columns [0, clen) by rows [r0, r0 + rlen), column after column. *)
Lemma fill_cols size (g : nat → nat → Cost) r0 rlen : ∀ clen (cs : list (list Cost)),
  shape size cs → clen ≤ size → r0 + rlen ≤ size →
  let cs' := foldl (λ cs j, foldl (λ cs i, set2 cs i j (g i j)) cs (seq r0 rlen))
                   cs (seq 0 clen) in
  shape size cs' ∧
  ∀ i' j', at2 cs' i' j' =
    if bool_decide (j' < clen ∧ r0 ≤ i' < r0 + rlen) then g i' j'
    else at2 cs i' j'.
Proof.
  induction clen as [|clen IH]; intros cs Hs Hc Hr; cbv zeta.
  - cbn [seq foldl]. split; [exact Hs|]. intros i' j'.
    rewrite bool_decide_eq_false_2 by lia. reflexivity.
  - rewrite foldl_seq_S.
    destruct (IH cs Hs ltac:(lia) Hr) as [Hs' Hat]. cbv zeta in Hs', Hat.
    destruct (fill_col size (λ i, g i clen) clen r0 rlen _ Hs' ltac:(lia) Hr)
      as [Hs'' Hat'].
    cbv zeta in Hs'', Hat'. split; [exact Hs''|]. intros i' j'.
    rewrite Hat', Hat.
    index_cases.
Qed.

(** The first loop allocates the rows and fills them with [MinCost]. *)
Lemma fill_min size : ∀ k (cs : list (list Cost)),
  length cs = size → k ≤ size →
  let cs' := foldl (λ cs i,
                 foldl (λ cs j, set2 cs i j (MinCost options))
                       (<[i := replicate size inhabitant]> cs) (seq 0 size))
               cs (seq 0 k) in
  length cs' = size ∧
  ∀ i, i < k → length (cs' !!! i) = size ∧
                ∀ j, j < size → at2 cs' i j = MinCost options.
Proof.
  induction k as [|k IH]; intros cs Hl Hk; cbv zeta.
  - cbn [seq foldl]. split; [exact Hl|]. intros i Hi. lia.
  - rewrite foldl_seq_S.
    destruct (IH cs Hl ltac:(lia)) as [Hl' Hrows]. cbv zeta in Hl', Hrows.
    set (cs1 := foldl _ cs (seq 0 k)) in *.
    (* the loop along row [k] touches that row only *)
    assert (Hrow : ∀ len c, length c = size → length (c !!! k) = size →
              len ≤ size →
              let c' := foldl (λ cs j, set2 cs k j (MinCost options)) c (seq 0 len) in
              length c' = size ∧ length (c' !!! k) = size ∧
              (∀ i, i ≠ k → c' !!! i = c !!! i) ∧
              (∀ j, j < len → at2 c' k j = MinCost options)).
    { induction len as [|len IHl]; intros c Hc Hck Hlen; cbv zeta.
      - cbn [seq foldl]. repeat split; auto. intros j Hj. lia.
      - rewrite foldl_seq_S.
        destruct (IHl c Hc Hck ltac:(lia)) as (L1 & L2 & L3 & L4).
        cbv zeta in L1, L2, L3, L4.
        set (c1 := foldl _ c (seq 0 len)) in *. unfold set2.
        split; [rewrite length_insert; exact L1|].
        split; [rewrite list_lookup_total_insert_eq by lia;
                rewrite length_insert; exact L2|].
        split.
        + intros i Hi. rewrite list_lookup_total_insert_ne by auto. apply L3, Hi.
        + intros j Hj. unfold at2.
          rewrite list_lookup_total_insert_eq by lia.
          destruct (decide (j = len)) as [->|Hne].
          * rewrite list_lookup_total_insert_eq by lia. reflexivity.
          * rewrite list_lookup_total_insert_ne by auto. apply L4. lia. }
    destruct (Hrow size (<[k := replicate size inhabitant]> cs1))
      as (R1 & R2 & R3 & R4).
    { rewrite length_insert. exact Hl'. }
    { rewrite list_lookup_total_insert_eq by lia. apply length_replicate. }
    { lia. }
    cbv zeta in R1, R2, R3, R4.
    split; [exact R1|]. intros i Hi.
    destruct (decide (i = k)) as [->|Hne]; [split; [exact R2 | exact R4]|].
    unfold at2. rewrite R3 by exact Hne.
    rewrite list_lookup_total_insert_ne by auto. apply Hrows. lia.
Qed.

(** The matrix [Assign] builds. *)
Lemma build_costs_spec (sources targets : list any) :
  let n := length sources in
  let m := length targets in
  let size := if bool_decide (n < m) then m else n in
  let costs := build_costs nil options sources targets size in
  shape size costs ∧
  ∀ i j, i < size → j < size →
    at2 costs i j = cell_cost nil options sources targets i j.
Proof.
  intros n m size.
  assert (Hn : n ≤ size) by (unfold size; case_bool_decide; lia).
  assert (Hm : m ≤ size) by (unfold size; case_bool_decide; lia).
  unfold build_costs. cbv zeta. fold n m.
  destruct (fill_min size size (replicate size []) (length_replicate _ _) (le_n _))
    as [L1 R1]. cbv zeta in L1, R1.
  set (c1 := foldl _ (replicate size []) (seq 0 size)) in *.
  assert (S1 : shape size c1) by (split; [exact L1 | intros i Hi; apply R1, Hi]).
  destruct (fill_rows size (λ i j, EditCost options (sources !!! i) (targets !!! j))
              0 m n c1 S1 Hn ltac:(lia)) as [S2 A2]. cbv zeta in S2, A2.
  set (c2 := foldl _ c1 (seq 0 n)) in *.
  destruct (fill_rows size (λ i _, EditCost options (sources !!! i) nil)
              m (size - m) n c2 S2 Hn ltac:(lia)) as [S3 A3]. cbv zeta in S3, A3.
  set (c3 := foldl _ c2 (seq 0 n)) in *.
  destruct (fill_cols size (λ _ j, EditCost options nil (targets !!! j))
              n (size - n) m c3 S3 Hm ltac:(lia)) as [S4 A4]. cbv zeta in S4, A4.
  split; [exact S4|].
  intros i j Hi Hj. rewrite A4, A3, A2. unfold cell_cost. fold n m.
  case_decides; try reflexivity; try (exfalso; lia).
  apply R1; assumption.
Qed.

(** *** From the matching to the pairs *)

Lemma emit_app sources targets costs optimal result j :
  emit nil options sources targets costs optimal result j =
  result ++ pairs_of nil options sources targets costs optimal j.
Proof.
  unfold pairs_of, emit. cbv zeta.
  repeat case_bool_decide; rewrite ?app_nil_l, ?app_nil_r, <- ?app_assoc;
    reflexivity.
Qed.

Lemma emit_loop sources targets costs optimal : ∀ k,
  foldl (emit nil options sources targets costs optimal) [] (seq 0 k) =
  concat (pairs_of nil options sources targets costs optimal <$> seq 0 k).
Proof.
  induction k as [|k IH]; [reflexivity|].
  rewrite foldl_seq_S, IH, emit_app, seq_S, fmap_app, concat_app.
  cbn [fmap list_fmap concat Nat.add]. rewrite app_nil_r. reflexivity.
Qed.

(** What a run of [Assign] that returns is made of. *)
Lemma Assign_inv fuel sources targets result :
  Assign nil options fuel sources targets = Some result →
  let n := length sources in
  let m := length targets in
  let size := if bool_decide (n < m) then m else n in
  let costs := build_costs nil options sources targets size in
  ∃ optimal,
    optimalCost options fuel costs = Some optimal ∧
    optimal ≡ₚ seq 0 size ∧
    result = concat (pairs_of nil options sources targets costs optimal
                       <$> seq 0 size).
Proof.
  unfold Assign. cbv zeta. intros HA.
  destruct (optimalCost options fuel _) as [optimal|] eqn:Hopt; [|discriminate HA].
  injection HA as <-. exists optimal. split; [reflexivity|].
  split; [|apply emit_loop].
  pose proof (optimalCost_perm fuel _ optimal Hopt) as P.
  destruct (build_costs_spec sources targets) as [[Hlen _] _].
  cbv zeta in Hlen. rewrite Hlen in P. exact P.
Qed.

Lemma perm_seq_lookup (l : list nat) size j :
  l ≡ₚ seq 0 size → j < size → l !!! j < size.
Proof.
  intros P Hj.
  assert (Hlen : length l = size) by (rewrite P; apply length_seq).
  assert (Hin : l !!! j ∈ l) by (apply list_elem_of_lookup_total_2; lia).
  apply (elem_of_Permutation_proper _ _ _ P), elem_of_seq in Hin. lia.
Qed.

Lemma fmap_lookup_seq {A B} `{Inhabited A} (f : A → B) (l : list A) :
  (λ j, f (l !!! j)) <$> seq 0 (length l) = f <$> l.
Proof.
  induction l as [|x l IH] using rev_ind; [reflexivity|].
  rewrite length_app. cbn [length]. rewrite Nat.add_1_r, seq_S, !fmap_app.
  cbn [fmap list_fmap Nat.add]. f_equal.
  - rewrite <- IH. apply list_fmap_ext. intros i j Hj.
    apply lookup_seq in Hj as [-> Hj].
    rewrite lookup_total_app_l by lia. reflexivity.
  - rewrite lookup_total_app_r by lia. rewrite Nat.sub_diag. reflexivity.
Qed.

Lemma concat_fmap_perm {A B} (g : A → list B) (l l' : list A) :
  l ≡ₚ l' → concat (g <$> l) ≡ₚ concat (g <$> l').
Proof.
  induction 1 as [|x l l' _ IH|x y l|l l' l'' _ IH1 _ IH2]; cbn.
  - reflexivity.
  - rewrite IH. reflexivity.
  - rewrite !app_assoc. apply Permutation_app_tail, Permutation_app_comm.
  - etrans; eassumption.
Qed.

End Solver.

Section Translation.
Context {any : Type} `{EqDecision any} (nil : any).
Context {Cost : Type} `{CostIface Cost} `{EqDecision Cost} `{Inhabited Cost}.
Context (options : AssignOptions (any:=any) (Cost:=Cost)).

#[local] Instance any_inh' : Inhabited any := populate nil.

Lemma elem_of_concat {A} (x : A) (L : list (list A)) :
  x ∈ concat L → ∃ l, l ∈ L ∧ x ∈ l.
Proof.
  induction L as [|l L IH]; cbn [concat]; [intros Hx; inversion Hx|].
  intros Hx. apply elem_of_app in Hx as [Hx|Hx].
  - exists l. split; [left | exact Hx].
  - destruct (IH Hx) as (l' & Hl' & Hx'). exists l'. split; [right|]; assumption.
Qed.

(** C6: a matched pair of real nodes whose matrix cost is [MaxCost] is
    emitted as a delete pair for the source followed by an insert pair
    for the target, both at that cost, and no pair of the result that
    carries [MaxCost] has both a source and a target. *)
Theorem C6_max_cost_is_split fuel sources targets result :
  Assign nil options fuel sources targets = Some result →
  let n := length sources in
  let m := length targets in
  let size := if bool_decide (n < m) then m else n in
  let costs := build_costs nil options sources targets size in
  ∃ optimal,
    optimalCost options fuel costs = Some optimal ∧
    result = concat (pairs_of nil options sources targets costs optimal
                       <$> seq 0 size) ∧
    (∀ j, optimal !!! j < n → j < m →
       at2 costs (optimal !!! j) j = MaxCost options →
       pairs_of nil options sources targets costs optimal j =
       [mkPair (sources !!! (optimal !!! j)) nil (MaxCost options);
        mkPair nil (targets !!! j) (MaxCost options)]) ∧
    (∀ p, p ∈ result → PairCost p = MaxCost options →
       Source p = nil ∨ Target p = nil).
Proof.
  intros HA n m size costs.
  destruct (Assign_inv nil options fuel sources targets result HA)
    as (optimal & Hopt & _ & Hres).
  fold n m size costs in Hopt, Hres.
  exists optimal. split; [exact Hopt|]. split; [exact Hres|]. split.
  - intros j Hi Hj Hc. unfold pairs_of, emit. cbv zeta. fold n m.
    rewrite bool_decide_eq_true_2 by auto.
    rewrite bool_decide_eq_true_2 by exact Hc. rewrite Hc. reflexivity.
  - intros p Hp Hcost. rewrite Hres in Hp.
    apply elem_of_concat in Hp as (l & Hl & Hp).
    apply list_elem_of_fmap in Hl as (j & -> & _).
    unfold pairs_of, emit in Hp. cbv zeta in Hp. fold n m in Hp.
    repeat case_bool_decide; cbn [app] in Hp;
      repeat (apply elem_of_cons in Hp as [->|Hp]); cbn [Source Target PairCost] in *;
      try (inversion Hp; fail); auto.
    contradiction.
Qed.

(** The pair emitted for a padding row: the code takes the target at the
    row index [i], not at the column index [j]. *)
Lemma insert_pair_target sources targets costs optimal j :
  length sources ≤ optimal !!! j → j < length targets →
  pairs_of nil options sources targets costs optimal j =
  [mkPair nil (targets !!! (optimal !!! j)) (at2 costs (optimal !!! j) j)].
Proof.
  intros Hi Hj. unfold pairs_of, emit. cbv zeta.
  rewrite bool_decide_eq_false_2 by lia.
  rewrite bool_decide_eq_false_2 by lia.
  rewrite bool_decide_eq_true_2 by lia. reflexivity.
Qed.

(** **** Sizes and occurrences *)

#[local] Abbreviation keep := (filter (λ x : any, x ≠ nil)).

Lemma sources_of_pairs sources targets costs optimal j :
  keep (Source <$> pairs_of nil options sources targets costs optimal j) =
  if bool_decide (optimal !!! j < length sources)
  then keep [sources !!! (optimal !!! j)] else [].
Proof.
  unfold pairs_of, emit. cbv zeta.
  repeat case_bool_decide; cbn [app fmap list_fmap Source]; try lia;
    rewrite ?filter_cons, ?filter_nil;
    repeat (destruct (decide _)); try reflexivity; try contradiction.
Qed.

Lemma targets_of_pairs sources targets costs optimal j :
  optimal !!! j < length sources →
  keep (Target <$> pairs_of nil options sources targets costs optimal j) =
  if bool_decide (j < length targets) then keep [targets !!! j] else [].
Proof.
  intros Hi. unfold pairs_of, emit. cbv zeta.
  repeat case_bool_decide; cbn [app fmap list_fmap Target]; try lia;
    rewrite ?filter_cons, ?filter_nil;
    repeat (destruct (decide _)); try reflexivity; try contradiction.
Qed.

Lemma length_pairs sources targets costs optimal j :
  optimal !!! j < length sources ∨ j < length targets →
  length (pairs_of nil options sources targets costs optimal j) =
  if bool_decide (optimal !!! j < length sources ∧ j < length targets ∧
                  at2 costs (optimal !!! j) j = MaxCost options)
  then 2 else 1.
Proof.
  intros Hor. unfold pairs_of, emit. cbv zeta.
  repeat case_bool_decide; cbn [app length]; try reflexivity; try lia; tauto.
Qed.

Lemma keep_concat {B} (f : B → any) (g : nat → list any) (F : nat → list B) l :
  (∀ j, j ∈ l → keep (f <$> F j) = g j) →
  keep (f <$> concat (F <$> l)) = concat (g <$> l).
Proof.
  induction l as [|j l IH]; intros Hg; [reflexivity|].
  cbn [fmap list_fmap concat]. rewrite fmap_app, filter_app.
  rewrite Hg by left. f_equal. apply IH. intros j' Hj'. apply Hg. right. exact Hj'.
Qed.

Lemma concat_keep_singletons (l : list any) :
  concat ((λ x, keep [x]) <$> l) = keep l.
Proof.
  induction l as [|x l IH]; [reflexivity|].
  cbn [fmap list_fmap concat]. rewrite IH.
  rewrite (filter_cons _ x l), (filter_cons _ x []), filter_nil.
  destruct (decide (x ≠ nil)); reflexivity.
Qed.

Lemma concat_prefix_seq (l : list any) size :
  length l ≤ size →
  concat ((λ i, if bool_decide (i < length l) then keep [l !!! i] else [])
            <$> seq 0 size) = keep l.
Proof.
  intros Hle. replace size with (length l + (size - length l)) by lia.
  rewrite seq_app, fmap_app, concat_app. cbn [Nat.add].
  assert (E1 : (λ i, if bool_decide (i < length l) then keep [l !!! i] else [])
                 <$> seq 0 (length l) = (λ x, keep [x]) <$> l).
  { rewrite <- (fmap_lookup_seq (λ x, keep [x]) l).
    apply list_fmap_ext. intros i j Hj. apply lookup_seq in Hj as [-> Hj].
    rewrite bool_decide_eq_true_2 by lia. reflexivity. }
  rewrite E1, concat_keep_singletons.
  assert (E2 : ∀ a len, length l ≤ a →
            concat ((λ i, if bool_decide (i < length l) then keep [l !!! i] else [])
                      <$> seq a len) = []).
  { intros a len. revert a. induction len as [|len IH]; intros a Ha; [reflexivity|].
    cbn [seq fmap list_fmap concat]. rewrite bool_decide_eq_false_2 by lia.
    cbn [app]. apply IH. lia. }
  rewrite E2 by lia. apply app_nil_r.
Qed.

Lemma length_concat_pairs (F : nat → list (Pair (any:=any) (Cost:=Cost)))
    (P : nat → Prop) `{∀ j, Decision (P j)} l :
  (∀ j, j ∈ l → length (F j) = if bool_decide (P j) then 2 else 1) →
  length (concat (F <$> l)) = length l + length (filter P l).
Proof.
  induction l as [|j l IH]; intros HF; [reflexivity|].
  cbn [fmap list_fmap concat]. rewrite length_app, HF by left.
  rewrite IH by (intros j' Hj'; apply HF; right; exact Hj').
  rewrite filter_cons. cbn [length].
  case_bool_decide; destruct (decide (P j)); try contradiction; cbn [length]; lia.
Qed.

(** C5 (amended): the result has [max n m] pairs plus one for every
    matched pair of real nodes at [MaxCost]; every source is the [Source]
    of exactly one pair; and when there are at least as many sources as
    targets every target is the [Target] of exactly one pair. *)
Theorem C5_pairs_cover_nodes fuel sources targets result :
  Assign nil options fuel sources targets = Some result →
  let n := length sources in
  let m := length targets in
  let size := if bool_decide (n < m) then m else n in
  let costs := build_costs nil options sources targets size in
  ∃ optimal,
    optimalCost options fuel costs = Some optimal ∧
    length result =
      n `max` m + length (split_cells options sources targets costs optimal size) ∧
    keep (Source <$> result) ≡ₚ keep sources ∧
    (m ≤ n → keep (Target <$> result) = keep targets).
Proof.
  intros HA n m size costs.
  destruct (Assign_inv nil options fuel sources targets result HA)
    as (optimal & Hopt & Hperm & Hres).
  fold n m size costs in Hopt, Hperm, Hres.
  assert (Hn : n ≤ size) by (unfold size; case_bool_decide; lia).
  assert (Hm : m ≤ size) by (unfold size; case_bool_decide; lia).
  assert (Hsize : size = n `max` m) by (unfold size; case_bool_decide; lia).
  assert (Hlen : length optimal = size) by (rewrite Hperm; apply length_seq).
  exists optimal. split; [exact Hopt|]. split; [|split].
  - rewrite Hres. unfold split_cells.
    rewrite (length_concat_pairs _
               (λ j, optimal !!! j < length sources ∧ j < length targets ∧
                     at2 costs (optimal !!! j) j = MaxCost options)).
    + rewrite length_seq, Hsize. reflexivity.
    + intros j Hj. apply elem_of_seq in Hj. apply length_pairs.
      pose proof (perm_seq_lookup optimal size j Hperm ltac:(lia)) as Hi.
      fold n m. unfold size in Hi, Hj. case_bool_decide; lia.
  - rewrite Hres.
    set (G := λ i : nat, if bool_decide (i < length sources)
                         then keep [sources !!! i] else ([] : list any)).
    rewrite (keep_concat Source (λ j, G (optimal !!! j)))
      by (intros j _; apply sources_of_pairs).
    rewrite <- Hlen, (fmap_lookup_seq G optimal), (concat_fmap_perm G _ _ Hperm).
    unfold G. rewrite concat_prefix_seq by exact Hn. reflexivity.
  - intros Hmn. rewrite Hres.
    rewrite (keep_concat Target
               (λ j, if bool_decide (j < length targets)
                     then keep [targets !!! j] else [])).
    + apply concat_prefix_seq. exact Hm.
    + intros j Hj. apply elem_of_seq in Hj. apply targets_of_pairs.
      pose proof (perm_seq_lookup optimal size j Hperm ltac:(lia)) as Hi.
      fold n. unfold size in Hi. rewrite bool_decide_eq_false_2 in Hi by lia.
      exact Hi.
Qed.

End Translation.

(** *** The solver on costs read as integers *)

Section Duals.
Context {any : Type} {Cost : Type} `{CostIface Cost} `{Inhabited Cost}.
Context (options : AssignOptions (any:=any) (Cost:=Cost)).
Context (val : Cost → Z) (HM : cost_model options val).
Implicit Types (s : solver (Cost:=Cost)) (costs : list (list Cost)).

Local Open Scope Z_scope.

Lemma Less_lt a b : Less a b = true ↔ val a < val b.
Proof. rewrite (val_less _ _ HM). apply bool_decide_eq_true. Qed.

Lemma Less_ge a b : Less a b = false ↔ val b ≤ val a.
Proof. rewrite (val_less _ _ HM), bool_decide_eq_false. lia. Qed.

(** The scan for the edge of minimum slack, entry by entry. *)
Lemma scan_spec costs s cur cs n ms tr delta0 nxt0 :
  length ms = S n → length tr = S n →
  ∀ k ms' tr' delta nxt, (k ≤ n)%nat →
  foldl (scan_step options costs s cur cs) (ms, tr, delta0, nxt0) (seq 0 k)
    = (ms', tr', delta, nxt) →
  let sl j := val (at2 costs cs j) - val (sourceCost s !!! cs)
              - val (targetCost s !!! j) in
  length ms' = S n ∧ length tr' = S n ∧
  (∀ j, (k ≤ j)%nat ∨ visitedTarget s !!! j = true →
        ms' !!! j = ms !!! j ∧ tr' !!! j = tr !!! j) ∧
  (∀ j, (j < k)%nat → visitedTarget s !!! j = false →
        val (ms' !!! j) = val (ms !!! j) `min` sl j ∧
        tr' !!! j = if bool_decide (sl j < val (ms !!! j)) then cur
                    else tr !!! j) ∧
  val delta ≤ val delta0 ∧
  (∀ j, (j < k)%nat → visitedTarget s !!! j = false →
        val delta ≤ val (ms' !!! j)) ∧
  ((delta = delta0 ∧ nxt = nxt0) ∨
   ((nxt < k)%nat ∧ visitedTarget s !!! nxt = false ∧
    val delta = val (ms' !!! nxt))).
Proof.
  intros Hms Htr. induction k as [|k IH]; intros ms' tr' delta nxt Hk Hf sl.
  - cbn in Hf. injection Hf as <- <- <- <-.
    split; [exact Hms|]. split; [exact Htr|]. split; [auto|].
    split; [intros j Hj; lia|]. split; [lia|]. split; [intros j Hj; lia|].
    left. auto.
  - rewrite foldl_seq_S in Hf.
    destruct (foldl (scan_step options costs s cur cs) (ms, tr, delta0, nxt0) (seq 0 k))
      as [[[ms1 tr1] d1] n1] eqn:E.
    destruct (IH ms1 tr1 d1 n1 ltac:(lia) eq_refl)
      as (L1 & L2 & Hsame & Hnew & Hd0 & Hdmin & Hnext).
    fold sl in Hnew. unfold scan_step in Hf.
    destruct (visitedTarget s !!! k : bool) eqn:Hvis.
    { injection Hf as <- <- <- <-.
      split; [exact L1|]. split; [exact L2|]. split; [|split; [|split; [|split]]].
      - intros j [Hj|Hj]; apply Hsame; [left; lia | right; exact Hj].
      - intros j Hj Hv. destruct (decide (j = k)) as [->|Hne]; [congruence|].
        apply Hnew; [lia | exact Hv].
      - exact Hd0.
      - intros j Hj Hv. destruct (decide (j = k)) as [->|Hne]; [congruence|].
        apply Hdmin; [lia | exact Hv].
      - destruct Hnext as [Hn|(Hn1 & Hn2 & Hn3)]; [left; exact Hn|].
        right. split; [lia|]. split; assumption. }
    destruct (Hsame k (or_introl (le_n k))) as [Hmsk Htrk].
    set (cur_slack := SubCost options
           (SubCost options (at2 costs cs k) (sourceCost s !!! cs))
           (targetCost s !!! k)) in Hf.
    assert (Hcs : val cur_slack = sl k).
    { unfold cur_slack, sl. rewrite !(val_sub _ _ HM). reflexivity. }
    (* the entry of [k] after the first test *)
    destruct (Less cur_slack (ms1 !!! k)) eqn:Hless.
    + apply Less_lt in Hless. rewrite Hcs, Hmsk in Hless.
      assert (Hk1 : <[k := cur_slack]> ms1 !!! k = cur_slack)
        by (apply list_lookup_total_insert_eq; lia).
      rewrite Hk1 in Hf.
      assert (Hmin : val cur_slack = val (ms !!! k) `min` sl k) by lia.
      assert (Hcommon :
        length (<[k := cur_slack]> ms1) = S n ∧
        length (<[k := cur]> tr1) = S n ∧
        (∀ j, (S k ≤ j)%nat ∨ visitedTarget s !!! j = true →
           <[k := cur_slack]> ms1 !!! j = ms !!! j ∧
           <[k := cur]> tr1 !!! j = tr !!! j) ∧
        (∀ j, (j < S k)%nat → visitedTarget s !!! j = false →
           val (<[k := cur_slack]> ms1 !!! j) = val (ms !!! j) `min` sl j ∧
           <[k := cur]> tr1 !!! j =
             if bool_decide (sl j < val (ms !!! j)) then cur else tr !!! j)).
      { rewrite !length_insert. split; [exact L1|]. split; [exact L2|]. split.
        - intros j Hj. assert (j ≠ k) by (destruct Hj; [lia|congruence]).
          rewrite !list_lookup_total_insert_ne by auto.
          apply Hsame. destruct Hj; [left; lia | right; assumption].
        - intros j Hj Hv. destruct (decide (j = k)) as [->|Hne].
          + rewrite Hk1, list_lookup_total_insert_eq by lia.
            rewrite bool_decide_eq_true_2 by exact Hless. auto.
          + rewrite !list_lookup_total_insert_ne by auto.
            apply Hnew; [lia | exact Hv]. }
      destruct Hcommon as (C1 & C2 & C3 & C4).
      destruct (Less cur_slack d1) eqn:Hless2; injection Hf as <- <- <- <-.
      * apply Less_lt in Hless2.
        split; [exact C1|]. split; [exact C2|]. split; [exact C3|].
        split; [exact C4|]. split; [lia|]. split.
        -- intros j Hj Hv. destruct (decide (j = k)) as [->|Hne].
           ++ rewrite Hk1. lia.
           ++ rewrite list_lookup_total_insert_ne by auto.
              specialize (Hdmin j ltac:(lia) Hv). lia.
        -- right. split; [lia|]. split; [exact Hvis|]. rewrite Hk1. reflexivity.
      * apply Less_ge in Hless2.
        split; [exact C1|]. split; [exact C2|]. split; [exact C3|].
        split; [exact C4|]. split; [exact Hd0|]. split.
        -- intros j Hj Hv. destruct (decide (j = k)) as [->|Hne].
           ++ rewrite Hk1. lia.
           ++ rewrite list_lookup_total_insert_ne by auto.
              apply Hdmin; [lia | exact Hv].
        -- destruct Hnext as [Hn|(Hn1 & Hn2 & Hn3)]; [left; exact Hn|].
           right. split; [lia|]. split; [exact Hn2|].
           rewrite list_lookup_total_insert_ne by lia. exact Hn3.
    + apply Less_ge in Hless. rewrite Hcs, Hmsk in Hless.
      assert (Hmin : val (ms1 !!! k) = val (ms !!! k) `min` sl k)
        by (rewrite Hmsk; lia).
      assert (Hcommon :
        (∀ j, (S k ≤ j)%nat ∨ visitedTarget s !!! j = true →
           ms1 !!! j = ms !!! j ∧ tr1 !!! j = tr !!! j) ∧
        (∀ j, (j < S k)%nat → visitedTarget s !!! j = false →
           val (ms1 !!! j) = val (ms !!! j) `min` sl j ∧
           tr1 !!! j =
             if bool_decide (sl j < val (ms !!! j)) then cur else tr !!! j)).
      { split.
        - intros j Hj. apply Hsame. destruct Hj; [left; lia | right; assumption].
        - intros j Hj Hv. destruct (decide (j = k)) as [->|Hne].
          + rewrite bool_decide_eq_false_2 by lia. auto.
          + apply Hnew; [lia | exact Hv]. }
      destruct Hcommon as (C3 & C4).
      destruct (Less (ms1 !!! k) d1) eqn:Hless2; injection Hf as <- <- <- <-.
      * apply Less_lt in Hless2.
        split; [exact L1|]. split; [exact L2|]. split; [exact C3|].
        split; [exact C4|]. split; [lia|]. split.
        -- intros j Hj Hv. destruct (decide (j = k)) as [->|Hne]; [lia|].
           specialize (Hdmin j ltac:(lia) Hv). lia.
        -- right. split; [lia|]. split; [exact Hvis|]. reflexivity.
      * apply Less_ge in Hless2.
        split; [exact L1|]. split; [exact L2|]. split; [exact C3|].
        split; [exact C4|]. split; [exact Hd0|]. split.
        -- intros j Hj Hv. destruct (decide (j = k)) as [->|Hne]; [lia|].
           apply Hdmin; [lia | exact Hv].
        -- destruct Hnext as [Hn|(Hn1 & Hn2 & Hn3)]; [left; exact Hn|].
           right. split; [lia|]. split; assumption.
Qed.

(** The update of the potentials and of the recorded slacks, entry by
    entry.  Distinct visited targets have distinct sources, so each source
    of the tree is raised once. *)
Lemma update_spec s delta n sc tc ms :
  length sc = S n → length tc = S n → length ms = S n →
  ∀ k sc' tc' ms', (k ≤ S n)%nat →
  (∀ j, (j < k)%nat → visitedTarget s !!! j = true →
        (targetSource s !!! j ≤ n)%nat) →
  (∀ j1 j2, (j1 < k)%nat → (j2 < k)%nat →
        visitedTarget s !!! j1 = true → visitedTarget s !!! j2 = true →
        targetSource s !!! j1 = targetSource s !!! j2 → j1 = j2) →
  foldl (update_step options s delta) (sc, tc, ms) (seq 0 k) = (sc', tc', ms') →
  length sc' = S n ∧ length tc' = S n ∧ length ms' = S n ∧
  (∀ j, tc' !!! j =
        if bool_decide ((j < k)%nat ∧ visitedTarget s !!! j = true)
        then SubCost options (tc !!! j) delta else tc !!! j) ∧
  (∀ j, ms' !!! j =
        if bool_decide ((j < k)%nat ∧ visitedTarget s !!! j = false)
        then SubCost options (ms !!! j) delta else ms !!! j) ∧
  (∀ i, (i ≤ n)%nat →
        (∃ j, (j < k)%nat ∧ visitedTarget s !!! j = true ∧
              targetSource s !!! j = i) →
        val (sc' !!! i) = val (sc !!! i) + val delta) ∧
  (∀ i, (i ≤ n)%nat →
        ¬ (∃ j, (j < k)%nat ∧ visitedTarget s !!! j = true ∧
                targetSource s !!! j = i) →
        sc' !!! i = sc !!! i).
Proof.
  intros Hsc Htc Hms. induction k as [|k IH];
    intros sc' tc' ms' Hk Hrange Hinj Hf.
  - cbn in Hf. injection Hf as <- <- <-.
    split; [exact Hsc|]. split; [exact Htc|]. split; [exact Hms|].
    split; [|split; [|split]].
    + intros j. rewrite bool_decide_eq_false_2 by lia. reflexivity.
    + intros j. rewrite bool_decide_eq_false_2 by lia. reflexivity.
    + intros i _ (j & Hj & _). lia.
    + reflexivity.
  - rewrite foldl_seq_S in Hf.
    destruct (foldl (update_step options s delta) (sc, tc, ms) (seq 0 k))
      as [[sc1 tc1] ms1] eqn:E.
    destruct (IH sc1 tc1 ms1 ltac:(lia)
                (λ j Hj, Hrange j ltac:(lia))
                (λ j1 j2 H1 H2, Hinj j1 j2 ltac:(lia) ltac:(lia)) eq_refl)
      as (L1 & L2 & L3 & Htc1 & Hms1 & Hin & Hout).
    unfold update_step in Hf.
    destruct (visitedTarget s !!! k : bool) eqn:Hvis; injection Hf as <- <- <-.
    + pose proof (Hrange k ltac:(lia) Hvis) as Hik.
      rewrite !length_insert.
      split; [exact L1|]. split; [exact L2|]. split; [exact L3|].
      split; [|split; [|split]].
      * intros j. destruct (decide (j = k)) as [->|Hne].
        -- rewrite list_lookup_total_insert_eq by lia.
           rewrite bool_decide_eq_true_2 by (split; [lia | exact Hvis]).
           rewrite Htc1, bool_decide_eq_false_2 by lia. reflexivity.
        -- rewrite list_lookup_total_insert_ne by auto. rewrite Htc1.
           mixed_cases.
      * intros j. rewrite Hms1.
        destruct (decide (j = k)) as [->|Hne].
        -- rewrite !bool_decide_eq_false_2; [reflexivity| |];
             intros [? ?]; [congruence | lia].
        -- mixed_cases.
      * intros i Hi (j & Hj & Hvj & Hts).
        destruct (decide (i = targetSource s !!! k)) as [->|Hne].
        -- rewrite list_lookup_total_insert_eq by lia.
           rewrite (val_add _ _ HM). f_equal. f_equal. apply Hout; [exact Hik|].
           intros (j' & Hj' & Hv' & Hts').
           assert (j' = k) by (apply Hinj; auto; lia). lia.
        -- rewrite list_lookup_total_insert_ne by auto.
           apply Hin; [exact Hi|]. exists j. split; [|auto].
           destruct (decide (j = k)) as [->|]; [congruence | lia].
      * intros i Hi Hno.
        destruct (decide (i = targetSource s !!! k)) as [->|Hne].
        -- exfalso. apply Hno. exists k. auto.
        -- rewrite list_lookup_total_insert_ne by auto.
           apply Hout; [exact Hi|]. intros (j & Hj & Hvj & Hts).
           apply Hno. exists j. split; [lia | auto].
    + rewrite !length_insert.
      split; [exact L1|]. split; [exact L2|]. split; [exact L3|].
      split; [|split; [|split]].
      * intros j. rewrite Htc1.
        destruct (decide (j = k)) as [->|Hne].
        -- rewrite !bool_decide_eq_false_2; [reflexivity| |];
             intros [? ?]; [congruence | lia].
        -- mixed_cases.
      * intros j. destruct (decide (j = k)) as [->|Hne].
        -- rewrite list_lookup_total_insert_eq by lia.
           rewrite bool_decide_eq_true_2 by (split; [lia | exact Hvis]).
           rewrite Hms1, bool_decide_eq_false_2 by lia. reflexivity.
        -- rewrite list_lookup_total_insert_ne by auto. rewrite Hms1.
           mixed_cases.
      * intros i Hi (j & Hj & Hvj & Hts).
        apply Hin; [exact Hi|]. exists j. split; [|auto].
        destruct (decide (j = k)) as [->|]; [congruence | lia].
      * intros i Hi Hno. apply Hout; [exact Hi|].
        intros (j & Hj & Hvj & Hts). apply Hno. exists j. split; [lia | auto].
Qed.

(** One iteration of the loop, read on the views. *)
Lemma grow_step_astep costs n s cur s' nxt :
  wf n s → (cur ≤ n)%nat →
  (∀ j, (j ≤ n)%nat → mark (view_of val s) cur j = true →
        (targetSource s !!! j ≤ n)%nat) →
  (∀ j1 j2, (j1 ≤ n)%nat → (j2 ≤ n)%nat →
        mark (view_of val s) cur j1 = true →
        mark (view_of val s) cur j2 = true →
        targetSource s !!! j1 = targetSource s !!! j2 → j1 = j2) →
  grow_step options costs n s cur = (s', nxt) →
  ∃ d, astep n (λ i j, val (at2 costs i j)) (val (MaxCost options))
             (view_of val s) cur (view_of val s') nxt d.
Proof.
  intros (Hsc & Htc & Hts & Hms & Htr & Hvis) Hcur Hrange Hinj Hg.
  unfold grow_step in Hg.
  cbn [sourceCost targetCost targetSource minSlack targetTrail visitedTarget] in Hg.
  set (s1 := {| sourceCost := sourceCost s; targetCost := targetCost s;
                targetSource := targetSource s; minSlack := minSlack s;
                targetTrail := targetTrail s;
                visitedTarget := <[cur := true]> (visitedTarget s) |}) in Hg.
  assert (Hmark : ∀ j, visitedTarget s1 !!! j = mark (view_of val s) cur j).
  { intros j. unfold s1, mark. cbn [visitedTarget vvis view_of].
    case_bool_decide as Hj.
    - subst j. apply list_lookup_total_insert_eq. lia.
    - apply list_lookup_total_insert_ne. auto. }
  destruct (foldl (scan_step options costs s1 cur (targetSource s !!! cur))
              (minSlack s, targetTrail s, MaxCost options, 0%nat) (seq 0 n))
    as [[[ms1 tr1] delta] nx] eqn:Escan.
  destruct (scan_spec costs s1 cur (targetSource s !!! cur) n _ _ _ _ Hms Htr
              n ms1 tr1 delta nx (le_n n) Escan)
    as (S1 & S2 & Ssame & Snew & Sd0 & Sdmin & Snext).
  assert (Snew' : ∀ j, (j < n)%nat → visitedTarget s1 !!! j = false →
            val (ms1 !!! j) =
              val (minSlack s !!! j) `min`
                (val (at2 costs (targetSource s !!! cur) j)
                 - val (sourceCost s !!! (targetSource s !!! cur))
                 - val (targetCost s !!! j)) ∧
            tr1 !!! j =
              if bool_decide (val (at2 costs (targetSource s !!! cur) j)
                              - val (sourceCost s !!! (targetSource s !!! cur))
                              - val (targetCost s !!! j)
                              < val (minSlack s !!! j))
              then cur else targetTrail s !!! j) by exact Snew.
  clear Snew.
  destruct (foldl (update_step options s1 delta)
              (sourceCost s, targetCost s, ms1) (seq 0 (n + 1)))
    as [[sc' tc'] ms'] eqn:Eup.
  replace (n + 1)%nat with (S n) in Eup by lia.
  destruct (update_spec s1 delta n _ _ _ Hsc Htc S1 (S n) sc' tc' ms' (le_n _))
    as (U1 & U2 & U3 & Utc & Ums & Uin & Uout).
  { intros j Hj Hv. rewrite Hmark in Hv. apply Hrange; [lia | exact Hv]. }
  { intros j1 j2 H1 H2 V1 V2 E. rewrite Hmark in V1, V2.
    apply Hinj; auto; lia. }
  { exact Eup. }
  injection Hg as <- <-. exists (val delta).
  split; cbn [vu vv vms vts vtr vvis view_of sourceCost targetCost targetSource
              minSlack targetTrail visitedTarget]; unfold slack;
    cbn [vu vv vms vts vtr vvis view_of].
  - reflexivity.
  - intros j Hj. apply Hmark.
  - intros j Hj Hm. rewrite <- Hmark in Hm. rewrite Ums.
    rewrite bool_decide_eq_true_2 by (split; [lia | exact Hm]).
    rewrite (val_sub _ _ HM). f_equal.
    apply (Snew' j Hj Hm).
  - intros j Hj Hm. rewrite <- Hmark in Hm. apply (Snew' j Hj Hm).
  - intros j Hj Hor. apply Ssame.
    destruct Hor as [Hm | ->]; [right; rewrite Hmark; exact Hm | left; lia].
  - exact Sd0.
  - intros j Hj Hm. rewrite <- Hmark in Hm.
    rewrite <- (proj1 (Snew' j Hj Hm)). apply (Sdmin j Hj Hm).
  - destruct Snext as [[-> ->]|(N1 & N2 & N3)]; [left; auto|].
    right. split; [exact N1|]. split; [rewrite <- Hmark; exact N2|].
    rewrite N3. apply (Snew' nx N1 N2).
  - intros i Hi (q & Hq & Hm & Hq'). apply Uin; [exact Hi|].
    exists q. rewrite Hmark. split; [lia | auto].
  - intros i Hi Hno. f_equal. apply Uout; [exact Hi|].
    intros (q & Hq & Hm & Hq'). apply Hno. exists q.
    rewrite Hmark in Hm. split; [lia | auto].
  - intros j Hj. rewrite Utc, <- Hmark.
    destruct (visitedTarget s1 !!! j) eqn:Hv.
    + rewrite bool_decide_eq_true_2 by (split; [lia | reflexivity]).
      apply (val_sub _ _ HM).
    + rewrite bool_decide_eq_false_2 by (intros [_ ?]; discriminate). lia.
Qed.

End Duals.

(** *** One iteration keeps the invariant of the tree *)

(** **** Counting the targets still to visit *)

Lemma unvisited_ext (f g : nat → bool) (l : list nat) :
  (∀ j, j ∈ l → f j = g j) →
  length (filter (λ j, f j = false) l) = length (filter (λ j, g j = false) l).
Proof.
  induction l as [|x l IH]; intros Hfg; [reflexivity|].
  rewrite !filter_cons. rewrite (Hfg x) by left.
  assert (IH' := IH (λ j Hj, Hfg j (list_elem_of_further _ _ _ Hj))).
  destruct (decide (g x = false)); cbn [length]; lia.
Qed.

Lemma unvisited_mark (f g : nat → bool) (p : nat) (l : list nat) :
  NoDup l → p ∈ l → f p = false → g p = true →
  (∀ j, j ∈ l → j ≠ p → g j = f j) →
  (length (filter (λ j, g j = false) l) + 1 =
   length (filter (λ j, f j = false) l))%nat.
Proof.
  induction l as [|x l IH]; intros Hnd Hin Hf Hg Hfg.
  { apply elem_of_nil in Hin. contradiction. }
  apply NoDup_cons in Hnd as [Hx Hnd].
  rewrite !filter_cons.
  destruct (decide (x = p)) as [->|Hne].
  - rewrite Hf, Hg.
    destruct (decide (true = false)) as [Hc|_]; [discriminate Hc|].
    destruct (decide (false = false)) as [_|Hc]; [|contradiction].
    cbn [length].
    rewrite (unvisited_ext g f l); [lia|].
    intros j Hj. apply Hfg; [right; exact Hj|].
    intros ->. contradiction.
  - apply elem_of_cons in Hin as [Hin|Hin]; [congruence|].
    rewrite (Hfg x) by (auto; left).
    assert (IH' := IH Hnd Hin Hf Hg
                      (λ j Hj, Hfg j (list_elem_of_further _ _ _ Hj))).
    destruct (decide (f x = false)); cbn [length]; lia.
Qed.

Section Good.
Context (n : nat) (c : nat → nat → Z) (b : view).
Context (Htrail : ∀ j, j ≤ n →
           vtr b j ≤ n ∧ (vtr b j = n ∨ vvis b (vtr b j) = true)).

(** The targets on the trail of a visited target are visited. *)
Lemma tpath_visited : ∀ L p,
  tpath n (vtr b) L p → Forall (λ x, x < n ∧ tight c b x) L →
  p = n ∨ vvis b p = true →
  Forall (λ x, vvis b x = true) L.
Proof.
  induction 1 as [|p L Hne Hp IH]; intros Hall Hv; [constructor|].
  apply Forall_cons in Hall as [[Hpn _] Hall].
  destruct Hv as [?|Hv]; [contradiction|].
  constructor; [exact Hv|]. apply IH; [exact Hall|].
  apply (Htrail p). lia.
Qed.

(** A target not visited yet whose trail edge is tight extends the trail
    of its predecessor. *)
Lemma good_cons j :
  j < n → vvis b j = false → tight c b j → good n c b (vtr b j) →
  good n c b j.
Proof.
  intros Hj Hv Ht (L & Hp & Hnd & Hall).
  exists (j :: L). split; [|split].
  - apply tpath_next; [lia | exact Hp].
  - apply NoDup_cons. split; [|exact Hnd].
    intros Hin.
    pose proof (tpath_visited L _ Hp Hall (proj2 (Htrail j ltac:(lia)))) as Hvis.
    rewrite Forall_forall in Hvis. specialize (Hvis j Hin). congruence.
  - constructor; [split; assumption | exact Hall].
Qed.

Lemma good_root : good n c b n.
Proof. exists []. split; [constructor|]. split; constructor. Qed.

End Good.

Section Step.
Context (n r : nat) (c : nat → nat → Z) (M : Z).
Context (a a' : view) (cur nxt : nat) (d : Z).
Context (I : tree_inv n r c M a cur).
Context (Hgo : vts a cur ≠ n).
Context (St : astep n c M a cur a' nxt d).

Local Open Scope Z_scope.

Let D := ti_duals _ _ _ _ _ _ I.

Lemma n_pos : (0 < n)%nat.
Proof. pose proof (du_root _ _ _ _ _ D). lia. Qed.

Lemma M_nonneg : 0 ≤ M.
Proof.
  pose proof n_pos. pose proof (du_cost _ _ _ _ _ D 0%nat 0%nat). lia.
Qed.

Lemma mark_true_iff j : mark a cur j = true ↔ j = cur ∨ vvis a j = true.
Proof.
  unfold mark. case_bool_decide; [tauto|].
  split; [auto | intros [?|?]; congruence].
Qed.

Lemma mark_false_iff j : mark a cur j = false ↔ j ≠ cur ∧ vvis a j = false.
Proof.
  unfold mark. case_bool_decide; [split; [discriminate | tauto]|].
  tauto.
Qed.

Lemma mark_root : mark a cur n = true.
Proof.
  apply mark_true_iff. destruct (decide (n = cur)) as [|Hne]; [auto|].
  right. apply (ti_vis_root _ _ _ _ _ _ I). auto.
Qed.

(** The source matched with a marked target is a real source, at most
    [r]. *)
Lemma marked_source q :
  (q ≤ n)%nat → mark a cur q = true → (vts a q ≤ r)%nat ∧ vts a q ≠ n.
Proof.
  intros Hq Hm. pose proof (du_root _ _ _ _ _ D) as Hr.
  destruct (decide (q = n)) as [->|Hne].
  { rewrite (ti_root _ _ _ _ _ _ I). lia. }
  assert (Hqn : (q < n)%nat) by lia.
  assert (Hts : vts a q ≠ n).
  { apply mark_true_iff in Hm as [->|Hv]; [exact Hgo|].
    apply (ti_vis_matched _ _ _ _ _ _ I q Hqn Hv). }
  destruct (du_ts_le _ _ _ _ _ D q Hqn); [contradiction | lia].
Qed.

Lemma marked_range j :
  (j ≤ n)%nat → mark a cur j = true → (vts a j ≤ n)%nat.
Proof.
  intros Hj Hm. destruct (marked_source j Hj Hm) as [Hle _].
  pose proof (du_root _ _ _ _ _ D). lia.
Qed.

Lemma marked_inj j1 j2 :
  (j1 ≤ n)%nat → (j2 ≤ n)%nat →
  mark a cur j1 = true → mark a cur j2 = true →
  vts a j1 = vts a j2 → j1 = j2.
Proof.
  intros H1 H2 Hm1 Hm2 Heq.
  destruct (marked_source j1 H1 Hm1) as [_ Hn1].
  pose proof (ti_root _ _ _ _ _ _ I) as Hroot.
  assert (Hlow : ∀ j, (j < n)%nat → vts a j ≠ r).
  { intros j Hj Hr. destruct (du_ts_le _ _ _ _ _ D j Hj) as [Hn|Hlt]; [|lia].
    pose proof (du_root _ _ _ _ _ D). lia. }
  destruct (decide (j1 = n)) as [E1|N1], (decide (j2 = n)) as [E2|N2].
  - congruence.
  - exfalso. apply (Hlow j2); [lia | congruence].
  - exfalso. apply (Hlow j1); [lia | congruence].
  - apply (du_ts_inj _ _ _ _ _ D); [lia | lia | exact Heq | exact Hn1].
Qed.

Lemma cs_lt : (vts a cur < n)%nat.
Proof.
  pose proof (du_root _ _ _ _ _ D).
  destruct (marked_source cur (ti_cur _ _ _ _ _ _ I)) as [H1 _]; [|lia].
  apply mark_true_iff. auto.
Qed.

Lemma sl_nonneg j : (j < n)%nat → 0 ≤ slack c a (vts a cur) j.
Proof.
  intros Hj. unfold slack.
  pose proof (du_feas _ _ _ _ _ D _ j cs_lt Hj). lia.
Qed.

Lemma d_nonneg : 0 ≤ d.
Proof.
  destruct (as_next _ _ _ _ _ _ _ _ St) as [[-> _]|(Hn & Hm & ->)];
    [apply M_nonneg|].
  apply mark_false_iff in Hm as [_ Hv].
  pose proof (ti_ms_range _ _ _ _ _ _ I nxt Hn Hv).
  pose proof (sl_nonneg nxt Hn). lia.
Qed.

Lemma in_tree_marked q :
  (q ≤ n)%nat → mark a cur q = true → in_tree n a cur (vts a q).
Proof. intros Hq Hm. exists q. auto. Qed.

Lemma in_tree_root : in_tree n a cur r.
Proof.
  rewrite <- (ti_root _ _ _ _ _ _ I). apply in_tree_marked; [lia|].
  apply mark_root.
Qed.

Lemma in_tree_matched j :
  (j < n)%nat → vts a j ≠ n →
  in_tree n a cur (vts a j) → mark a cur j = true.
Proof.
  intros Hj Hts (q & Hq & Hm & Hqj).
  destruct (decide (q = n)) as [->|Hne].
  - rewrite (ti_root _ _ _ _ _ _ I) in Hqj.
    destruct (du_ts_le _ _ _ _ _ D j Hj); [contradiction | lia].
  - assert (q = j); [|subst; exact Hm].
    apply (du_ts_inj _ _ _ _ _ D); [lia | exact Hj | exact Hqj | congruence].
Qed.

Lemma in_tree_dec i : (i ≤ n)%nat → in_tree n a cur i ∨ ¬ in_tree n a cur i.
Proof.
  intros Hi. pose proof (du_root _ _ _ _ _ D) as Hr.
  destruct (decide (i = r)) as [->|Hne]; [left; apply in_tree_root|].
  destruct (decide (i < r)%nat) as [Hlt|Hge].
  - destruct (du_ts_surj _ _ _ _ _ D i Hlt) as (j & Hj & <-).
    destruct (mark a cur j) eqn:Hm.
    + left. apply in_tree_marked; [lia | exact Hm].
    + right. intros Hin. apply in_tree_matched in Hin; [congruence | exact Hj | lia].
  - right. intros (q & Hq & Hm & Hqi).
    destruct (marked_source q Hq Hm). lia.
Qed.

Lemma u_root_step : vu a' r = vu a r + d.
Proof.
  pose proof (du_root _ _ _ _ _ D).
  apply (as_u_in _ _ _ _ _ _ _ _ St); [lia | apply in_tree_root].
Qed.

Lemma u_marked_step q :
  (q ≤ n)%nat → mark a cur q = true → vu a' (vts a q) = vu a (vts a q) + d.
Proof.
  intros Hq Hm. pose proof (du_root _ _ _ _ _ D).
  destruct (marked_source q Hq Hm).
  apply (as_u_in _ _ _ _ _ _ _ _ St); [lia | apply in_tree_marked; assumption].
Qed.

Lemma v_marked_step j :
  (j ≤ n)%nat → mark a cur j = true → vv a' j = vv a j - d.
Proof. intros Hj Hm. rewrite (as_v _ _ _ _ _ _ _ _ St j Hj), Hm. reflexivity. Qed.

Lemma v_unmarked_step j :
  (j ≤ n)%nat → mark a cur j = false → vv a' j = vv a j.
Proof. intros Hj Hm. rewrite (as_v _ _ _ _ _ _ _ _ St j Hj), Hm. lia. Qed.

(** The slack of an edge between two marked nodes does not move. *)
Lemma slack_marked q j :
  (q ≤ n)%nat → mark a cur q = true → (j ≤ n)%nat → mark a cur j = true →
  slack c a' (vts a q) j = slack c a (vts a q) j.
Proof.
  intros Hq Hmq Hj Hmj. unfold slack.
  rewrite (u_marked_step q Hq Hmq), (v_marked_step j Hj Hmj). lia.
Qed.

(** The slack of an edge from the tree to an unmarked target drops by
    [d]. *)
Lemma slack_out q j :
  (q ≤ n)%nat → mark a cur q = true → (j ≤ n)%nat → mark a cur j = false →
  slack c a' (vts a q) j = slack c a (vts a q) j - d.
Proof.
  intros Hq Hmq Hj Hmj. unfold slack.
  rewrite (u_marked_step q Hq Hmq), (v_unmarked_step j Hj Hmj). lia.
Qed.

(** The recorded slack is a lower bound of the slack from every marked
    target's source once the current source has been scanned. *)
Lemma min_low q j :
  (j < n)%nat → mark a cur j = false → (q ≤ n)%nat → mark a cur q = true →
  vms a j `min` slack c a (vts a cur) j ≤ slack c a (vts a q) j.
Proof.
  intros Hj Hmj Hq Hmq. apply mark_false_iff in Hmj as [_ Hvj].
  apply mark_true_iff in Hmq as [->|Hvq]; [lia|].
  pose proof (ti_ms_low _ _ _ _ _ _ I j q Hj Hvj Hq Hvq). lia.
Qed.

Lemma step_duals : duals n r c M a'.
Proof.
  pose proof (du_root _ _ _ _ _ D) as Hr.
  pose proof d_nonneg as Hd.
  assert (Hts : ∀ j, (j ≤ n)%nat → vts a' j = vts a j)
    by apply (as_ts _ _ _ _ _ _ _ _ St).
  split.
  - exact Hr.
  - apply (du_cost _ _ _ _ _ D).
  - intros j Hj. rewrite Hts by lia. apply (du_ts_le _ _ _ _ _ D j Hj).
  - intros j1 j2 H1 H2. rewrite !Hts by lia. apply (du_ts_inj _ _ _ _ _ D); auto.
  - intros i Hi. destruct (du_ts_surj _ _ _ _ _ D i Hi) as (j & Hj & E).
    exists j. rewrite Hts by lia. auto.
  - destruct (du_free _ _ _ _ _ D) as (j & Hj & E).
    exists j. rewrite Hts by lia. auto.
  - intros i j Hi Hj.
    pose proof (du_feas _ _ _ _ _ D i j Hi Hj) as Hf.
    destruct (mark a cur j) eqn:Hmj.
    + rewrite (v_marked_step j ltac:(lia) Hmj).
      destruct (in_tree_dec i ltac:(lia)) as [Hin|Hout].
      * rewrite (as_u_in _ _ _ _ _ _ _ _ St i ltac:(lia) Hin). lia.
      * rewrite (as_u_out _ _ _ _ _ _ _ _ St i ltac:(lia) Hout). lia.
    + rewrite (v_unmarked_step j ltac:(lia) Hmj).
      destruct (in_tree_dec i ltac:(lia)) as [Hin|Hout].
      * rewrite (as_u_in _ _ _ _ _ _ _ _ St i ltac:(lia) Hin).
        destruct Hin as (q & Hq & Hmq & <-).
        pose proof (min_low q j Hj Hmj Hq Hmq) as Hlow.
        pose proof (as_d_min _ _ _ _ _ _ _ _ St j Hj Hmj).
        unfold slack in Hlow at 2. lia.
      * rewrite (as_u_out _ _ _ _ _ _ _ _ St i ltac:(lia) Hout). lia.
  - intros j Hj. rewrite !Hts by lia. intros Hm.
    pose proof (du_tight _ _ _ _ _ D j Hj Hm) as Ht.
    destruct (mark a cur j) eqn:Hmj.
    + rewrite (u_marked_step j ltac:(lia) Hmj), (v_marked_step j ltac:(lia) Hmj).
      lia.
    + rewrite (v_unmarked_step j ltac:(lia) Hmj).
      rewrite (as_u_out _ _ _ _ _ _ _ _ St).
      * exact Ht.
      * destruct (du_ts_le _ _ _ _ _ D j Hj); [contradiction | lia].
      * intros Hin. apply in_tree_matched in Hin; [congruence | exact Hj | exact Hm].
  - intros j Hj. rewrite Hts by lia. intros Hm.
    rewrite v_unmarked_step; [apply (du_v_free _ _ _ _ _ D j Hj Hm) | lia |].
    apply mark_false_iff. split; [congruence|].
    destruct (vvis a j) eqn:Hv; [|reflexivity].
    exfalso. apply (ti_vis_matched _ _ _ _ _ _ I j Hj Hv Hm).
  - rewrite u_root_step. pose proof (du_u_root _ _ _ _ _ D). lia.
  - intros i Hi. rewrite (as_u_out _ _ _ _ _ _ _ _ St).
    + apply (du_u_later _ _ _ _ _ D i Hi).
    + lia.
    + intros (q & Hq & Hm & Hqi). destruct (marked_source q Hq Hm). lia.
Qed.

(** **** The bookkeeping of the tree *)

Lemma next_lt : (nxt < n)%nat.
Proof.
  pose proof n_pos.
  destruct (as_next _ _ _ _ _ _ _ _ St) as [[_ ->]|(Hn & _)]; lia.
Qed.

Lemma trail_marked j :
  (j ≤ n)%nat → (vtr a j ≤ n)%nat ∧ mark a cur (vtr a j) = true.
Proof.
  intros Hj. destruct (ti_trail _ _ _ _ _ _ I j Hj) as [Hle [->|Hv]].
  - split; [lia | apply mark_root].
  - split; [exact Hle|]. apply mark_true_iff. auto.
Qed.

Lemma step_trail j :
  (j ≤ n)%nat →
  (vtr a' j ≤ n)%nat ∧ (vtr a' j = n ∨ vvis a' (vtr a' j) = true).
Proof.
  intros Hj. pose proof (ti_cur _ _ _ _ _ _ I) as Hcur.
  assert (Hold : (vtr a j ≤ n)%nat ∧
                 (vtr a j = n ∨ vvis a' (vtr a j) = true)).
  { destruct (trail_marked j Hj) as [Hle Hm]. split; [exact Hle|]. right.
    rewrite (as_vis _ _ _ _ _ _ _ _ St) by exact Hle. exact Hm. }
  destruct (decide (j = n)) as [->|Hne].
  { rewrite (as_tr_old _ _ _ _ _ _ _ _ St n) by auto. exact Hold. }
  destruct (mark a cur j) eqn:Hm.
  { rewrite (as_tr_old _ _ _ _ _ _ _ _ St j) by auto. exact Hold. }
  rewrite (as_tr_new _ _ _ _ _ _ _ _ St j) by (auto; lia).
  case_bool_decide; [|exact Hold].
  split; [exact Hcur|]. right.
  rewrite (as_vis _ _ _ _ _ _ _ _ St) by exact Hcur.
  apply mark_true_iff. auto.
Qed.

Lemma step_vis_matched j :
  (j < n)%nat → vvis a' j = true → vts a' j ≠ n.
Proof.
  intros Hj. rewrite (as_vis _ _ _ _ _ _ _ _ St), (as_ts _ _ _ _ _ _ _ _ St) by lia.
  intros Hm. apply (marked_source j); [lia | exact Hm].
Qed.

Lemma step_ms_range j :
  (j < n)%nat → vvis a' j = false → 0 ≤ vms a' j ≤ M - vu a' r.
Proof.
  intros Hj. rewrite (as_vis _ _ _ _ _ _ _ _ St) by lia. intros Hm.
  rewrite (as_ms _ _ _ _ _ _ _ _ St j Hj Hm), u_root_step.
  pose proof (as_d_min _ _ _ _ _ _ _ _ St j Hj Hm).
  apply mark_false_iff in Hm as [_ Hv].
  pose proof (ti_ms_range _ _ _ _ _ _ I j Hj Hv). lia.
Qed.

Lemma step_ms_low j q :
  (j < n)%nat → vvis a' j = false → (q ≤ n)%nat → vvis a' q = true →
  vms a' j ≤ slack c a' (vts a' q) j.
Proof.
  intros Hj Hmj Hq Hmq.
  rewrite (as_vis _ _ _ _ _ _ _ _ St) in Hmj by lia.
  rewrite (as_vis _ _ _ _ _ _ _ _ St) in Hmq by lia.
  rewrite (as_ts _ _ _ _ _ _ _ _ St q Hq).
  rewrite (as_ms _ _ _ _ _ _ _ _ St j Hj Hmj).
  rewrite (slack_out q j Hq Hmq ltac:(lia) Hmj).
  pose proof (min_low q j Hj Hmj Hq Hmq). lia.
Qed.

Lemma step_cur_zero : vvis a' nxt = false → vms a' nxt = 0.
Proof.
  pose proof next_lt as Hn.
  rewrite (as_vis _ _ _ _ _ _ _ _ St) by lia. intros Hm.
  rewrite (as_ms _ _ _ _ _ _ _ _ St nxt Hn Hm).
  pose proof (as_d_min _ _ _ _ _ _ _ _ St nxt Hn Hm) as Hmin.
  destruct (as_next _ _ _ _ _ _ _ _ St) as [[-> _]|(_ & _ & ->)]; [|lia].
  apply mark_false_iff in Hm as [_ Hv].
  pose proof (ti_ms_range _ _ _ _ _ _ I nxt Hn Hv).
  pose proof (du_u_root _ _ _ _ _ D). lia.
Qed.

Lemma step_revisit j :
  vvis a' nxt = true → (j < n)%nat → vvis a' j = false → vms a' j ≤ 0.
Proof.
  pose proof next_lt as Hn. intros Hm Hj Hmj.
  rewrite (as_vis _ _ _ _ _ _ _ _ St) in Hm by lia.
  rewrite (as_vis _ _ _ _ _ _ _ _ St) in Hmj by lia.
  rewrite (as_ms _ _ _ _ _ _ _ _ St j Hj Hmj).
  destruct (as_next _ _ _ _ _ _ _ _ St) as [[-> _]|(_ & Hm' & _)];
    [|congruence].
  apply mark_false_iff in Hmj as [_ Hv].
  pose proof (ti_ms_range _ _ _ _ _ _ I j Hj Hv).
  pose proof (du_u_root _ _ _ _ _ D). lia.
Qed.

(** **** Tight trails stay tight *)

Lemma tight_stable x :
  (x < n)%nat → mark a cur x = true → tight c a x → tight c a' x.
Proof.
  intros Hx Hm Ht. unfold tight in *.
  rewrite (as_tr_old _ _ _ _ _ _ _ _ St x) by (auto; lia).
  destruct (trail_marked x ltac:(lia)) as [Hle Hmq].
  rewrite (as_ts _ _ _ _ _ _ _ _ St _ Hle).
  rewrite (slack_marked _ x Hle Hmq ltac:(lia) Hm). exact Ht.
Qed.

Lemma tpath_marked : ∀ L p,
  tpath n (vtr a) L p → Forall (λ x, (x < n)%nat ∧ tight c a x) L →
  p = n ∨ mark a cur p = true →
  tpath n (vtr a') L p ∧ Forall (λ x, (x < n)%nat ∧ tight c a' x) L.
Proof.
  induction 1 as [|p L Hne Hp IH]; intros Hall Hm.
  - split; constructor.
  - apply Forall_cons in Hall as [[Hpn Ht] Hall].
    destruct Hm as [?|Hm]; [contradiction|].
    destruct (IH Hall) as [Hp' Hall'].
    { right. apply (trail_marked p). lia. }
    split.
    + apply tpath_next; [exact Hne|].
      rewrite (as_tr_old _ _ _ _ _ _ _ _ St p) by (auto; lia). exact Hp'.
    + constructor; [|exact Hall'].
      split; [exact Hpn | apply tight_stable; assumption].
Qed.

Lemma good_stable p :
  p = n ∨ mark a cur p = true → good n c a p → good n c a' p.
Proof.
  intros Hm (L & Hp & Hnd & Hall).
  destruct (tpath_marked L p Hp Hall Hm) as [Hp' Hall'].
  exists L. auto.
Qed.

(** **** Recorded slacks stay exact *)

Lemma exact_new j :
  (j < n)%nat → mark a cur j = false →
  slack c a (vts a cur) j < vms a j →
  exact c a' j ∧ vtr a' j = cur.
Proof.
  intros Hj Hm Hlt. pose proof (ti_cur _ _ _ _ _ _ I) as Hcur.
  assert (Htr : vtr a' j = cur).
  { rewrite (as_tr_new _ _ _ _ _ _ _ _ St j Hj Hm).
    rewrite bool_decide_eq_true_2 by exact Hlt. reflexivity. }
  split; [|exact Htr]. unfold exact. rewrite Htr.
  rewrite (as_ts _ _ _ _ _ _ _ _ St cur Hcur).
  rewrite (as_ms _ _ _ _ _ _ _ _ St j Hj Hm).
  rewrite (slack_out cur j Hcur) by (auto; try lia; apply mark_true_iff; auto).
  lia.
Qed.

Lemma exact_kept j :
  (j < n)%nat → mark a cur j = false →
  ¬ slack c a (vts a cur) j < vms a j →
  vtr a' j = vtr a j ∧ vms a' j = vms a j - d ∧
  (exact c a j → exact c a' j).
Proof.
  intros Hj Hm Hge.
  assert (Htr : vtr a' j = vtr a j).
  { rewrite (as_tr_new _ _ _ _ _ _ _ _ St j Hj Hm).
    rewrite bool_decide_eq_false_2 by exact Hge. reflexivity. }
  assert (Hms : vms a' j = vms a j - d).
  { rewrite (as_ms _ _ _ _ _ _ _ _ St j Hj Hm). lia. }
  split; [exact Htr|]. split; [exact Hms|].
  unfold exact. intros He. rewrite Htr, Hms.
  destruct (trail_marked j ltac:(lia)) as [Hle Hmq].
  rewrite (as_ts _ _ _ _ _ _ _ _ St _ Hle).
  rewrite (slack_out _ j Hle Hmq ltac:(lia) Hm). lia.
Qed.

(** The trail of the current target is good unless every unmatched
    target has run out of slack. *)
Lemma good_cur_or_zero :
  (cur ≠ n ∧ all_zero n a) ∨ good n c a' cur.
Proof.
  destruct (decide (cur = n)) as [Hcn|Hne];
    [right; rewrite Hcn; apply good_root|].
  destruct (ti_good _ _ _ _ _ _ I Hne) as [Hz|(Hg & _)]; [left; auto|].
  right. apply good_stable; [|exact Hg]. right. apply mark_true_iff. auto.
Qed.

Lemma step_free_exact j :
  (j < n)%nat → vvis a' j = false → vts a' j = n →
  exact c a' j ∧ good n c a' (vtr a' j).
Proof.
  intros Hj Hm Hts.
  rewrite (as_vis _ _ _ _ _ _ _ _ St) in Hm by lia.
  rewrite (as_ts _ _ _ _ _ _ _ _ St) in Hts by lia.
  pose proof Hm as Hm'. apply mark_false_iff in Hm' as [Hjc Hv].
  destruct (decide (slack c a (vts a cur) j < vms a j)) as [Hlt|Hge].
  - destruct (exact_new j Hj Hm Hlt) as [He Htr]. rewrite Htr.
    split; [exact He|].
    destruct good_cur_or_zero as [[Hne Hz]|Hg]; [|exact Hg].
    exfalso. specialize (Hz j Hj Hv Hts).
    pose proof (sl_nonneg j Hj). lia.
  - destruct (exact_kept j Hj Hm Hge) as (Htr & Hms & Hex).
    rewrite Htr. destruct (decide (cur = n)) as [Hcn|Hne].
    + destruct (ti_init _ _ _ _ _ _ I Hcn) as (_ & Hmsi & Htri & Hu).
      rewrite (Htri j) by lia. split; [|apply good_root].
      unfold exact. rewrite Htr, (Htri j), Hms by lia.
      rewrite (as_ts _ _ _ _ _ _ _ _ St n (le_n n)).
      rewrite (slack_out n j (le_n n) mark_root ltac:(lia) Hm).
      rewrite Hcn in Hge.
      rewrite (ti_root _ _ _ _ _ _ I) in Hge |- *. unfold slack in Hge |- *.
      rewrite (Hmsi j Hj), Hu, (du_v_free _ _ _ _ _ D j Hj Hts) in *.
      pose proof (du_cost _ _ _ _ _ D r j (du_root _ _ _ _ _ D) Hj). lia.
    + destruct (ti_free_exact _ _ _ _ _ _ I Hne j Hj Hv Hts) as [He Hg].
      split; [apply Hex, He|].
      apply good_stable; [|exact Hg].
      destruct (trail_marked j ltac:(lia)) as [_ Hmq]. auto.
Qed.

Lemma step_all_zero :
  all_zero n a → cur ≠ n → all_zero n a'.
Proof.
  intros Hz Hne j Hj.
  rewrite (as_vis _ _ _ _ _ _ _ _ St), (as_ts _ _ _ _ _ _ _ _ St) by lia.
  intros Hm Hts. pose proof Hm as Hm'. apply mark_false_iff in Hm' as [_ Hv].
  rewrite (as_ms _ _ _ _ _ _ _ _ St j Hj Hm).
  pose proof (as_d_min _ _ _ _ _ _ _ _ St j Hj Hm).
  pose proof (Hz j Hj Hv Hts). pose proof (sl_nonneg j Hj).
  pose proof d_nonneg. lia.
Qed.

Lemma step_good :
  all_zero n a' ∨
  (good n c a' nxt ∧
   (∀ p, (p ≤ n)%nat → vvis a' p = true → good n c a' p) ∧
   (∀ j, (j < n)%nat → vvis a' j = false →
      (exact c a' j ∧ good n c a' (vtr a' j)) ∨
      (vtr a' j = n ∧ vms a' j = M - vu a' r))).
Proof.
  pose proof next_lt as Hnx.
  (* either nothing is left, or the old facts are at hand *)
  assert (Hold :
    (cur ≠ n ∧ all_zero n a) ∨
    (good n c a' cur ∧
     (∀ p, (p ≤ n)%nat → vvis a p = true → good n c a p) ∧
     (∀ j, (j < n)%nat → vvis a j = false →
        (exact c a j ∧ good n c a (vtr a j)) ∨
        (vtr a j = n ∧ vms a j = M - vu a r)))).
  { destruct (decide (cur = n)) as [Hcn|Hne].
    - right. destruct (ti_init _ _ _ _ _ _ I Hcn) as (Hv & Hms & Htr & Hu).
      split; [rewrite Hcn; apply good_root|]. split.
      + intros p Hp Hvp. rewrite (Hv p Hp) in Hvp. discriminate.
      + intros j Hj _. right. rewrite (Htr j), (Hms j), Hu by lia.
        split; [reflexivity | lia].
    - destruct (ti_good _ _ _ _ _ _ I Hne) as [Hz|(Hg & Hgv & Hgu)]; [left; auto|].
      right. split; [|auto].
      apply good_stable; [|exact Hg]. right. apply mark_true_iff. auto. }
  destruct Hold as [[Hne Hz]|(Bcur & Gv & Gu)];
    [left; apply step_all_zero; assumption|].
  assert (Bvis : ∀ p, (p ≤ n)%nat → vvis a' p = true → good n c a' p).
  { intros p Hp. rewrite (as_vis _ _ _ _ _ _ _ _ St) by exact Hp. intros Hm.
    pose proof Hm as Hm'. apply mark_true_iff in Hm' as [->|Hv]; [exact Bcur|].
    apply good_stable; [auto | apply Gv; assumption]. }
  assert (Bunv : ∀ j, (j < n)%nat → vvis a' j = false →
            (exact c a' j ∧ good n c a' (vtr a' j)) ∨
            (vtr a' j = n ∧ vms a' j = M - vu a' r)).
  { intros j Hj. rewrite (as_vis _ _ _ _ _ _ _ _ St) by lia. intros Hm.
    pose proof Hm as Hm'. apply mark_false_iff in Hm' as [_ Hv].
    destruct (decide (slack c a (vts a cur) j < vms a j)) as [Hlt|Hge].
    - destruct (exact_new j Hj Hm Hlt) as [He ->]. left. auto.
    - destruct (exact_kept j Hj Hm Hge) as (Htr & Hms & Hex).
      rewrite Htr, Hms, u_root_step.
      destruct (Gu j Hj Hv) as [[He Hg]|[Hn Hmsj]].
      + left. split; [apply Hex, He|].
        apply good_stable; [|exact Hg].
        destruct (trail_marked j ltac:(lia)) as [_ Hmq]. auto.
      + right. split; [exact Hn | lia]. }
  destruct (vvis a' nxt) eqn:Hvn.
  { right. split; [apply Bvis; [lia | exact Hvn]|]. auto. }
  pose proof (step_cur_zero Hvn) as Hzero.
  destruct (Bunv nxt Hnx Hvn) as [[He Hg]|[Hn Hms]].
  - right. split; [|auto].
    apply (good_cons n c a' step_trail nxt Hnx Hvn); [|exact Hg].
    unfold tight. unfold exact in He. lia.
  - left. intros j Hj Hv Hts.
    pose proof (step_ms_range j Hj Hv). lia.
Qed.

(** One iteration keeps the invariant. *)
Lemma tree_inv_step : tree_inv n r c M a' nxt.
Proof.
  pose proof next_lt as Hnx.
  split.
  - apply step_duals.
  - rewrite (as_ts _ _ _ _ _ _ _ _ St n (le_n n)). apply (ti_root _ _ _ _ _ _ I).
  - lia.
  - apply step_vis_matched.
  - apply step_trail.
  - apply step_ms_range.
  - apply step_ms_low.
  - intros ->. lia.
  - intros _. rewrite (as_vis _ _ _ _ _ _ _ _ St n (le_n n)). apply mark_root.
  - intros _. apply step_cur_zero.
  - intros _ Hv j. apply step_revisit. exact Hv.
  - intros _. apply step_free_exact.
  - intros _. apply step_good.
Qed.

(** **** The measure decreases *)

Lemma unvisited_step :
  (unvisited n a' + (if vvis a cur then 0 else 1) = unvisited n a)%nat.
Proof.
  pose proof (ti_cur _ _ _ _ _ _ I) as Hcur. unfold unvisited.
  destruct (vvis a cur) eqn:Hv.
  - rewrite Nat.add_0_r. apply unvisited_ext. intros j Hj.
    apply elem_of_seq in Hj.
    rewrite (as_vis _ _ _ _ _ _ _ _ St) by lia.
    unfold mark. case_bool_decide; congruence.
  - apply unvisited_mark with (p := cur).
    + apply NoDup_seq.
    + apply elem_of_seq. lia.
    + exact Hv.
    + rewrite (as_vis _ _ _ _ _ _ _ _ St) by lia. apply mark_true_iff. auto.
    + intros j Hj Hne. apply elem_of_seq in Hj.
      rewrite (as_vis _ _ _ _ _ _ _ _ St) by lia.
      unfold mark. rewrite bool_decide_eq_false_2 by exact Hne. reflexivity.
Qed.

Lemma unvisited_pos j :
  (j ≤ n)%nat → vvis a' j = false → (0 < unvisited n a')%nat.
Proof.
  intros Hj Hv. unfold unvisited.
  assert (Hin : j ∈ filter (λ j, vvis a' j = false) (seq 0 (S n))).
  { apply list_elem_of_filter. split; [exact Hv|]. apply elem_of_seq. lia. }
  destruct (filter _ _); [apply elem_of_nil in Hin; contradiction|].
  cbn [length]. lia.
Qed.

(** With a positive [MaxCost], a step that does not visit a new target
    finds one to visit next. *)
Lemma revisit_next :
  0 < M → vvis a cur = true → vvis a' nxt = false.
Proof.
  intros HM Hv. pose proof next_lt as Hnx.
  assert (Hcn : cur ≠ n).
  { intros Hcn. destruct (ti_init _ _ _ _ _ _ I Hcn) as (Hvi & _).
    rewrite (Hvi cur) in Hv by lia. discriminate. }
  destruct (du_free _ _ _ _ _ D) as (j0 & Hj0 & Hts0).
  assert (Hv0 : vvis a j0 = false).
  { destruct (vvis a j0) eqn:Hv0; [|reflexivity].
    destruct (ti_vis_matched _ _ _ _ _ _ I j0 Hj0 Hv0 Hts0). }
  assert (Hm0 : mark a cur j0 = false).
  { apply mark_false_iff. split; [congruence | exact Hv0]. }
  pose proof (as_d_min _ _ _ _ _ _ _ _ St j0 Hj0 Hm0) as Hd.
  pose proof (ti_revisit _ _ _ _ _ _ I Hcn Hv j0 Hj0 Hv0) as Hms.
  rewrite (as_vis _ _ _ _ _ _ _ _ St) by lia.
  destruct (as_next _ _ _ _ _ _ _ _ St) as [[HdM _]|(_ & Hm & _)];
    [lia | exact Hm].
Qed.

Lemma measure_step : 0 < M → (measure n a' nxt < measure n a cur)%nat.
Proof.
  intros HM. pose proof next_lt as Hnx. pose proof unvisited_step as Hu.
  unfold measure. destruct (vvis a cur) eqn:Hv.
  - pose proof (revisit_next HM Hv) as Hn. rewrite Hn.
    pose proof (unvisited_pos nxt ltac:(lia) Hn). lia.
  - destruct (vvis a' nxt); lia.
Qed.

End Step.


(** **** The end of the search *)

Section Exit.
Context (n r : nat) (c : nat → nat → Z) (M : Z).
Context (a : view) (cur : nat).
Context (I : tree_inv n r c M a cur).
Context (Hstop : vts a cur = n).

Local Open Scope Z_scope.

Lemma exit_lt : (cur < n)%nat.
Proof.
  pose proof (ti_cur _ _ _ _ _ _ I) as Hcur.
  pose proof (du_root _ _ _ _ _ (ti_duals _ _ _ _ _ _ I)) as Hr.
  pose proof (ti_root _ _ _ _ _ _ I) as Hroot.
  destruct (decide (cur = n)) as [E|N]; [|lia].
  rewrite E in Hstop. lia.
Qed.

Lemma exit_unvisited : vvis a cur = false.
Proof.
  destruct (vvis a cur) eqn:Hv; [|reflexivity].
  destruct (ti_vis_matched _ _ _ _ _ _ I cur exit_lt Hv Hstop).
Qed.

(** The search ends on a target whose trail is made of tight edges. *)
Lemma exit_good : good n c a cur.
Proof.
  pose proof exit_lt as Hlt. pose proof exit_unvisited as Hv.
  assert (Hne : cur ≠ n) by lia.
  destruct (ti_free_exact _ _ _ _ _ _ I Hne cur Hlt Hv Hstop) as [He Hg].
  apply (good_cons n c a (ti_trail _ _ _ _ _ _ I) cur Hlt Hv); [|exact Hg].
  unfold tight. unfold exact in He.
  rewrite <- He. apply (ti_cur_zero _ _ _ _ _ _ I Hne Hv).
Qed.

(** The targets of the trail, the last one apart, were matched. *)
Lemma trail_source x :
  (x < n)%nat → vts a (vtr a x) ≠ n.
Proof.
  intros Hx. pose proof (du_root _ _ _ _ _ (ti_duals _ _ _ _ _ _ I)) as Hr.
  destruct (ti_trail _ _ _ _ _ _ I x ltac:(lia)) as [Hle [E|Hv]].
  - rewrite E, (ti_root _ _ _ _ _ _ I). lia.
  - destruct (decide (vtr a x = n)) as [E|N].
    + rewrite E, (ti_root _ _ _ _ _ _ I). lia.
    + apply (ti_vis_matched _ _ _ _ _ _ I); [lia | exact Hv].
Qed.

End Exit.

(** **** Flipping the matches along the trail *)

Lemma tpath_in n tr : ∀ L p x,
  tpath n tr L p → x ∈ L → tr x = n ∨ tr x ∈ L.
Proof.
  induction 1 as [|p L Hne Hp IH]; intros Hin.
  { apply elem_of_nil in Hin. contradiction. }
  apply elem_of_cons in Hin as [->|Hin].
  - inversion Hp as [E|q L' Hq Hp' E1 E2]; [left; congruence|].
    right. right. left.
  - destruct (IH Hin) as [E|Hin']; [left; exact E | right; right; exact Hin'].
Qed.

Lemma flip_spec n (tr : list nat) : ∀ L p,
  tpath n (λ j, tr !!! j) L p → NoDup L → Forall (λ x, x < n) L →
  ∀ fuel ts, length ts = S n →
  match flip fuel n tr ts p with
  | Some ts' =>
      length ts' = S n ∧
      (∀ x, x ∈ L → ts' !!! x = ts !!! (tr !!! x)) ∧
      (∀ x, x ∉ L → ts' !!! x = ts !!! x)
  | None => fuel < length L
  end.
Proof.
  induction 1 as [|p L Hne Hp IH]; intros Hnd Hall fuel ts Hlen.
  - assert (E : flip fuel n tr ts n = Some ts).
    { destruct fuel; cbn [flip];
        rewrite bool_decide_eq_false_2 by (intros Hc; apply Hc; reflexivity);
        reflexivity. }
    rewrite E. split; [exact Hlen|]. split; [|reflexivity].
    intros x Hx. apply elem_of_nil in Hx. contradiction.
  - apply NoDup_cons in Hnd as [Hp' Hnd].
    apply Forall_cons in Hall as [Hpn Hall].
    destruct fuel as [|fuel]; cbn [flip];
      rewrite bool_decide_eq_true_2 by exact Hne.
    { cbn [length]. lia. }
    specialize (IH Hnd Hall fuel (<[p := ts !!! (tr !!! p)]> ts)).
    rewrite length_insert in IH. specialize (IH Hlen).
    destruct (flip fuel n tr (<[p := ts !!! (tr !!! p)]> ts) (tr !!! p))
      as [ts'|]; [|cbn [length]; lia].
    destruct IH as (Hlen' & Hin & Hout).
    split; [exact Hlen'|]. split.
    + intros x Hx. apply elem_of_cons in Hx as [->|Hx].
      * rewrite (Hout p Hp').
        apply list_lookup_total_insert_eq. lia.
      * rewrite (Hin x Hx).
        apply list_lookup_total_insert_ne.
        destruct (tpath_in n _ L _ x Hp Hx) as [E|Hin'].
        -- cbn beta in E. rewrite E. lia.
        -- intros E. apply Hp'. rewrite E. exact Hin'.
    + intros x Hx. rewrite (Hout x).
      * apply list_lookup_total_insert_ne. intros E. apply Hx.
        rewrite E. left.
      * intros Hx'. apply Hx. right. exact Hx'.
Qed.

Lemma trail_length n (L : list nat) :
  NoDup L → Forall (λ x, x < n) L → length L ≤ n.
Proof.
  intros Hnd Hall.
  transitivity (length (seq 0 n)); [|rewrite length_seq; lia].
  apply submseteq_length, NoDup_submseteq; [exact Hnd|].
  intros x Hx. rewrite Forall_forall in Hall.
  apply elem_of_seq. specialize (Hall x Hx). lia.
Qed.

(** **** What a matching looks like *)

Lemma filter_replicate_ne (n k : nat) :
  filter (λ x, x ≠ n) (replicate k n) = [].
Proof.
  induction k as [|k IH]; [reflexivity|]. cbn [replicate].
  rewrite filter_cons. destruct (decide (n ≠ n)); [contradiction | exact IH].
Qed.

Lemma filter_lookup_inj (P : nat → Prop) `{∀ x, Decision (P x)} :
  ∀ (l : list nat) i j x,
  NoDup (filter P l) → l !! i = Some x → l !! j = Some x → P x → i = j.
Proof.
  induction l as [|y l IH]; intros i j x Hnd Hi Hj HP.
  { rewrite lookup_nil in Hi. discriminate. }
  rewrite filter_cons in Hnd.
  assert (Hmem : ∀ k, l !! k = Some x → x ∈ filter P l).
  { intros k Hk. apply list_elem_of_filter. split; [exact HP|].
    apply (list_elem_of_lookup_2 _ k). exact Hk. }
  destruct i as [|i], j as [|j]; cbn in Hi, Hj.
  - reflexivity.
  - injection Hi as ->. destruct (decide (P x)); [|contradiction].
    apply NoDup_cons in Hnd as [Hx _]. destruct (Hx (Hmem j Hj)).
  - injection Hj as ->. destruct (decide (P x)); [|contradiction].
    apply NoDup_cons in Hnd as [Hx _]. destruct (Hx (Hmem i Hi)).
  - f_equal. apply (IH i j x); [|assumption..].
    destruct (decide (P y)); [|exact Hnd].
    apply NoDup_cons in Hnd as [_ Hnd]. exact Hnd.
Qed.

Section Matching.
Context (n r : nat) (ts : list nat).
Context (Hm : matching n r ts) (Hr : r < n).

Lemma matching_lookup j : j < n → ts !!! j ∈ take n ts.
Proof.
  intros Hj. destruct Hm as [Hlen _].
  apply elem_of_take. exists j. split; [|exact Hj].
  apply list_lookup_lookup_total_lt. lia.
Qed.

Lemma matching_le j : j < n → ts !!! j = n ∨ ts !!! j < r.
Proof.
  intros Hj. pose proof (matching_lookup j Hj) as Hin.
  destruct Hm as [_ Hp].
  apply (elem_of_Permutation_proper _ _ _ Hp) in Hin.
  apply elem_of_app in Hin as [Hin|Hin].
  - apply elem_of_seq in Hin. right. lia.
  - apply elem_of_replicate_inv in Hin. left. exact Hin.
Qed.

Lemma matching_find i :
  i ∈ seq 0 r ++ replicate (n - r) n → ∃ j, j < n ∧ ts !!! j = i.
Proof.
  intros Hin. destruct Hm as [_ Hp].
  apply (elem_of_Permutation_proper _ _ _ Hp) in Hin.
  apply elem_of_take in Hin as (j & Hj & Hlt).
  exists j. split; [exact Hlt|]. apply list_lookup_total_correct, Hj.
Qed.

Lemma matching_surj i : i < r → ∃ j, j < n ∧ ts !!! j = i.
Proof.
  intros Hi. apply matching_find, elem_of_app. left.
  apply elem_of_seq. lia.
Qed.

Lemma matching_free : ∃ j, j < n ∧ ts !!! j = n.
Proof.
  apply matching_find, elem_of_app. right.
  apply elem_of_replicate. split; [reflexivity | lia].
Qed.

Lemma matching_inj j1 j2 :
  j1 < n → j2 < n → ts !!! j1 = ts !!! j2 → ts !!! j1 ≠ n → j1 = j2.
Proof.
  intros H1 H2 Heq Hne. destruct Hm as [Hlen Hp].
  assert (Hnd : NoDup (filter (λ x, x ≠ n) (take n ts))).
  { rewrite Hp, filter_app, filter_replicate_ne, app_nil_r.
    apply NoDup_filter, NoDup_seq. }
  apply (filter_lookup_inj _ (take n ts) j1 j2 (ts !!! j1) Hnd).
  - rewrite lookup_take_lt by exact H1.
    apply list_lookup_lookup_total_lt. lia.
  - rewrite lookup_take_lt by exact H2. rewrite Heq.
    apply list_lookup_lookup_total_lt. lia.
  - exact Hne.
Qed.

End Matching.

(** **** Sums of integers *)

Lemma zsum_perm (l k : list Z) :
  l ≡ₚ k → foldr Z.add 0%Z l = foldr Z.add 0%Z k.
Proof.
  induction 1 as [|x l k _ IH|x y l|l k m _ IH1 _ IH2]; cbn [foldr];
    [reflexivity | rewrite IH; reflexivity | lia | congruence].
Qed.

Lemma zsum_add {A} (f g : A → Z) (l : list A) :
  foldr Z.add 0%Z ((λ j, f j + g j)%Z <$> l) =
  (foldr Z.add 0%Z (f <$> l) + foldr Z.add 0%Z (g <$> l))%Z.
Proof.
  induction l as [|x l IH]; cbn [fmap list_fmap foldr]; [reflexivity|].
  cbn [fmap] in IH. rewrite IH. lia.
Qed.

Lemma zsum_le {A} (f g : A → Z) (l : list A) :
  (∀ j, j ∈ l → (f j ≤ g j)%Z) →
  (foldr Z.add 0%Z (f <$> l) ≤ foldr Z.add 0%Z (g <$> l))%Z.
Proof.
  induction l as [|x l IH]; intros Hle; cbn [fmap list_fmap foldr]; [lia|].
  pose proof (Hle x ltac:(left)) as Hx.
  assert (IH' := IH (λ j Hj, Hle j (list_elem_of_further _ _ _ Hj))).
  cbn [fmap] in IH'. lia.
Qed.

Lemma zsum_ext {A} (f g : A → Z) (l : list A) :
  (∀ j, j ∈ l → f j = g j) →
  foldr Z.add 0%Z (f <$> l) = foldr Z.add 0%Z (g <$> l).
Proof.
  intros Hfg. apply Z.le_antisymm; apply zsum_le; intros j Hj;
    rewrite (Hfg j Hj); lia.
Qed.

(** The sum of [u] over the sources of a full matching is the sum of
    [u] over all the sources. *)
Lemma zsum_matching (u : nat → Z) (σ : list nat) (n : nat) :
  σ ≡ₚ seq 0 n →
  foldr Z.add 0%Z ((λ j, u (σ !!! j)) <$> seq 0 n) =
  foldr Z.add 0%Z (u <$> seq 0 n).
Proof.
  intros P.
  assert (Hlen : length σ = n) by (rewrite P; apply length_seq).
  rewrite <- Hlen at 1. rewrite (fmap_lookup_seq u σ).
  apply zsum_perm. rewrite P. reflexivity.
Qed.

(** **** The loops of [optimalCost] *)

Section Loop.
Context {any : Type} {Cost : Type} `{CostIface Cost} `{Inhabited Cost}.
Context (options : AssignOptions (any:=any) (Cost:=Cost)).
Context (val : Cost → Z) (HM : cost_model options val).
Context (costs : list (list Cost)) (n : nat).
Context (Hok : costs_ok options val n costs).
Implicit Types (s : solver (Cost:=Cost)).

#[local] Abbreviation cz := (λ i j : nat, val (at2 costs i j)).
#[local] Abbreviation Mz := (val (MaxCost options)).

Lemma trail_Forall r s cur :
  wf n s → tree_inv n r cz Mz (view_of val s) cur →
  Forall (λ x, x ≤ n) (targetTrail s).
Proof.
  intros Hwf I. apply Forall_lookup. intros i x Hi.
  assert (Hlt : i < S n).
  { destruct Hwf as (_ & _ & _ & _ & <- & _).
    apply lookup_lt_is_Some. eauto. }
  destruct (ti_trail _ _ _ _ _ _ I i ltac:(lia)) as [Hle _].
  cbn [vtr view_of] in Hle.
  rewrite (list_lookup_total_correct _ _ _ Hi) in Hle. exact Hle.
Qed.

(** One iteration of the search is a step of the tree. *)
Lemma grow_step_tree r s cur s' nxt :
  wf n s → tree_inv n r cz Mz (view_of val s) cur →
  targetSource s !!! cur ≠ n →
  grow_step options costs n s cur = (s', nxt) →
  wf n s' ∧ tree_inv n r cz Mz (view_of val s') nxt ∧
  ((0 < Mz)%Z →
   measure n (view_of val s') nxt < measure n (view_of val s) cur).
Proof.
  intros Hwf I Hgo Hstep.
  pose proof (ti_cur _ _ _ _ _ _ I) as Hcur.
  destruct (grow_step_astep options val HM costs n s cur s' nxt Hwf Hcur
              (marked_range _ _ _ _ _ _ I Hgo)
              (marked_inj _ _ _ _ _ _ I Hgo) Hstep) as [d St].
  split; [|split].
  - pose proof (grow_step_shape options costs n s cur Hwf
                  (trail_Forall r s cur Hwf I) Hcur) as Hs.
    rewrite Hstep in Hs. apply Hs.
  - exact (tree_inv_step _ _ _ _ _ _ _ _ _ I Hgo St).
  - exact (measure_step _ _ _ _ _ _ _ _ _ I Hgo St).
Qed.

(** The search keeps the invariant and stops on an unmatched target. *)
Lemma grow_tree r : ∀ fuel s cur s' cur',
  wf n s → tree_inv n r cz Mz (view_of val s) cur →
  grow options fuel costs n s cur = Some (s', cur') →
  wf n s' ∧ tree_inv n r cz Mz (view_of val s') cur' ∧
  targetSource s' !!! cur' = n.
Proof.
  induction fuel as [|fuel IH]; intros s cur s' cur' Hwf I Hg;
    cbn [grow] in Hg;
    destruct (decide (targetSource s !!! cur ≠ n)) as [Hgo|Hstop].
  - rewrite bool_decide_eq_true_2 in Hg by exact Hgo. discriminate Hg.
  - rewrite bool_decide_eq_false_2 in Hg by exact Hstop.
    injection Hg as <- <-. split; [exact Hwf|]. split; [exact I|].
    destruct (decide (targetSource s !!! cur = n)); [assumption|contradiction].
  - rewrite bool_decide_eq_true_2 in Hg by exact Hgo.
    destruct (grow_step options costs n s cur) as [s1 nxt] eqn:Hstep.
    destruct (grow_step_tree r s cur s1 nxt Hwf I Hgo Hstep) as (Hwf1 & I1 & _).
    exact (IH s1 nxt s' cur' Hwf1 I1 Hg).
  - rewrite bool_decide_eq_false_2 in Hg by exact Hstop.
    injection Hg as <- <-. split; [exact Hwf|]. split; [exact I|].
    destruct (decide (targetSource s !!! cur = n)); [assumption|contradiction].
Qed.

(** With a positive [MaxCost] the search ends within the measure. *)
Lemma grow_total r : (0 < Mz)%Z → ∀ fuel s cur,
  wf n s → tree_inv n r cz Mz (view_of val s) cur →
  measure n (view_of val s) cur ≤ fuel →
  ∃ res, grow options fuel costs n s cur = Some res.
Proof.
  intros Hpos.
  induction fuel as [|fuel IH]; intros s cur Hwf I Hm; cbn [grow];
    destruct (decide (targetSource s !!! cur ≠ n)) as [Hgo|Hstop].
  - destruct (grow_step options costs n s cur) as [s1 nxt] eqn:Hstep.
    destruct (grow_step_tree r s cur s1 nxt Hwf I Hgo Hstep) as (_ & _ & Hd).
    specialize (Hd Hpos). lia.
  - rewrite bool_decide_eq_false_2 by exact Hstop. eauto.
  - rewrite bool_decide_eq_true_2 by exact Hgo.
    destruct (grow_step options costs n s cur) as [s1 nxt] eqn:Hstep.
    destruct (grow_step_tree r s cur s1 nxt Hwf I Hgo Hstep) as (Hwf1 & I1 & Hd).
    specialize (Hd Hpos). apply (IH s1 nxt Hwf1 I1). lia.
  - rewrite bool_decide_eq_false_2 by exact Hstop. eauto.
Qed.

(** The state at the start of the search of phase [r]. *)
Lemma start_tree r s s2 :
  r < n → phase_inv val costs n r s →
  sourceCost s2 = sourceCost s → targetCost s2 = targetCost s →
  targetSource s2 = <[n := r]> (targetSource s) →
  minSlack s2 = replicate (S n) (MaxCost options) →
  targetTrail s2 = replicate (S n) n →
  visitedTarget s2 = replicate (S n) false →
  tree_inv n r cz Mz (view_of val s2) n.
Proof.
  intros Hr (Hwf & Hmt & Hfeas & Htight & Hvfree & Hu) Esc Etc Ets Ems Etr Evis.
  destruct Hok as [_ Hc].
  assert (Hlen : length (targetSource s) = S n) by apply Hwf.
  assert (Hts : ∀ j, j < n → targetSource s2 !!! j = targetSource s !!! j).
  { intros j Hj. rewrite Ets. apply list_lookup_total_insert_ne. lia. }
  assert (Hroot : targetSource s2 !!! n = r).
  { rewrite Ets. apply list_lookup_total_insert_eq. lia. }
  assert (Hms : ∀ j, j ≤ n → val (minSlack s2 !!! j) = Mz).
  { intros j Hj. rewrite Ems, lookup_total_replicate_2 by lia. reflexivity. }
  assert (Htr : ∀ j, j ≤ n → targetTrail s2 !!! j = n).
  { intros j Hj. rewrite Etr, lookup_total_replicate_2 by lia. reflexivity. }
  assert (Hvis : ∀ j, j ≤ n → visitedTarget s2 !!! j = false).
  { intros j Hj. rewrite Evis, lookup_total_replicate_2 by lia. reflexivity. }
  assert (Hur : val (sourceCost s !!! r) = 0%Z) by (apply Hu; lia).
  assert (HMn : (0 ≤ Mz)%Z) by (specialize (Hc 0 0); lia).
  assert (Hd : duals n r cz Mz (view_of val s2)).
  { split; cbn [vu vv vms vts vtr vvis view_of]; rewrite ?Esc, ?Etc.
    - exact Hr.
    - intros i j Hi Hj. apply Hc; assumption.
    - intros j Hj. rewrite (Hts j Hj). apply (matching_le n r _ Hmt Hr j Hj).
    - intros j1 j2 H1 H2. rewrite (Hts j1 H1), (Hts j2 H2).
      apply (matching_inj n r _ Hmt Hr); assumption.
    - intros i Hi. destruct (matching_surj n r _ Hmt Hr i Hi) as (j & Hj & E).
      exists j. rewrite (Hts j Hj). auto.
    - destruct (matching_free n r _ Hmt Hr) as (j & Hj & E).
      exists j. rewrite (Hts j Hj). auto.
    - exact Hfeas.
    - intros j Hj. rewrite (Hts j Hj). apply Htight. exact Hj.
    - intros j Hj. rewrite (Hts j Hj). apply Hvfree. exact Hj.
    - lia.
    - intros i Hi. apply Hu; lia. }
  split; cbn [vu vv vms vts vtr vvis view_of].
  - exact Hd.
  - exact Hroot.
  - lia.
  - intros j Hj. rewrite (Hvis j) by lia. discriminate.
  - intros j Hj. rewrite (Htr j Hj). auto.
  - intros j Hj _. rewrite (Hms j) by lia. rewrite Esc. lia.
  - intros j q Hj _ Hq. rewrite (Hvis q Hq). discriminate.
  - intros _. split; [exact Hvis|]. split; [intros j Hj; apply Hms; lia|].
    split; [exact Htr|]. rewrite Esc. exact Hur.
  - intros Hc'. destruct (Hc' eq_refl).
  - intros Hc'. destruct (Hc' eq_refl).
  - intros Hc'. destruct (Hc' eq_refl).
  - intros Hc'. destruct (Hc' eq_refl).
  - intros Hc'. destruct (Hc' eq_refl).
Qed.

Lemma start_measure a : measure n a n ≤ 2 * n + 2.
Proof.
  unfold measure, unvisited.
  pose proof (length_filter (λ j, vvis a j = false) (seq 0 (S n))) as Hl.
  rewrite length_seq in Hl. lia.
Qed.

(** The state of the search of phase [r], as [phase] builds it. *)
Lemma phase_unfold fuel s r :
  wf n s →
  phase options fuel costs n s r =
  match grow options fuel costs n
          {| sourceCost := sourceCost s; targetCost := targetCost s;
             targetSource := <[n := r]> (targetSource s);
             minSlack := replicate (S n) (MaxCost options);
             targetTrail := replicate (S n) n;
             visitedTarget := replicate (S n) false |} n with
  | None => None
  | Some (s3, cur) =>
      match flip fuel n (targetTrail s3) (targetSource s3) cur with
      | None => None
      | Some ts =>
          Some {| sourceCost := sourceCost s3; targetCost := targetCost s3;
                  targetSource := ts; minSlack := minSlack s3;
                  targetTrail := targetTrail s3;
                  visitedTarget := visitedTarget s3 |}
      end
  end.
Proof.
  intros (A & B & C & D & E & F). unfold phase.
  rewrite reset_all; [reflexivity|].
  unfold wf. cbn [sourceCost targetCost targetSource minSlack targetTrail
                  visitedTarget].
  rewrite length_insert. auto 10.
Qed.

Lemma start_wf s r :
  wf n s →
  wf n {| sourceCost := sourceCost s; targetCost := targetCost s;
          targetSource := <[n := r]> (targetSource s);
          minSlack := replicate (S n) (MaxCost options);
          targetTrail := replicate (S n) n;
          visitedTarget := replicate (S n) false |}.
Proof.
  intros (A & B & C & D & E & F). unfold wf.
  cbn [sourceCost targetCost targetSource minSlack targetTrail visitedTarget].
  rewrite length_insert, !length_replicate. auto 10.
Qed.

(** A phase keeps the potentials feasible and the matched edges tight. *)
Lemma phase_step fuel r s s' :
  r < n → phase_inv val costs n r s →
  phase options fuel costs n s r = Some s' →
  phase_inv val costs n (S r) s'.
Proof.
  intros Hr Hinv Hph.
  pose proof Hinv as (Hwf & Hmt & _).
  destruct (phase_matching options fuel costs n s r s' Hwf Hmt Hr Hph)
    as [Hwf' Hmt'].
  rewrite (phase_unfold fuel s r Hwf) in Hph.
  set (s2 := {| sourceCost := sourceCost s; targetCost := targetCost s;
                targetSource := <[n := r]> (targetSource s);
                minSlack := replicate (S n) (MaxCost options);
                targetTrail := replicate (S n) n;
                visitedTarget := replicate (S n) false |}) in Hph.
  pose proof (start_tree r s s2 Hr Hinv eq_refl eq_refl eq_refl eq_refl
                eq_refl eq_refl) as I2.
  destruct (grow options fuel costs n s2 n) as [[s3 cur]|] eqn:Hg;
    [|discriminate Hph].
  destruct (grow_tree r fuel s2 n s3 cur (start_wf s r Hwf) I2 Hg)
    as (Hwf3 & I3 & Hstop).
  destruct (exit_good _ _ _ _ _ _ I3 Hstop) as (L & Hp & Hnd & Hall).
  assert (Hlt : Forall (λ x, x < n) L).
  { apply (Forall_impl _ _ _ Hall). intros x [Hx _]. exact Hx. }
  assert (Hlen3 : length (targetSource s3) = S n) by apply Hwf3.
  pose proof (flip_spec n (targetTrail s3) L cur Hp Hnd Hlt fuel
                (targetSource s3) Hlen3) as Hf.
  destruct (flip fuel n (targetTrail s3) (targetSource s3) cur) as [ts'|];
    [|discriminate Hph].
  injection Hph as <-. destruct Hf as (_ & Hin & Hout).
  pose proof (ti_duals _ _ _ _ _ _ I3) as D3.
  split; [exact Hwf'|]. split; [exact Hmt'|].
  cbn [sourceCost targetCost targetSource]. repeat split.
  - exact (du_feas _ _ _ _ _ D3).
  - intros j Hj Hne. destruct (decide (j ∈ L)) as [HL|HL].
    + rewrite (Hin j HL). rewrite Forall_forall in Hall.
      destruct (Hall j HL) as [_ Ht]. unfold tight, slack in Ht.
      cbn [vu vv vts vtr view_of] in Ht. lia.
    + rewrite (Hout j HL) in Hne |- *.
      exact (du_tight _ _ _ _ _ D3 j Hj Hne).
  - intros j Hj He. destruct (decide (j ∈ L)) as [HL|HL].
    + rewrite (Hin j HL) in He.
      destruct (trail_source _ _ _ _ _ _ I3 Hstop j Hj He).
    + rewrite (Hout j HL) in He.
      exact (du_v_free _ _ _ _ _ D3 j Hj He).
  - intros i Hi Hin'. apply (du_u_later _ _ _ _ _ D3). lia.
Qed.

(** With a positive [MaxCost] and [2 n + 2] iterations allowed, a phase
    runs to its end. *)
Lemma phase_total fuel r s :
  (0 < Mz)%Z → 2 * n + 2 ≤ fuel →
  r < n → phase_inv val costs n r s →
  ∃ s', phase options fuel costs n s r = Some s'.
Proof.
  intros Hpos Hfuel Hr Hinv.
  pose proof Hinv as (Hwf & Hmt & _).
  rewrite (phase_unfold fuel s r Hwf).
  set (s2 := {| sourceCost := sourceCost s; targetCost := targetCost s;
                targetSource := <[n := r]> (targetSource s);
                minSlack := replicate (S n) (MaxCost options);
                targetTrail := replicate (S n) n;
                visitedTarget := replicate (S n) false |}).
  pose proof (start_tree r s s2 Hr Hinv eq_refl eq_refl eq_refl eq_refl
                eq_refl eq_refl) as I2.
  destruct (grow_total r Hpos fuel s2 n (start_wf s r Hwf) I2) as [[s3 cur] Hg].
  { pose proof (start_measure (view_of val s2)). lia. }
  rewrite Hg.
  destruct (grow_tree r fuel s2 n s3 cur (start_wf s r Hwf) I2 Hg)
    as (Hwf3 & I3 & Hstop).
  destruct (exit_good _ _ _ _ _ _ I3 Hstop) as (L & Hp & Hnd & Hall).
  assert (Hlt : Forall (λ x, x < n) L).
  { apply (Forall_impl _ _ _ Hall). intros x [Hx _]. exact Hx. }
  assert (Hlen3 : length (targetSource s3) = S n) by apply Hwf3.
  pose proof (flip_spec n (targetTrail s3) L cur Hp Hnd Hlt fuel
                (targetSource s3) Hlen3) as Hf.
  destruct (flip fuel n (targetTrail s3) (targetSource s3) cur) as [ts'|];
    [eauto|].
  pose proof (trail_length n L Hnd Hlt). lia.
Qed.

(** With a positive [MaxCost] the search of a phase reaches an unmatched
    target. *)
Lemma search_ends fuel r s :
  (0 < Mz)%Z → 2 * n + 2 ≤ fuel →
  r < n → phase_inv val costs n r s →
  ∃ s' cur, grow options fuel costs n (search_start options n s r) n
              = Some (s', cur) ∧
            targetSource s' !!! cur = n.
Proof.
  intros Hpos Hfuel Hr Hinv. pose proof Hinv as (Hwf & _).
  pose proof (start_tree r s (search_start options n s r) Hr Hinv eq_refl
                eq_refl eq_refl eq_refl eq_refl eq_refl) as I2.
  destruct (grow_total r Hpos fuel _ n (start_wf s r Hwf) I2) as [[s3 cur] Hg].
  { etrans; [apply start_measure | exact Hfuel]. }
  exists s3, cur. split; [exact Hg|].
  apply (grow_tree r fuel _ n s3 cur (start_wf s r Hwf) I2 Hg).
Qed.

(** The potentials are feasible and no target is matched before the
    first phase. *)
Lemma init_phase_inv : phase_inv val costs n 0 (init_solver options n).
Proof.
  destruct Hok as [_ Hc].
  split; [apply init_solver_wf|]. split; [apply init_solver_matching|].
  rewrite init_solver_eq. cbn [sourceCost targetCost targetSource].
  assert (Hz : ∀ j, j < n → val (replicate (S n) (MinCost options) !!! j) = 0%Z).
  { intros j Hj. rewrite lookup_total_replicate_2 by lia.
    apply (val_min _ _ HM). }
  repeat split.
  - intros i j Hi Hj. rewrite (Hz i Hi), (Hz j Hj).
    specialize (Hc i j Hi Hj). lia.
  - intros j Hj Hne. rewrite lookup_total_replicate_2 in Hne by lia.
    contradiction.
  - intros j Hj _. apply Hz, Hj.
  - intros i _ Hi. apply Hz, Hi.
Qed.

Lemma length_costs : length costs = n.
Proof. destruct Hok as [[Hn _] _]. exact Hn. Qed.

Lemma phases_inv fuel : ∀ k s,
  k ≤ n → phases options fuel costs k = Some s →
  phase_inv val costs n k s.
Proof.
  unfold phases. rewrite length_costs.
  induction k as [|k IH]; intros s Hk Hp.
  - injection Hp as <-. apply init_phase_inv.
  - rewrite foldl_seq_S in Hp.
    destruct (foldl _ (Some (init_solver options n)) (seq 0 k))
      as [s0|] eqn:E; [|discriminate Hp].
    apply (phase_step fuel k s0 s ltac:(lia) (IH s0 ltac:(lia) eq_refl) Hp).
Qed.

Lemma phases_total fuel :
  (0 < Mz)%Z → 2 * n + 2 ≤ fuel →
  ∀ k, k ≤ n → ∃ s, phases options fuel costs k = Some s.
Proof.
  intros Hpos Hfuel. induction k as [|k IH]; intros Hk.
  - unfold phases. cbn [seq foldl]. eauto.
  - destruct (IH ltac:(lia)) as [s0 E].
    pose proof (phases_inv fuel k s0 ltac:(lia) E) as Hinv.
    unfold phases in E |- *. rewrite foldl_seq_S, E, length_costs.
    apply (phase_total fuel k s0 Hpos Hfuel ltac:(lia) Hinv).
Qed.

Lemma optimalCost_total fuel :
  (0 < Mz)%Z → 2 * n + 2 ≤ fuel →
  ∃ optimal, optimalCost options fuel costs = Some optimal.
Proof.
  intros Hpos Hfuel. unfold optimalCost. rewrite length_costs.
  destruct (phases_total fuel Hpos Hfuel n (le_n n)) as [s ->]. eauto.
Qed.

(** The matching returned costs no more than any other full matching:
    its cost is the sum of the potentials, which bounds the cost of every
    matching from below. *)
Lemma optimalCost_min fuel optimal σ :
  optimalCost options fuel costs = Some optimal →
  σ ≡ₚ seq 0 n →
  (matching_cost val costs optimal ≤ matching_cost val costs σ)%Z.
Proof.
  intros Hopt Hσ.
  pose proof (optimalCost_perm options fuel costs optimal Hopt) as Hperm.
  rewrite length_costs in Hperm.
  unfold optimalCost in Hopt. rewrite length_costs in Hopt.
  destruct (phases options fuel costs n) as [s|] eqn:E; [|discriminate Hopt].
  injection Hopt as <-.
  destruct (phases_inv fuel n s (le_n n) E)
    as (Hwf & [Hlen Hmt] & Hfeas & Htight & _).
  set (opt := take n (targetSource s)) in *.
  assert (Hlo : length opt = n) by (rewrite Hperm; apply length_seq).
  assert (Hls : length σ = n) by (rewrite Hσ; apply length_seq).
  set (u := λ i : nat, val (sourceCost s !!! i)).
  set (v := λ j : nat, val (targetCost s !!! j)).
  assert (Hopt : ∀ j, j < n → opt !!! j = targetSource s !!! j).
  { intros j Hj. unfold opt. rewrite !list_lookup_total_alt.
    rewrite lookup_take_lt by exact Hj. reflexivity. }
  unfold matching_cost. rewrite Hlo, Hls.
  transitivity (foldr Z.add 0%Z ((λ j, u (σ !!! j) + v j)%Z <$> seq 0 n)).
  - rewrite (zsum_ext _ (λ j, u (opt !!! j) + v j)%Z).
    + rewrite !zsum_add, (zsum_matching u opt n Hperm),
        (zsum_matching u σ n Hσ). lia.
    + intros j Hj. apply elem_of_seq in Hj.
      pose proof (perm_seq_lookup opt n j Hperm ltac:(lia)) as Hi.
      rewrite (Hopt j) in Hi |- * by lia. symmetry.
      apply (Htight j); lia.
  - apply zsum_le. intros j Hj. apply elem_of_seq in Hj.
    pose proof (perm_seq_lookup σ n j Hσ ltac:(lia)) as Hi.
    apply Hfeas; lia.
Qed.

End Loop.

(** **** Searches that never end *)

Section Diverge.
Context {any : Type} {Cost : Type} `{CostIface Cost} `{Inhabited Cost}.
Context (options : AssignOptions (any:=any) (Cost:=Cost)).
Context (costs : list (list Cost)) (n : nat).
Implicit Types (s : solver (Cost:=Cost)).

(** An iteration that leaves the state and the current target as they
    were is repeated for ever. *)
Lemma grow_loop s cur :
  targetSource s !!! cur ≠ n →
  grow_step options costs n s cur = (s, cur) →
  ∀ fuel, grow options fuel costs n s cur = None.
Proof.
  intros Hgo Hstep. induction fuel as [|fuel IH]; cbn [grow];
    rewrite bool_decide_eq_true_2 by exact Hgo; [reflexivity|].
  rewrite Hstep. exact IH.
Qed.

Lemma grow_diverge_step s cur :
  targetSource s !!! cur ≠ n →
  (∀ fuel, grow options fuel costs n
             (grow_step options costs n s cur).1
             (grow_step options costs n s cur).2 = None) →
  ∀ fuel, grow options fuel costs n s cur = None.
Proof.
  intros Hgo Hnext fuel. destruct fuel as [|fuel]; cbn [grow];
    rewrite bool_decide_eq_true_2 by exact Hgo; [reflexivity|].
  specialize (Hnext fuel).
  destruct (grow_step options costs n s cur) as [s1 nxt]. exact Hnext.
Qed.

Lemma phase_diverge fuel s r :
  wf n s →
  (∀ fuel',
     grow options fuel' costs n
       {| sourceCost := sourceCost s; targetCost := targetCost s;
          targetSource := <[n := r]> (targetSource s);
          minSlack := replicate (S n) (MaxCost options);
          targetTrail := replicate (S n) n;
          visitedTarget := replicate (S n) false |} n = None) →
  phase options fuel costs n s r = None.
Proof.
  intros Hwf Hg. rewrite (phase_unfold options costs n fuel s r Hwf).
  rewrite Hg. reflexivity.
Qed.

End Diverge.

(** **** From the matching to the pairs *)

Lemma zsum_filter (P : nat → Prop) `{∀ j, Decision (P j)} (M : Z)
    (l : list nat) :
  foldr Z.add 0%Z ((λ j, if decide (P j) then M else 0%Z) <$> l) =
  (Z.of_nat (length (filter P l)) * M)%Z.
Proof.
  induction l as [|x l IH]; cbn [fmap list_fmap foldr]; [reflexivity|].
  cbn [fmap] in IH. rewrite IH, filter_cons.
  destruct (decide (P x)); cbn [length]; lia.
Qed.

Section Optimal.
Context {any : Type} (nil : any).
Context {Cost : Type} `{CostIface Cost} `{EqDecision Cost} `{Inhabited Cost}.
Context (options : AssignOptions (any:=any) (Cost:=Cost)).
Context (val : Cost → Z).

Local Open Scope Z_scope.

Lemma pairs_cost_app (l k : list (Pair (any:=any) (Cost:=Cost))) :
  pairs_cost val (l ++ k) = pairs_cost val l + pairs_cost val k.
Proof.
  unfold pairs_cost. induction l as [|p l IH]; cbn [app fmap list_fmap foldr];
    [lia|]. cbn [fmap] in IH. rewrite IH. lia.
Qed.

Lemma pairs_cost_concat (F : nat → list (Pair (any:=any) (Cost:=Cost)))
    (l : list nat) :
  pairs_cost val (concat (F <$> l)) =
  foldr Z.add 0 ((λ j, pairs_cost val (F j)) <$> l).
Proof.
  induction l as [|x l IH]; cbn [fmap list_fmap concat foldr]; [reflexivity|].
  cbn [fmap] in IH. rewrite pairs_cost_app, IH. reflexivity.
Qed.

(** The pairs of one column carry the cost of its cell, once more when
    the match is split. *)
Lemma pairs_of_cost sources targets costs optimal (j : nat) :
  ((length sources ≤ optimal !!! j)%nat → (length targets ≤ j)%nat →
   val (at2 costs (optimal !!! j) j) = 0) →
  pairs_cost val (pairs_of nil options sources targets costs optimal j) =
  val (at2 costs (optimal !!! j) j) +
  (if decide ((optimal !!! j < length sources)%nat ∧
              (j < length targets)%nat ∧
              at2 costs (optimal !!! j) j = MaxCost options)
   then val (MaxCost options) else 0).
Proof.
  intros Hpad. unfold pairs_of, emit. cbv zeta. cbn [app].
  destruct (decide ((optimal !!! j < length sources)%nat ∧
                    (j < length targets)%nat ∧
                    at2 costs (optimal !!! j) j = MaxCost options))
    as [(Hi & Hj & Hc)|Hn].
  - rewrite bool_decide_eq_true_2 by auto.
    rewrite bool_decide_eq_true_2 by exact Hc.
    unfold pairs_cost. cbn. rewrite Hc. lia.
  - case_bool_decide as H1.
    + rewrite bool_decide_eq_false_2 by (intros Hc; apply Hn; tauto).
      unfold pairs_cost. cbn. lia.
    + case_bool_decide as H2; [unfold pairs_cost; cbn; lia|].
      case_bool_decide as H3; [unfold pairs_cost; cbn; lia|].
      unfold pairs_cost. cbn. rewrite Hpad; lia.
Qed.

Section Square.
Context (sources targets : list any).
Context (HM : cost_model options val).
Context (Hec : ∀ x y, 0 ≤ val (EditCost options x y) ≤ val (MaxCost options)).

#[local] Abbreviation side :=
  (if bool_decide (length sources < length targets)%nat
   then length targets else length sources).
#[local] Abbreviation square := (build_costs nil options sources targets side).

(** The matrix [Assign] builds keeps the cost invariants. *)
Lemma build_costs_ok : costs_ok options val side square.
Proof.
  pose proof (build_costs_spec nil options sources targets) as Hs.
  cbv zeta in Hs. destruct Hs as [Hsh Hcell].
  split; [exact Hsh|]. intros i j Hi Hj.
  rewrite (Hcell i j Hi Hj). unfold cell_cost.
  repeat case_bool_decide; try apply Hec.
  all: rewrite (val_min _ _ HM); pose proof (Hec nil nil); lia.
Qed.

Lemma Assign_total fuel :
  0 < val (MaxCost options) → (2 * side + 2 ≤ fuel)%nat →
  ∃ result, Assign nil options fuel sources targets = Some result.
Proof.
  intros Hpos Hfuel. unfold Assign. cbv zeta.
  destruct (optimalCost_total options val HM square side build_costs_ok
              fuel Hpos Hfuel) as [optimal ->].
  eauto.
Qed.

(** The pairs cost what the matching costs, and [MaxCost] more for every
    split match. *)
Lemma Assign_cost fuel result optimal :
  Assign nil options fuel sources targets = Some result →
  optimalCost options fuel square = Some optimal →
  pairs_cost val result =
  matching_cost val square optimal +
  Z.of_nat (length (split_cells options sources targets square optimal
                      side)) * val (MaxCost options).
Proof.
  intros Hres Hopt.
  destruct (Assign_inv nil options fuel sources targets result Hres)
    as (optimal' & Hopt' & Hperm & ->).
  cbv zeta in Hopt'. rewrite Hopt in Hopt'. injection Hopt' as <-.
  assert (Hlen : length optimal = side) by (rewrite Hperm; apply length_seq).
  pose proof (build_costs_spec nil options sources targets) as Hs.
  cbv zeta in Hs. destruct Hs as [_ Hcell].
  rewrite pairs_cost_concat. unfold matching_cost, split_cells.
  rewrite Hlen, <- zsum_filter, <- zsum_add.
  apply zsum_ext. intros j Hj. apply elem_of_seq in Hj.
  apply pairs_of_cost. intros Hi Hj'.
  pose proof (perm_seq_lookup optimal side j Hperm ltac:(lia)) as Hlt.
  rewrite (Hcell _ j Hlt ltac:(lia)). unfold cell_cost.
  rewrite bool_decide_eq_false_2 by lia.
  rewrite bool_decide_eq_false_2 by lia.
  rewrite bool_decide_eq_false_2 by lia.
  apply (val_min _ _ HM).
Qed.

End Square.

(** C1 (amended): when the costs keep the invariants and [MinCost] is
    below [MaxCost], [Assign] returns, and the matching behind its pairs
    is a one-to-one assignment of minimum total cost on the padded square
    matrix; the costs of the pairs add up to that minimum, and to [MaxCost]
    more for every match that was split into a delete and an insert
    pair. *)
Theorem C1_matching_cost_is_minimum (sources targets : list any)
    (fuel : nat) :
  cost_model options val →
  (∀ x y, 0 ≤ val (EditCost options x y) ≤ val (MaxCost options)) →
  val (MinCost options) < val (MaxCost options) →
  let size := if bool_decide (length sources < length targets)%nat
              then length targets else length sources in
  (2 * size + 2 ≤ fuel)%nat →
  let costs := build_costs nil options sources targets size in
  ∃ result optimal,
    Assign nil options fuel sources targets = Some result ∧
    optimalCost options fuel costs = Some optimal ∧
    optimal ≡ₚ seq 0 size ∧
    (∀ σ, σ ≡ₚ seq 0 size →
       matching_cost val costs optimal ≤ matching_cost val costs σ) ∧
    pairs_cost val result =
    matching_cost val costs optimal +
    Z.of_nat (length (split_cells options sources targets costs optimal size))
    * val (MaxCost options).
Proof.
  intros HM Hec Hlt size Hfuel costs.
  assert (Hpos : 0 < val (MaxCost options))
    by (rewrite <- (val_min _ _ HM); exact Hlt).
  destruct (Assign_total sources targets HM Hec fuel Hpos Hfuel)
    as [result Hres].
  destruct (Assign_inv nil options fuel sources targets result Hres)
    as (optimal & Hopt & Hperm & _).
  exists result, optimal.
  split; [exact Hres|]. split; [exact Hopt|]. split; [exact Hperm|]. split.
  - intros σ Hσ.
    exact (optimalCost_min options val HM costs size
             (build_costs_ok sources targets HM Hec) fuel optimal σ Hopt Hσ).
  - exact (Assign_cost sources targets HM fuel result optimal Hres Hopt).
Qed.

(** C9 (amended): when the costs keep the invariants and [MinCost] is
    below [MaxCost], [Assign] runs to its end within [2 size + 2]
    iterations of each inner loop, and the search of every phase reaches
    an unmatched target. *)
Theorem C9_assign_terminates (sources targets : list any) (fuel : nat) :
  cost_model options val →
  (∀ x y, 0 ≤ val (EditCost options x y) ≤ val (MaxCost options)) →
  val (MinCost options) < val (MaxCost options) →
  let size := if bool_decide (length sources < length targets)%nat
              then length targets else length sources in
  (2 * size + 2 ≤ fuel)%nat →
  let costs := build_costs nil options sources targets size in
  (∃ result, Assign nil options fuel sources targets = Some result) ∧
  (∀ k s, (k < size)%nat → phases options fuel costs k = Some s →
     ∃ s' cur,
       grow options fuel costs size (search_start options size s k) size
         = Some (s', cur) ∧
       targetSource s' !!! cur = size).
Proof.
  intros HM Hec Hlt size Hfuel costs.
  assert (Hpos : 0 < val (MaxCost options))
    by (rewrite <- (val_min _ _ HM); exact Hlt).
  pose proof (build_costs_ok sources targets HM Hec) as Hok.
  split; [exact (Assign_total sources targets HM Hec fuel Hpos Hfuel)|].
  intros k s Hk Hph.
  apply (search_ends options val HM costs size Hok fuel k s Hpos Hfuel Hk).
  apply (phases_inv options val HM costs size Hok fuel k s); [lia | exact Hph].
Qed.

End Optimal.

(** C8: after every phase of the main loop the potentials are feasible,
    [sourceCost[i] + targetCost[j] ≤ costs[i][j]] for every source [i] and
    target [j], and every matched edge [targetSource[j] = i] is tight. *)
Theorem C8_dual_feasibility {any Cost : Type} `{CostIface Cost}
    `{Inhabited Cost} (options : AssignOptions (any:=any) (Cost:=Cost))
    (val : Cost → Z) (costs : list (list Cost)) (fuel k : nat)
    (s : solver (Cost:=Cost)) :
  cost_model options val →
  costs_ok options val (length costs) costs →
  k ≤ length costs →
  phases options fuel costs k = Some s →
  (∀ i j, i < length costs → j < length costs →
     (val (sourceCost s !!! i) + val (targetCost s !!! j)
      ≤ val (at2 costs i j))%Z) ∧
  (∀ i j, j < length costs → targetSource s !!! j = i → i ≠ length costs →
     (val (sourceCost s !!! i) + val (targetCost s !!! j)
      = val (at2 costs i j))%Z).
Proof.
  intros HM Hok Hk Hph.
  destruct (phases_inv options val HM costs (length costs) Hok fuel k s Hk Hph)
    as (_ & _ & Hfeas & Htight & _).
  split; [exact Hfeas|].
  intros i j Hj <- Hne. apply Htight; assumption.
Qed.
(** *** Concrete runs with integer costs *)

Local Open Scope string_scope.

Example assign_max_cost_update :
  Assign None (deltaOptions [("a", "b", maxCost)]) 8 [Some "a"] [Some "b"] =
  Some [mkPair (Some "a") None maxCost; mkPair None (Some "b") maxCost].
Proof. vm_compute. reflexivity. Qed.

Example assign_below_max_cost_update :
  Assign None (deltaOptions [("a", "b", (maxCost - 1)%Z)]) 8 [Some "a"] [Some "b"] =
  Some [mkPair (Some "a") (Some "b") (maxCost - 1)%Z].
Proof. vm_compute. reflexivity. Qed.

Example assign_cheaper_updates :
  Assign None
    (deltaOptions [("a", "d", 1%Z); ("b", "e", 2%Z); ("c", "f", 4%Z);
                   ("a", "e", 1%Z); ("b", "f", 2%Z); ("c", "d", 3%Z)])
    16 [Some "a"; Some "b"; Some "c"; Some "x"]
       [Some "d"; Some "e"; Some "f"; Some "y"] =
  Some [mkPair (Some "c") (Some "d") 3%Z; mkPair (Some "a") (Some "e") 1%Z;
        mkPair (Some "b") (Some "f") 2%Z;
        mkPair (Some "x") None maxCost; mkPair None (Some "y") maxCost].
Proof. vm_compute. reflexivity. Qed.

Example assign_empty :
  Assign None (deltaOptions []) 0 [] [] = Some [].
Proof. vm_compute. reflexivity. Qed.

(** C4: one source ["s"] and two targets ["a"], ["b"]; the solver matches
    column 0 (target ["a"]) with the padding row 1, and the pair emitted
    for it names [targets[1]], that is ["b"], at the cost of inserting
    ["a"]: the code reads [targets[i]] where the sibling cases read
    [targets[j]]. *)
Theorem C4_insert_pair_names_wrong_target :
  let options := deltaOptions [("-", "a", 5%Z); ("-", "b", 3%Z);
                               ("s", "a", 7%Z); ("s", "b", 1%Z)] in
  optimalCost options 8
    (build_costs None options [Some "s"] [Some "a"; Some "b"] 2) = Some [1; 0] ∧
  EditCost options None (Some "a") = 5%Z ∧
  Assign None options 8 [Some "s"] [Some "a"; Some "b"] =
  Some [mkPair None (Some "b") 5%Z; mkPair (Some "s") (Some "b") 1%Z].
Proof. cbv zeta. repeat split; vm_compute; reflexivity. Qed.

(** C5, as stated, fails on the first case of the test suite: one source,
    one target, and two pairs. *)
Lemma C5_counterexample :
  ∃ result,
    Assign None (deltaOptions [("a", "b", maxCost)]) 8 [Some "a"] [Some "b"]
      = Some result ∧
    length result ≠ length [Some "a"] `max` length [Some "b"].
Proof.
  eexists. split; [exact assign_max_cost_update|]. cbn. lia.
Qed.

Lemma C5_witness :
  let sources := [Some "a"; Some "b"; Some "c"; Some "x"] in
  let result :=
    [mkPair (Some "c") (Some "d") 3%Z; mkPair (Some "a") (Some "e") 1%Z;
     mkPair (Some "b") (Some "f") 2%Z;
     mkPair (Some "x") None maxCost; mkPair None (Some "y") maxCost] in
  filter (λ x, x ≠ None) (Source <$> result) ≡ₚ filter (λ x, x ≠ None) sources.
Proof.
  intros sources result.
  destruct (C5_pairs_cover_nodes None _ _ _ _ _ assign_cheaper_updates)
    as (optimal & _ & _ & Hs & _).
  exact Hs.
Defined.

Lemma C6_witness :
  Forall (λ p, PairCost p = maxCost → Source p = None ∨ Target p = None)
         [mkPair (Some "a") None maxCost; mkPair None (Some "b") maxCost].
Proof.
  destruct (C6_max_cost_is_split None _ _ _ _ _ assign_max_cost_update)
    as (optimal & _ & _ & _ & Hp).
  apply Forall_forall. exact Hp.
Defined.

(** Integer costs keep the cost invariants, and so do the cost tables of
    the test suite when their entries lie between [0] and [maxCost]. *)
Lemma Z_cost_model (editCost : option string → option string → Z) (M : Z) :
  cost_model (Z_options editCost M) (λ x, x).
Proof. split; reflexivity. Qed.

Lemma costFunc_bounds (table : list (string * string * Z)) :
  Forall (λ e, (0 ≤ e.2 ≤ maxCost)%Z) table →
  ∀ x y, (0 ≤ costFunc table x y ≤ maxCost)%Z.
Proof.
  intros Hall x y. unfold costFunc.
  assert (HM : maxCost = 2147483648%Z) by reflexivity.
  destruct (list_find _ table) as [[i [[a b] cost]]|] eqn:E.
  - apply list_find_Some in E as (Hlk & _).
    rewrite Forall_lookup in Hall. exact (Hall i _ Hlk).
  - destruct x, y; lia.
Qed.

(** C1, as stated, fails on the first case of the test suite: the match
    of ["a"] with ["b"] at [maxCost] is split into two pairs that both
    carry [maxCost], so the pairs add up to twice the cost of the only
    one-to-one assignment. *)
Lemma C1_counterexample :
  let options := deltaOptions [("a", "b", maxCost)] in
  ∃ result σ,
    Assign None options 8 [Some "a"] [Some "b"] = Some result ∧
    σ ≡ₚ seq 0 1 ∧
    (matching_cost (λ x, x)
       (build_costs None options [Some "a"] [Some "b"] 1) σ
     < pairs_cost (λ x, x) result)%Z.
Proof.
  exists [mkPair (Some "a") None maxCost; mkPair None (Some "b") maxCost], [0].
  split; [exact assign_max_cost_update|]. split; [reflexivity|].
  vm_compute. reflexivity.
Qed.

Lemma C1_witness :
  let options := deltaOptions [("a", "b", maxCost)] in
  let costs := build_costs None options [Some "a"] [Some "b"] 1 in
  ∃ result optimal,
    Assign None options 8 [Some "a"] [Some "b"] = Some result ∧
    optimalCost options 8 costs = Some optimal ∧
    (∀ σ, σ ≡ₚ seq 0 1 →
       (matching_cost (λ x, x) costs optimal
        ≤ matching_cost (λ x, x) costs σ)%Z) ∧
    pairs_cost (λ x, x) result =
    (matching_cost (λ x, x) costs optimal +
     Z.of_nat (length (split_cells options [Some "a"] [Some "b"] costs
                         optimal 1)) * maxCost)%Z.
Proof.
  intros options costs.
  destruct (C1_matching_cost_is_minimum None options (λ x, x)
              [Some "a"] [Some "b"] 8) as (result & optimal & Hres & Hopt & _ & Hmin & Hsum).
  - apply Z_cost_model.
  - apply costFunc_bounds. repeat apply Forall_cons_2; try apply Forall_nil_2;
      vm_compute; split; discriminate.
  - reflexivity.
  - vm_compute. lia.
  - exists result, optimal. auto.
Defined.

(** C8 on a run with two sources and two targets. *)
Lemma C8_witness :
  let options := deltaOptions [("a", "c", 1%Z); ("a", "d", 2%Z);
                               ("b", "c", 3%Z); ("b", "d", 1%Z)] in
  let costs := build_costs None options [Some "a"; Some "b"]
                 [Some "c"; Some "d"] 2 in
  ∃ s, phases options 8 costs 2 = Some s ∧
       (∀ i j, i < 2 → j < 2 →
          (sourceCost s !!! i + targetCost s !!! j ≤ at2 costs i j)%Z) ∧
       (∀ i j, j < 2 → targetSource s !!! j = i → i ≠ 2 →
          (sourceCost s !!! i + targetCost s !!! j = at2 costs i j)%Z).
Proof.
  intros options costs.
  destruct (phases options 8 costs 2) as [s|] eqn:E;
    [|vm_compute in E; discriminate E].
  exists s. split; [reflexivity|].
  apply (C8_dual_feasibility options (λ x, x) costs 8 2 s).
  - apply Z_cost_model.
  - apply (build_costs_ok None options (λ x, x) [Some "a"; Some "b"]
             [Some "c"; Some "d"] (Z_cost_model _ _)).
    apply costFunc_bounds. repeat apply Forall_cons_2; try apply Forall_nil_2;
      vm_compute; split; discriminate.
  - vm_compute. lia.
  - exact E.
Defined.

(** C9, as stated, fails when [MinCost] and [MaxCost] coincide: with all
    costs zero, two sources and two targets, the search of the second
    phase comes back to target [0] with [delta = 0] for ever, whatever
    the number of iterations allowed. *)
Lemma C9_counterexample :
  let options := Z_options (λ _ _, 0%Z) 0%Z in
  cost_model options (λ x, x) ∧
  (∀ x y, (MinCost options ≤ EditCost options x y ≤ MaxCost options)%Z) ∧
  (∀ fuel,
     Assign None options fuel [Some "a"; Some "b"] [Some "c"; Some "d"]
     = None).
Proof.
  intros options. split; [apply Z_cost_model|]. split; [intros; cbn; lia|].
  intros fuel. unfold Assign. cbv zeta.
  set (costs := build_costs _ _ _ _ _).
  assert (Hnone : optimalCost options fuel costs = None); [|rewrite Hnone; reflexivity].
  unfold optimalCost, phases.
  change (length costs) with 2. cbn [seq foldl].
  destruct (phase options fuel costs 2 (init_solver options 2) 0) as [s1|] eqn:E0;
    [|reflexivity].
  assert (Hs1 : wf 2 s1).
  { apply (phase_matching options fuel costs 2 _ 0 s1
             (init_solver_wf options 2) (init_solver_matching options 2)
             ltac:(lia) E0). }
  rewrite (phase_diverge options costs 2 _ _ 1 Hs1); [reflexivity|].
  assert (Es1 : s1 = {| sourceCost := [0; 0; 0]%Z; targetCost := [0; 0; 0]%Z;
                        targetSource := [0; 2; 0];
                        minSlack := [0; 0; 0]%Z; targetTrail := [2; 2; 2];
                        visitedTarget := [false; false; true] |}).
  { destruct fuel as [|[|fuel]]; vm_compute in E0;
      [discriminate E0 | injection E0 as <-; reflexivity..]. }
  clear E0. subst s1.
  apply grow_diverge_step; [vm_compute; lia|].
  apply grow_diverge_step; [vm_compute; lia|].
  apply grow_loop; [vm_compute; lia | vm_compute; reflexivity].
Qed.

Lemma C9_witness :
  ∃ result,
    Assign None
      (deltaOptions [("a", "d", 1%Z); ("b", "e", 2%Z); ("c", "f", 4%Z);
                     ("a", "e", 1%Z); ("b", "f", 2%Z); ("c", "d", 3%Z)])
      16 [Some "a"; Some "b"; Some "c"; Some "x"]
         [Some "d"; Some "e"; Some "f"; Some "y"] = Some result.
Proof.
  refine (proj1 (C9_assign_terminates None _ (λ x, x) _ _ 16 _ _ _ _)).
  - apply Z_cost_model.
  - apply costFunc_bounds. repeat apply Forall_cons_2; try apply Forall_nil_2;
      vm_compute; split; discriminate.
  - reflexivity.
  - vm_compute. lia.
Defined.

End assign_proofs.

(** ** Package assign: the shape of the result and of the matrix *)

Module assign_extra.
Import assign assign_proofs.
Local Open Scope nat_scope.

Section Result.
Context {any : Type} `{EqDecision any} (nil : any).
Context {Cost : Type} `{CostIface Cost} `{EqDecision Cost} `{Inhabited Cost}.
Context (options : AssignOptions (any:=any) (Cost:=Cost)).

#[local] Instance any_inh2 : Inhabited any := populate nil.

(** X15: whatever the costs are, a result of [optimalCost] holds every
    row of the matrix once: it is a one-to-one assignment. *)
Theorem optimalCost_is_permutation fuel (costs : list (list Cost)) optimal :
  optimalCost options fuel costs = Some optimal →
  optimal ≡ₚ seq 0 (length costs) ∧
  length optimal = length costs ∧ NoDup optimal ∧
  ∀ j, j < length costs → optimal !!! j < length costs.
Proof.
  intros Hopt.
  pose proof (optimalCost_perm options fuel costs optimal Hopt) as P.
  split; [exact P|]. split; [rewrite P; apply length_seq|]. split.
  - rewrite P. apply NoDup_seq.
  - intros j Hj. apply (perm_seq_lookup optimal _ j P Hj).
Qed.

(** X16: whatever the costs are, after [k] phases the sources below [k]
    are matched with one target each, and the other targets are free. *)
Theorem phases_partial_matching fuel (costs : list (list Cost)) k s :
  k ≤ length costs →
  phases options fuel costs k = Some s →
  length (targetSource s) = S (length costs) ∧
  take (length costs) (targetSource s)
  ≡ₚ seq 0 k ++ replicate (length costs - k) (length costs).
Proof.
  intros Hk Hp.
  destruct (phases_matching options fuel costs k s Hk Hp) as [_ Hm].
  exact Hm.
Qed.

Lemma concat_singletons {A B} (h : A → B) (l : list A) :
  concat ((λ j, [h j]) <$> l) = h <$> l.
Proof.
  induction l as [|x l IH]; [reflexivity|].
  cbn [fmap list_fmap concat app]. cbn [fmap] in IH. rewrite IH. reflexivity.
Qed.

Lemma pairs_singletons sources targets (costs : list (list Cost)) optimal
    (G : nat → Pair (any:=any) (Cost:=Cost)) size :
  length optimal = size →
  (∀ j, j < size →
     pairs_of nil options sources targets costs optimal j = [G j]) →
  concat (pairs_of nil options sources targets costs optimal <$> seq 0 size)
  = G <$> seq 0 size.
Proof.
  intros Hlen HG.
  transitivity (concat ((λ j, [G j]) <$> seq 0 size));
    [|apply concat_singletons].
  f_equal. apply list_fmap_ext. intros i j Hj.
  apply lookup_seq in Hj as [-> Hj]. apply HG. exact Hj.
Qed.

(** X17: without targets every source is deleted: the result holds, for
    each source, the pair of that source with nil at the cost
    [EditCost(source, nil)], in the order of the matching. *)
Theorem Assign_sources_only fuel sources result :
  Assign nil options fuel sources [] = Some result →
  result ≡ₚ (λ x, mkPair x nil (EditCost options x nil)) <$> sources.
Proof.
  intros HA.
  destruct (Assign_inv nil options fuel sources [] result HA)
    as (optimal & _ & Hperm & ->).
  pose proof (build_costs_spec nil options sources []) as Hs.
  cbv zeta in Hperm, Hs |- *. cbn [length] in Hperm, Hs |- *.
  rewrite bool_decide_eq_false_2 in Hperm, Hs |- * by lia.
  destruct Hs as [_ Hcell].
  assert (Hlen : length optimal = length sources)
    by (rewrite Hperm; apply length_seq).
  set (G := λ x, mkPair x nil (EditCost options x nil)).
  rewrite (pairs_singletons sources [] _ optimal
             (λ j, G (sources !!! (optimal !!! j))) _ Hlen).
  - rewrite <- Hlen.
    rewrite (fmap_lookup_seq (λ i, G (sources !!! i)) optimal).
    rewrite Hperm, (fmap_lookup_seq G sources). reflexivity.
  - intros j Hj.
    pose proof (perm_seq_lookup optimal _ j Hperm Hj) as Hi.
    unfold pairs_of, emit. cbv zeta. cbn [length].
    rewrite bool_decide_eq_false_2 by lia.
    rewrite bool_decide_eq_true_2 by lia.
    rewrite (Hcell _ j Hi Hj). unfold cell_cost. cbn [length].
    rewrite bool_decide_eq_false_2 by lia.
    rewrite bool_decide_eq_true_2 by lia. reflexivity.
Qed.

(** X18: without sources every pair is an insert pair.  The costs are
    those of inserting the targets, in the order of the targets; every
    target is the [Target] of one pair, though not always of the pair
    that carries its cost. *)
Theorem Assign_targets_only fuel targets result :
  Assign nil options fuel [] targets = Some result →
  Forall (λ p, Source p = nil) result ∧
  PairCost <$> result = (λ y, EditCost options nil y) <$> targets ∧
  Target <$> result ≡ₚ targets.
Proof.
  intros HA.
  destruct (Assign_inv nil options fuel [] targets result HA)
    as (optimal & _ & Hperm & ->).
  pose proof (build_costs_spec nil options [] targets) as Hs.
  cbv zeta in Hperm, Hs |- *. cbn [length] in Hperm, Hs |- *.
  assert (Esize : (if bool_decide (0 < length targets) then length targets
                   else 0) = length targets) by (case_bool_decide; lia).
  rewrite Esize in Hperm, Hs |- *. destruct Hs as [_ Hcell].
  assert (Hlen : length optimal = length targets)
    by (rewrite Hperm; apply length_seq).
  rewrite (pairs_singletons [] targets _ optimal
             (λ j, mkPair nil (targets !!! (optimal !!! j))
                     (EditCost options nil (targets !!! j))) _ Hlen).
  - split; [|split].
    + apply Forall_fmap, Forall_forall. intros j _. reflexivity.
    + rewrite <- list_fmap_compose.
      apply (fmap_lookup_seq (λ y, EditCost options nil y) targets).
    + rewrite <- list_fmap_compose.
      change (Target ∘ _) with (λ j, targets !!! (optimal !!! j)).
      rewrite <- Hlen.
      rewrite (fmap_lookup_seq (λ i, targets !!! i) optimal).
      rewrite Hperm, (fmap_lookup_seq (λ y, y) targets), list_fmap_id.
      reflexivity.
  - intros j Hj.
    pose proof (perm_seq_lookup optimal _ j Hperm Hj) as Hi.
    unfold pairs_of, emit. cbv zeta. cbn [length].
    rewrite bool_decide_eq_false_2 by lia.
    rewrite bool_decide_eq_false_2 by lia.
    rewrite bool_decide_eq_true_2 by lia.
    rewrite (Hcell _ j Hi Hj). unfold cell_cost. cbn [length].
    rewrite bool_decide_eq_false_2 by lia.
    rewrite bool_decide_eq_false_2 by lia.
    rewrite bool_decide_eq_true_2 by lia. reflexivity.
Qed.

(** *** The matrix *)

(** X19: the matrix [Assign] builds is square of side the greater of the
    two lengths, and every cell holds an edit cost: that of the source
    of its row, nil past the sources, and of the target of its column,
    nil past the targets.  No cell is left at [MinCost]: a row past the
    sources and a column past the targets never meet. *)
Theorem Assign_matrix_cells sources targets :
  let n := length sources in
  let m := length targets in
  let size := if bool_decide (n < m) then m else n in
  let costs := build_costs nil options sources targets size in
  size = n `max` m ∧ length costs = size ∧
  ∀ i j, i < size → j < size →
    length (costs !!! i) = size ∧ (i < n ∨ j < m) ∧
    at2 costs i j =
    EditCost options (if bool_decide (i < n) then sources !!! i else nil)
                     (if bool_decide (j < m) then targets !!! j else nil).
Proof.
  intros n m size costs.
  destruct (build_costs_spec nil options sources targets) as [[Hlen Hrow] Hcell].
  fold n m size costs in Hlen, Hrow, Hcell.
  assert (Hsize : size = n `max` m) by (unfold size; case_bool_decide; lia).
  split; [exact Hsize|]. split; [exact Hlen|].
  intros i j Hi Hj. split; [apply Hrow, Hi|]. split; [lia|].
  rewrite (Hcell i j Hi Hj). unfold cell_cost. fold n m.
  repeat case_bool_decide; try reflexivity; lia.
Qed.

(** *** The pairs *)

(** X20: the nodes of a pair come from the two lists, and a pair that
    has both a source and a target carries their own edit cost, which is
    not [MaxCost]. *)
Theorem Assign_pairs_from_inputs fuel sources targets result :
  Assign nil options fuel sources targets = Some result →
  ∀ p, p ∈ result →
    (Source p = nil ∨ Source p ∈ sources) ∧
    (Target p = nil ∨ Target p ∈ targets) ∧
    (Source p ≠ nil → Target p ≠ nil →
     PairCost p = EditCost options (Source p) (Target p) ∧
     PairCost p ≠ MaxCost options).
Proof.
  intros HA p Hp.
  destruct (Assign_inv nil options fuel sources targets result HA)
    as (optimal & _ & Hperm & Hres).
  destruct (build_costs_spec nil options sources targets) as [_ Hcell].
  cbv zeta in Hperm, Hres, Hcell.
  set (n := length sources) in *. set (m := length targets) in *.
  set (size := if bool_decide (n < m) then m else n) in *.
  rewrite Hres in Hp.
  apply elem_of_concat in Hp as (l & Hl & Hp).
  apply list_elem_of_fmap in Hl as (j & -> & Hj).
  apply elem_of_seq in Hj.
  pose proof (perm_seq_lookup optimal size j Hperm ltac:(lia)) as Hi.
  assert (Hsize : size = n `max` m) by (unfold size; case_bool_decide; lia).
  unfold pairs_of, emit in Hp. cbv zeta in Hp. fold n m in Hp.
  rewrite (Hcell _ j Hi ltac:(lia)) in Hp. unfold cell_cost in Hp.
  fold n m in Hp.
  assert (Hin : ∀ (l : list any) i, i < length l → l !!! i ∈ l)
    by (intros l0 i0 Hl0; apply list_elem_of_lookup_total_2; exact Hl0).
  repeat case_bool_decide; cbn [app] in Hp;
    repeat (apply elem_of_cons in Hp as [->|Hp]);
    cbn [Source Target PairCost];
    try (inversion Hp; fail);
    (split; [|split]);
    try (left; reflexivity);
    try (right; apply Hin; fold n m; lia);
    try (intros Hs Ht; contradiction);
    try lia.
  intros _ _. split; [reflexivity | assumption].
Qed.

(** X21: the result has at least as many pairs as the longer list and
    at most as many as the two lists together. *)
Theorem Assign_length_bounds fuel sources targets result :
  Assign nil options fuel sources targets = Some result →
  length sources `max` length targets ≤ length result
  ≤ length sources + length targets.
Proof.
  intros HA.
  destruct (Assign_inv nil options fuel sources targets result HA)
    as (optimal & _ & Hperm & Hres).
  cbv zeta in Hperm, Hres.
  set (n := length sources) in *. set (m := length targets) in *.
  set (size := if bool_decide (n < m) then m else n) in *.
  set (costs := build_costs nil options sources targets size) in *.
  assert (Hsize : size = n `max` m) by (unfold size; case_bool_decide; lia).
  set (P := λ j, optimal !!! j < n ∧ j < m ∧
                 at2 costs (optimal !!! j) j = MaxCost options).
  assert (Hlen : length result = size + length (filter P (seq 0 size))).
  { rewrite Hres, (length_concat_pairs _ P).
    - rewrite length_seq. reflexivity.
    - intros j Hj. apply elem_of_seq in Hj. apply length_pairs.
      pose proof (perm_seq_lookup optimal size j Hperm ltac:(lia)) as Hi.
      fold n m. lia. }
  (* the split columns lie below [m], and their rows, all different,
     below [n] *)
  assert (Hm : length (filter P (seq 0 size)) ≤ m).
  { apply (trail_length m).
    - apply NoDup_filter, NoDup_seq.
    - apply Forall_forall. intros j Hj.
      apply list_elem_of_filter in Hj as [(_ & Hjm & _) _]. exact Hjm. }
  assert (Hn : length (filter P (seq 0 size)) ≤ n).
  { rewrite <- (length_fmap (λ j, optimal !!! j)).
    apply (trail_length n).
    - apply NoDup_fmap_2_strong; [|apply NoDup_filter, NoDup_seq].
      intros j1 j2 H1 H2 E.
      apply list_elem_of_filter in H1 as [_ H1].
      apply list_elem_of_filter in H2 as [_ H2].
      apply elem_of_seq in H1, H2.
      assert (Hl : length optimal = size) by (rewrite Hperm; apply length_seq).
      assert (Hnd : NoDup optimal) by (rewrite Hperm; apply NoDup_seq).
      apply (NoDup_lookup optimal j1 j2 (optimal !!! j1) Hnd).
      + apply list_lookup_lookup_total_lt. lia.
      + rewrite E. apply list_lookup_lookup_total_lt. lia.
    - apply Forall_fmap, Forall_forall. intros j Hj.
      apply list_elem_of_filter in Hj as [(Hin & _) _]. exact Hin. }
  lia.
Qed.

(** X22: when no edit cost between a source and a target is [MaxCost],
    no match is split: the result has as many pairs as the longer list. *)
Theorem Assign_no_split fuel sources targets result :
  Assign nil options fuel sources targets = Some result →
  (∀ x y, x ∈ sources → y ∈ targets →
     EditCost options x y ≠ MaxCost options) →
  length result = length sources `max` length targets.
Proof.
  intros HA Hne.
  destruct (Assign_inv nil options fuel sources targets result HA)
    as (optimal & _ & Hperm & Hres).
  destruct (build_costs_spec nil options sources targets) as [_ Hcell].
  cbv zeta in Hperm, Hres, Hcell.
  set (n := length sources) in *. set (m := length targets) in *.
  set (size := if bool_decide (n < m) then m else n) in *.
  set (costs := build_costs nil options sources targets size) in *.
  assert (Hsize : size = n `max` m) by (unfold size; case_bool_decide; lia).
  set (P := λ j, optimal !!! j < n ∧ j < m ∧
                 at2 costs (optimal !!! j) j = MaxCost options).
  assert (Hlen : length result = size + length (filter P (seq 0 size))).
  { rewrite Hres, (length_concat_pairs _ P).
    - rewrite length_seq. reflexivity.
    - intros j Hj. apply elem_of_seq in Hj. apply length_pairs.
      pose proof (perm_seq_lookup optimal size j Hperm ltac:(lia)) as Hi.
      fold n m. lia. }
  assert (Hnil : filter P (seq 0 size) = []).
  { apply elem_of_nil_inv. intros j Hj.
    apply list_elem_of_filter in Hj as [(Hi & Hj & Hc) Hin].
    apply elem_of_seq in Hin.
    rewrite (Hcell _ j) in Hc by lia. unfold cell_cost in Hc. fold n m in Hc.
    rewrite bool_decide_eq_true_2 in Hc by auto.
    apply (Hne _ _ (list_elem_of_lookup_total_2 sources _ Hi)
             (list_elem_of_lookup_total_2 targets _ Hj) Hc). }
  rewrite Hlen, Hnil. cbn [length]. lia.
Qed.

End Result.

(** *** The potentials between two phases *)

Section Signs.
Context (n r : nat) (c : nat → nat → Z) (M : Z).
Context (a a' : view) (cur nxt : nat) (d : Z).
Context (I : tree_inv n r c M a cur).
Context (Hgo : vts a cur ≠ n).
Context (St : astep n c M a cur a' nxt d).

Local Open Scope Z_scope.

(** One iteration of the search raises potentials of sources and
    lowers potentials of targets, never the other way round. *)
Lemma step_signs :
  (∀ j, (j ≤ n)%nat → vv a j ≤ 0 ∧ 0 ≤ vu a j) →
  ∀ j, (j ≤ n)%nat → vv a' j ≤ 0 ∧ 0 ≤ vu a' j.
Proof.
  intros Hs j Hj. destruct (Hs j Hj) as [Hv Hu].
  pose proof (d_nonneg _ _ _ _ _ _ _ _ _ I Hgo St) as Hd.
  split.
  - rewrite (as_v _ _ _ _ _ _ _ _ St j Hj). destruct (mark a cur j); lia.
  - destruct (in_tree_dec _ _ _ _ _ _ I Hgo j Hj) as [Hin|Hout].
    + rewrite (as_u_in _ _ _ _ _ _ _ _ St j Hj Hin). lia.
    + rewrite (as_u_out _ _ _ _ _ _ _ _ St j Hj Hout). lia.
Qed.

End Signs.

Lemma zsum_replicate_0 {A} (g : A → Z) (x : A) (k : nat) :
  g x = 0%Z → foldr Z.add 0%Z (g <$> replicate k x) = 0%Z.
Proof.
  intros Hx. induction k as [|k IH]; [reflexivity|].
  cbn [replicate]. rewrite fmap_cons. cbn [foldr]. lia.
Qed.

Lemma zsum_app (l k : list Z) :
  foldr Z.add 0%Z (l ++ k) = (foldr Z.add 0%Z l + foldr Z.add 0%Z k)%Z.
Proof.
  induction l as [|x l IH]; cbn [app foldr]; [lia|]. rewrite IH. lia.
Qed.

Lemma zsum_nonpos {A} (g : A → Z) (l : list A) :
  (∀ x, x ∈ l → (g x ≤ 0)%Z) → (foldr Z.add 0%Z (g <$> l) ≤ 0)%Z.
Proof.
  induction l as [|x l IH]; intros Hl; [cbn; lia|].
  rewrite fmap_cons. cbn [foldr].
  pose proof (Hl x ltac:(left)).
  assert (IH' := IH (λ y Hy, Hl y (list_elem_of_further _ _ _ Hy))). lia.
Qed.

(** A sum of non-positive terms over some of the indices below [n] is
    at least the sum over all of them. *)
Lemma zsum_sub (v : nat → Z) (n : nat) (τ : list nat) :
  NoDup τ → Forall (λ j, j < n) τ → (∀ j, j < n → (v j ≤ 0)%Z) →
  (foldr Z.add 0%Z (v <$> seq 0 n) ≤ foldr Z.add 0%Z (v <$> τ))%Z.
Proof.
  intros Hnd Hall Hv.
  assert (Hsub : τ ⊆+ seq 0 n).
  { apply NoDup_submseteq; [exact Hnd|]. intros x Hx.
    rewrite Forall_forall in Hall. apply elem_of_seq.
    specialize (Hall x Hx). lia. }
  apply submseteq_Permutation in Hsub as [rest Hrest].
  rewrite (zsum_perm _ _ (fmap_Permutation v _ _ Hrest)).
  rewrite fmap_app, zsum_app.
  assert (Hr : (foldr Z.add 0%Z (v <$> rest) ≤ 0)%Z).
  { apply zsum_nonpos. intros x Hx. apply Hv.
    assert (Hin : x ∈ seq 0 n) by (rewrite Hrest; apply elem_of_app; auto).
    apply elem_of_seq in Hin. lia. }
  lia.
Qed.

Section Potentials.
Context {any : Type} {Cost : Type} `{CostIface Cost} `{Inhabited Cost}.
Context (options : AssignOptions (any:=any) (Cost:=Cost)).
Context (val : Cost → Z) (HM : cost_model options val).
Context (costs : list (list Cost)) (n : nat).
Context (Hok : costs_ok options val n costs).
Implicit Types (s : solver (Cost:=Cost)).

Local Open Scope Z_scope.

#[local] Abbreviation cz := (λ i j : nat, val (at2 costs i j)).
#[local] Abbreviation Mz := (val (MaxCost options)).
#[local] Abbreviation signs s :=
  (∀ j, (j ≤ n)%nat →
     val (targetCost s !!! j) ≤ 0 ∧ 0 ≤ val (sourceCost s !!! j)).

Lemma grow_signs r : ∀ fuel s cur s' cur',
  wf n s → tree_inv n r cz Mz (view_of val s) cur → signs s →
  grow options fuel costs n s cur = Some (s', cur') → signs s'.
Proof.
  induction fuel as [|fuel IH]; intros s cur s' cur' Hwf I Hs Hg;
    cbn [grow] in Hg;
    destruct (decide (targetSource s !!! cur ≠ n)) as [Hgo|Hstop].
  - rewrite bool_decide_eq_true_2 in Hg by exact Hgo. discriminate Hg.
  - rewrite bool_decide_eq_false_2 in Hg by exact Hstop.
    injection Hg as <- <-. exact Hs.
  - rewrite bool_decide_eq_true_2 in Hg by exact Hgo.
    destruct (grow_step options costs n s cur) as [s1 nxt] eqn:Hstep.
    destruct (grow_step_tree options val HM costs n r s cur s1 nxt Hwf I
                Hgo Hstep) as (Hwf1 & I1 & _).
    destruct (grow_step_astep options val HM costs n s cur s1 nxt Hwf
                (ti_cur _ _ _ _ _ _ I)
                (marked_range _ _ _ _ _ _ I Hgo)
                (marked_inj _ _ _ _ _ _ I Hgo) Hstep) as [d St].
    apply (IH s1 nxt s' cur' Hwf1 I1); [|exact Hg].
    exact (step_signs n r cz Mz _ _ cur nxt d I Hgo St Hs).
  - rewrite bool_decide_eq_false_2 in Hg by exact Hstop.
    injection Hg as <- <-. exact Hs.
Qed.

Lemma phase_signs fuel r s s' :
  (r < n)%nat → phase_inv val costs n r s → signs s →
  phase options fuel costs n s r = Some s' → signs s'.
Proof.
  intros Hr Hinv Hs Hph. pose proof Hinv as (Hwf & _).
  rewrite (phase_unfold options costs n fuel s r Hwf) in Hph.
  set (s2 := {| sourceCost := sourceCost s; targetCost := targetCost s;
                targetSource := <[n := r]> (targetSource s);
                minSlack := replicate (S n) (MaxCost options);
                targetTrail := replicate (S n) n;
                visitedTarget := replicate (S n) false |}) in Hph.
  pose proof (start_tree options val costs n Hok r s s2 Hr Hinv eq_refl
                eq_refl eq_refl eq_refl eq_refl eq_refl) as I2.
  destruct (grow options fuel costs n s2 n) as [[s3 cur]|] eqn:Hg;
    [|discriminate Hph].
  pose proof (grow_signs r fuel s2 n s3 cur (start_wf options n s r Hwf) I2
                Hs Hg) as Hs3.
  destruct (flip fuel n (targetTrail s3) (targetSource s3) cur) as [ts'|];
    [|discriminate Hph].
  injection Hph as <-. exact Hs3.
Qed.

Lemma phases_signs fuel : ∀ k s,
  (k ≤ n)%nat → phases options fuel costs k = Some s → signs s.
Proof.
  induction k as [|k IH]; intros s Hk Hp.
  - unfold phases in Hp. cbn [seq foldl] in Hp. injection Hp as <-.
    intros j Hj. rewrite (length_costs options val costs n Hok).
    rewrite init_solver_eq. cbn [sourceCost targetCost].
    rewrite !lookup_total_replicate_2 by lia.
    rewrite (val_min _ _ HM). lia.
  - unfold phases in Hp. rewrite foldl_seq_S in Hp.
    destruct (foldl _ (Some (init_solver options (length costs))) (seq 0 k))
      as [s0|] eqn:E; [|discriminate Hp].
    rewrite (length_costs options val costs n Hok) in Hp.
    apply (phase_signs fuel k s0 s ltac:(lia)); [| |exact Hp].
    + apply (phases_inv options val HM costs n Hok fuel k s0); [lia | exact E].
    + apply (IH s0); [lia | exact E].
Qed.

(** The cost of the partial matching is the sum of the potentials. *)
Lemma matched_cost_potentials fuel k s :
  (k ≤ n)%nat → phases options fuel costs k = Some s →
  matched_cost val costs n (targetSource s) =
  foldr Z.add 0 ((λ i, val (sourceCost s !!! i)) <$> seq 0 k) +
  foldr Z.add 0 ((λ j, val (targetCost s !!! j)) <$> seq 0 n).
Proof.
  intros Hk Hp.
  destruct (phases_inv options val HM costs n Hok fuel k s Hk Hp)
    as (Hwf & [Hlen Hmt] & _ & Htight & Hvfree & _).
  set (u := λ i : nat, val (sourceCost s !!! i)).
  set (v := λ j : nat, val (targetCost s !!! j)).
  set (U := λ x : nat, if bool_decide (x ≠ n) then u x else 0).
  unfold matched_cost.
  rewrite (zsum_ext _ (λ j, U (targetSource s !!! j) + v j)).
  - rewrite zsum_add. f_equal.
    assert (E : (λ j, U (targetSource s !!! j)) <$> seq 0 n
                = U <$> take n (targetSource s)).
    { rewrite <- (fmap_lookup_seq U (take n (targetSource s))).
      rewrite length_take, Nat.min_l by lia.
      apply list_fmap_ext. intros i j Hj. apply lookup_seq in Hj as [-> Hj].
      rewrite !list_lookup_total_alt, lookup_take_lt by exact Hj.
      reflexivity. }
    rewrite E, (zsum_perm _ _ (fmap_Permutation U _ _ Hmt)).
    rewrite fmap_app, zsum_app, zsum_replicate_0.
    + rewrite Z.add_0_r. apply zsum_ext. intros i Hi.
      apply elem_of_seq in Hi. unfold U.
      rewrite bool_decide_eq_true_2 by lia. reflexivity.
    + unfold U. rewrite bool_decide_eq_false_2; [reflexivity|].
      intros Hc. apply Hc. reflexivity.
  - intros j Hj. apply elem_of_seq in Hj. unfold U.
    case_bool_decide as Hts.
    + symmetry. apply (Htight j); [lia | exact Hts].
    + unfold v. rewrite (Hvfree j); [lia | lia |].
      destruct (decide (targetSource s !!! j = n)); [assumption|contradiction].
Qed.

End Potentials.

(** X23: between two phases no potential of a source is below [MinCost]
    (read as 0) and no potential of a target is above it. *)
Theorem potentials_signs {any Cost : Type} `{CostIface Cost}
    `{Inhabited Cost} (options : AssignOptions (any:=any) (Cost:=Cost))
    (val : Cost → Z) (costs : list (list Cost)) (fuel k : nat)
    (s : solver (Cost:=Cost)) :
  cost_model options val →
  costs_ok options val (length costs) costs →
  k ≤ length costs →
  phases options fuel costs k = Some s →
  ∀ j, j ≤ length costs →
    (val (targetCost s !!! j) ≤ 0 ∧ 0 ≤ val (sourceCost s !!! j))%Z.
Proof.
  intros HM Hok Hk Hp.
  exact (phases_signs options val HM costs (length costs) Hok fuel k s Hk Hp).
Qed.

(** X24: between two phases the cost of the partial matching is the sum
    of the potentials of the sources already processed and of all the
    targets. *)
Theorem matched_cost_is_dual_value {any Cost : Type} `{CostIface Cost}
    `{Inhabited Cost} (options : AssignOptions (any:=any) (Cost:=Cost))
    (val : Cost → Z) (costs : list (list Cost)) (fuel k : nat)
    (s : solver (Cost:=Cost)) :
  cost_model options val →
  costs_ok options val (length costs) costs →
  k ≤ length costs →
  phases options fuel costs k = Some s →
  matched_cost val costs (length costs) (targetSource s) =
  (foldr Z.add 0 ((λ i, val (sourceCost s !!! i)) <$> seq 0 k) +
   foldr Z.add 0 ((λ j, val (targetCost s !!! j))
                    <$> seq 0 (length costs)))%Z.
Proof.
  intros HM Hok Hk Hp.
  exact (matched_cost_potentials options val HM costs (length costs) Hok
           fuel k s Hk Hp).
Qed.

(** X25: after [k] phases the partial matching is a cheapest way to give
    the sources below [k] one target each: no list [τ] of [k] different
    targets costs less. *)
Theorem partial_matching_is_optimal {any Cost : Type} `{CostIface Cost}
    `{Inhabited Cost} (options : AssignOptions (any:=any) (Cost:=Cost))
    (val : Cost → Z) (costs : list (list Cost)) (fuel k : nat)
    (s : solver (Cost:=Cost)) (τ : list nat) :
  cost_model options val →
  costs_ok options val (length costs) costs →
  k ≤ length costs →
  phases options fuel costs k = Some s →
  length τ = k → NoDup τ → Forall (λ j, j < length costs) τ →
  (matched_cost val costs (length costs) (targetSource s)
   ≤ rows_cost val costs τ)%Z.
Proof.
  intros HM Hok Hk Hp Hlen Hnd Hall.
  set (n := length costs) in *.
  rewrite (matched_cost_potentials options val HM costs n Hok fuel k s Hk Hp).
  pose proof (phases_signs options val HM costs n Hok fuel k s Hk Hp) as Hs.
  destruct (phases_inv options val HM costs n Hok fuel k s Hk Hp)
    as (_ & _ & Hfeas & _).
  set (u := λ i : nat, val (sourceCost s !!! i)).
  set (v := λ j : nat, val (targetCost s !!! j)).
  unfold rows_cost. rewrite Hlen.
  transitivity (foldr Z.add 0%Z ((λ i, u i + v (τ !!! i))%Z <$> seq 0 k)).
  - rewrite zsum_add.
    assert (E : (λ i, v (τ !!! i)) <$> seq 0 k = v <$> τ).
    { rewrite <- Hlen. apply (fmap_lookup_seq v τ). }
    rewrite E.
    pose proof (zsum_sub v n τ Hnd Hall
                  (λ j Hj, proj1 (Hs j ltac:(lia)))) as Hsub.
    fold u. lia.
  - apply zsum_le. intros i Hi. apply elem_of_seq in Hi.
    apply Hfeas; [lia|].
    rewrite Forall_forall in Hall. apply Hall.
    apply list_elem_of_lookup_total_2. lia.
Qed.

(** *** Unsigned 32-bit costs *)

Local Open Scope string_scope.

(** [maxCost + maxCost] wraps to [minCost]. *)
Lemma uintCost_no_reading
    (editCost : option string → option string → Z) (val : Z → Z) :
  val (MinCost (uint_options editCost)) ≠ 0%Z ∨
  Less (MinCost (uint_options editCost)) (MaxCost (uint_options editCost))
    ≠ bool_decide (val (MinCost (uint_options editCost))
                   < val (MaxCost (uint_options editCost)))%Z ∨
  val (AddCost (uint_options editCost) (MaxCost (uint_options editCost))
         (MaxCost (uint_options editCost)))
    ≠ (val (MaxCost (uint_options editCost))
       + val (MaxCost (uint_options editCost)))%Z.
Proof.
  cbn [AddCost MinCost MaxCost uint_options].
  change (wrap32 (maxCost + maxCost)) with 0%Z.
  change (Less 0%Z maxCost) with true.
  destruct (decide (val 0%Z = 0%Z)) as [E0|N0]; [|left; exact N0].
  right. destruct (decide (0 < val maxCost)%Z) as [Hp|Hn].
  - right. lia.
  - left. rewrite E0, bool_decide_eq_false_2 by exact Hn. discriminate.
Qed.

(** Hence no reading of these costs satisfies the cost invariants. *)
Lemma uint_options_no_cost_model
    (editCost : option string → option string → Z) (val : Z → Z) :
  ¬ cost_model (uint_options editCost) val.
Proof.
  intros HM.
  destruct (uintCost_no_reading editCost val) as [Hm|[Hl|Ha]].
  - apply Hm, (val_min _ _ HM).
  - apply Hl, (val_less _ _ HM).
  - apply Ha, (val_add _ _ HM).
Qed.

(** X26: the cost type of the test suite and of the examples does not
    keep the cost invariants: since [maxCost + maxCost] wraps to
    [minCost], every reading [val] of the costs as integers misses one of
    them, at [minCost], at [Less(minCost, maxCost)] or at
    [addCost(maxCost, maxCost)]. *)
Theorem uintCost_is_no_ordered_group
    (editCost : option string → option string → Z) (val : Z → Z) :
  val (MinCost (uint_options editCost)) ≠ 0%Z ∨
  Less (MinCost (uint_options editCost)) (MaxCost (uint_options editCost))
    ≠ bool_decide (val (MinCost (uint_options editCost))
                   < val (MaxCost (uint_options editCost)))%Z ∨
  val (AddCost (uint_options editCost) (MaxCost (uint_options editCost))
         (MaxCost (uint_options editCost)))
    ≠ (val (MaxCost (uint_options editCost))
       + val (MaxCost (uint_options editCost)))%Z.
Proof. apply uintCost_no_reading. Qed.

(** X27: with that cost type [Assign] is not always optimal.  For three
    sources and three targets whose costs are [0], [1] or [maxCost], the
    slack [maxCost - 0 - (0 - maxCost)] wraps to [0] in the third phase;
    the matching returned costs [3 * maxCost], where integer arithmetic
    finds one that costs [maxCost]. *)
Theorem uintCost_run_not_optimal :
  let table := [("a", "d", 0%Z); ("b", "d", 0%Z); ("c", "e", 0%Z);
                ("c", "f", 1%Z)] in
  let sources := [Some "a"; Some "b"; Some "c"] in
  let targets := [Some "d"; Some "e"; Some "f"] in
  let costs := build_costs None (uintOptions table) sources targets 3 in
  (∀ i j, i < 3 → j < 3 → (0 ≤ at2 costs i j ≤ maxCost)%Z) ∧
  optimalCost (uintOptions table) 16 costs = Some [2; 1; 0] ∧
  matching_cost (λ x, x) costs [2; 1; 0] = (3 * maxCost)%Z ∧
  optimalCost (deltaOptions table) 16 costs = Some [0; 2; 1] ∧
  matching_cost (λ x, x) costs [0; 2; 1] = maxCost ∧
  Assign None (uintOptions table) 16 sources targets =
  Some [mkPair (Some "c") None maxCost; mkPair None (Some "d") maxCost;
        mkPair (Some "b") None maxCost; mkPair None (Some "e") maxCost;
        mkPair (Some "a") None maxCost; mkPair None (Some "f") maxCost].
Proof.
  cbv zeta. split.
  - intros i j Hi Hj.
    destruct i as [|[|[|i]]], j as [|[|[|j]]]; try lia;
      vm_compute; split; discriminate.
  - repeat split; vm_compute; reflexivity.
Qed.

(** *** Concrete instances *)

Local Open Scope Z_scope.

Lemma run2_ok :
  let options := deltaOptions [("a", "c", 1); ("a", "d", 2);
                               ("b", "c", 3); ("b", "d", 1)] in
  let costs := build_costs None options [Some "a"; Some "b"]
                 [Some "c"; Some "d"] 2 in
  cost_model options (λ x, x) ∧
  costs_ok options (λ x, x) (length costs) costs.
Proof.
  intros options costs. split; [apply Z_cost_model|].
  apply (build_costs_ok None options (λ x, x) [Some "a"; Some "b"]
           [Some "c"; Some "d"] (Z_cost_model _ _)).
  apply costFunc_bounds. repeat apply Forall_cons_2; try apply Forall_nil_2;
    vm_compute; split; discriminate.
Qed.

Lemma optimalCost_is_permutation_witness :
  let options := deltaOptions [("-", "a", 5); ("-", "b", 3);
                               ("s", "a", 7); ("s", "b", 1)] in
  let costs := build_costs None options [Some "s"] [Some "a"; Some "b"] 2 in
  [1; 0]%nat ≡ₚ seq 0 (length costs) ∧
  length [1; 0]%nat = length costs ∧ NoDup [1; 0]%nat ∧
  Forall (λ j, ([1; 0] !!! j < length costs)%nat) [0; 1]%nat.
Proof.
  intros options costs.
  destruct (optimalCost_is_permutation options 8 costs [1; 0]%nat)
    as (P & L & N & B); [vm_compute; reflexivity|].
  split; [exact P|]. split; [exact L|]. split; [exact N|].
  repeat constructor; apply B; vm_compute; lia.
Defined.

Lemma phases_partial_matching_witness :
  let options := deltaOptions [("a", "c", 1); ("a", "d", 2);
                               ("b", "c", 3); ("b", "d", 1)] in
  let costs := build_costs None options [Some "a"; Some "b"]
                 [Some "c"; Some "d"] 2 in
  ∃ s, phases options 8 costs 1 = Some s ∧
       length (targetSource s) = S (length costs) ∧
       take (length costs) (targetSource s)
       ≡ₚ (seq 0 1 ++ replicate (length costs - 1) (length costs))%list.
Proof.
  intros options costs.
  destruct (phases options 8 costs 1) as [s|] eqn:E;
    [|vm_compute in E; discriminate E].
  exists s. split; [reflexivity|].
  apply (phases_partial_matching options 8 costs 1 s); [vm_compute; lia | exact E].
Defined.

Lemma Assign_sources_only_witness :
  ∃ result,
    Assign None (deltaOptions []) 8 [Some "a"; Some "b"] [] = Some result ∧
    result ≡ₚ [mkPair (Some "a") None (maxCost - 1);
               mkPair (Some "b") None (maxCost - 1)].
Proof.
  destruct (Assign None (deltaOptions []) 8 [Some "a"; Some "b"] [])
    as [result|] eqn:E; [|vm_compute in E; discriminate E].
  exists result. split; [reflexivity|].
  apply (Assign_sources_only None (deltaOptions []) 8 [Some "a"; Some "b"]
           result E).
Defined.

Lemma Assign_targets_only_witness :
  ∃ result,
    Assign None (deltaOptions [("-", "a", 5); ("-", "b", 3)]) 8 []
           [Some "a"; Some "b"] = Some result ∧
    Forall (λ p, Source p = None) result ∧
    PairCost <$> result = [5; 3] ∧
    Target <$> result ≡ₚ [Some "a"; Some "b"].
Proof.
  destruct (Assign None (deltaOptions [("-", "a", 5); ("-", "b", 3)]) 8 []
              [Some "a"; Some "b"]) as [result|] eqn:E;
    [|vm_compute in E; discriminate E].
  exists result. split; [reflexivity|].
  apply (Assign_targets_only None _ 8 [Some "a"; Some "b"] result E).
Defined.

Lemma Assign_pairs_from_inputs_witness :
  Forall (λ p : Pair (any:=option string) (Cost:=Z),
            Source p ≠ None → Target p ≠ None → PairCost p ≠ maxCost)
    [mkPair (Some "c") (Some "d") 3; mkPair (Some "a") (Some "e") 1;
     mkPair (Some "b") (Some "f") 2;
     mkPair (Some "x") None maxCost; mkPair None (Some "y") maxCost].
Proof.
  apply Forall_forall. intros p Hp Hs Ht.
  destruct (Assign_pairs_from_inputs None _ _ _ _ _ assign_cheaper_updates
              p Hp) as (_ & _ & Hc).
  apply (Hc Hs Ht).
Defined.

Lemma Assign_length_bounds_witness :
  (length [Some "a"; Some "b"; Some "c"; Some "x"]
   `max` length [Some "d"; Some "e"; Some "f"; Some "y"]
   ≤ length [mkPair (Some "c") (Some "d") 3%Z; mkPair (Some "a") (Some "e") 1%Z;
             mkPair (Some "b") (Some "f") 2%Z;
             mkPair (Some "x") None maxCost; mkPair None (Some "y") maxCost]
   ≤ length [Some "a"; Some "b"; Some "c"; Some "x"]
     + length [Some "d"; Some "e"; Some "f"; Some "y"])%nat.
Proof.
  apply (Assign_length_bounds None _ _ _ _ _ assign_cheaper_updates).
Defined.

Lemma Assign_no_split_witness :
  length [mkPair (Some "a") (Some "b") (maxCost - 1)]
  = (length [Some "a"] `max` length [Some "b"])%nat.
Proof.
  apply (Assign_no_split None _ _ _ _ _ assign_below_max_cost_update).
  intros x y Hx Hy.
  apply list_elem_of_singleton in Hx, Hy. subst x y.
  vm_compute. discriminate.
Defined.

Lemma potentials_signs_witness :
  let options := deltaOptions [("a", "c", 1); ("a", "d", 2);
                               ("b", "c", 3); ("b", "d", 1)] in
  let costs := build_costs None options [Some "a"; Some "b"]
                 [Some "c"; Some "d"] 2 in
  ∃ s, phases options 8 costs 2 = Some s ∧
       Forall (λ j, targetCost s !!! j ≤ 0 ∧ 0 ≤ sourceCost s !!! j)
              [0; 1; 2]%nat.
Proof.
  intros options costs.
  destruct (phases options 8 costs 2) as [s|] eqn:E;
    [|vm_compute in E; discriminate E].
  exists s. split; [reflexivity|].
  destruct run2_ok as [HM Hok].
  pose proof (potentials_signs options (λ x, x) costs 8 2 s HM Hok
                ltac:(vm_compute; lia) E) as Hs.
  repeat constructor; apply Hs; vm_compute; lia.
Defined.

Lemma matched_cost_is_dual_value_witness :
  let options := deltaOptions [("a", "c", 1); ("a", "d", 2);
                               ("b", "c", 3); ("b", "d", 1)] in
  let costs := build_costs None options [Some "a"; Some "b"]
                 [Some "c"; Some "d"] 2 in
  ∃ s, phases options 8 costs 1 = Some s ∧
       matched_cost (λ x, x) costs (length costs) (targetSource s) =
       foldr Z.add 0 ((λ i, sourceCost s !!! i) <$> seq 0 1) +
       foldr Z.add 0 ((λ j, targetCost s !!! j) <$> seq 0 (length costs)).
Proof.
  intros options costs.
  destruct (phases options 8 costs 1) as [s|] eqn:E;
    [|vm_compute in E; discriminate E].
  exists s. split; [reflexivity|].
  destruct run2_ok as [HM Hok].
  apply (matched_cost_is_dual_value options (λ x, x) costs 8 1 s HM Hok);
    [vm_compute; lia | exact E].
Defined.

Lemma partial_matching_is_optimal_witness :
  let options := deltaOptions [("a", "c", 1); ("a", "d", 2);
                               ("b", "c", 3); ("b", "d", 1)] in
  let costs := build_costs None options [Some "a"; Some "b"]
                 [Some "c"; Some "d"] 2 in
  ∃ s, phases options 8 costs 1 = Some s ∧
       matched_cost (λ x, x) costs (length costs) (targetSource s)
       ≤ rows_cost (λ x, x) costs [1]%nat.
Proof.
  intros options costs.
  destruct (phases options 8 costs 1) as [s|] eqn:E;
    [|vm_compute in E; discriminate E].
  exists s. split; [reflexivity|].
  destruct run2_ok as [HM Hok].
  apply (partial_matching_is_optimal options (λ x, x) costs 8 1 s [1]%nat
           HM Hok); [vm_compute; lia | exact E | reflexivity | |].
  - repeat constructor; intros Hin; inversion Hin.
  - apply Forall_cons_2; [vm_compute; lia | apply Forall_nil_2].
Defined.

End assign_extra.
